(** * CodeAtlas: architecture extraction and recovery pipeline

    A shallow embedding of [packages/core/src/fileSelector.ts] and of the
    chunked analysis path of [packages/core/src/ollamaClient.ts] (the first
    class of that name: [analyze], [analyzeChunk], [mergeChunkResults],
    [createFallbackAnalysis], [parseOllamaResponse] and the helpers they
    call), with the properties of the pipeline stated and proved over it.

    - JavaScript strings are [string]: sequences of code units below 256.
      The string methods the code calls are in [Js], its regular
      expressions are terms run by the backtracking matcher of [Regex].
    - Numbers that count or index are [nat] or [Z]; a confidence is a
      rational ([Q]): comparing two doubles is comparing their exact values.
    - The interfaces of [types.ts] are records.  A value of an interface is
      a value of the declared type: a fragment holds modules, relationships
      and a pattern, not the arbitrary values a parsed response of
      TypeScript type [any] can put in their place.
    - Code that can throw returns a [result]; [tryCatch] is the
      [try]/[catch] statement.  The injected logger only writes messages and
      is left out. *)

From Stdlib Require Import String Ascii List ZArith QArith Lia Bool Permutation
  Sorted.
From stdpp Require Import base list gmap strings pretty.

Local Open Scope string_scope.
Local Open Scope list_scope.
Local Open Scope nat_scope.

(* ===================================================================== *)
(** ** The string primitives of the JavaScript runtime the code calls *)
(* ===================================================================== *)

Module Js.

Definition chars (s : string) : list ascii := list_ascii_of_string s.
Definition str (l : list ascii) : string := string_of_list_ascii l.

Definition code (c : ascii) : nat := nat_of_ascii c.

(** The double quote, and a text between double quotes. *)
Definition dquote : ascii := ascii_of_nat 34.
Definition quoted (s : string) : string :=
  String dquote (s +:+ String dquote EmptyString).

Definition between (lo hi : nat) (c : ascii) : bool :=
  (lo <=? code c) && (code c <=? hi).

(** [\s] of regular expressions, which is also what [trim] strips:
    white space and line terminators. *)
Definition isSpace (c : ascii) : bool :=
  between 9 13 c || (code c =? 32) || (code c =? 160).

(** Line terminators, for [.], [^] and [$]. *)
Definition isLineTerminator (c : ascii) : bool :=
  (code c =? 10) || (code c =? 13).

Definition isUpper (c : ascii) : bool := between 65 90 c.
Definition isLower (c : ascii) : bool := between 97 122 c.
Definition isDigit (c : ascii) : bool := between 48 57 c.
Definition isAlpha (c : ascii) : bool := isUpper c || isLower c.
(** [\w] *)
Definition isWord (c : ascii) : bool :=
  isAlpha c || isDigit c || (code c =? 95).

(** [toLowerCase] on one code unit: the ASCII letters and the Latin-1
    capitals. *)
Definition lowerChar (c : ascii) : ascii :=
  if isUpper c || (between 192 222 c && negb (code c =? 215))
  then ascii_of_nat (code c + 32) else c.

(** [toUpperCase] on one ASCII letter, as [charAt(0).toUpperCase()] needs
    it for the layer names. *)
Definition upperChar (c : ascii) : ascii :=
  if isLower c || (between 224 254 c && negb (code c =? 247))
  then ascii_of_nat (code c - 32) else c.

Fixpoint toLowerCase (s : string) : string :=
  match s with
  | EmptyString => EmptyString
  | String c s' => String (lowerChar c) (toLowerCase s')
  end.

Definition eqb (a b : string) : bool := String.eqb a b.

(** [s.startsWith(p)] *)
Fixpoint startsWith (s p : string) : bool :=
  match p, s with
  | EmptyString, _ => true
  | String a p', String b s' => Ascii.eqb a b && startsWith s' p'
  | String _ _, EmptyString => false
  end.

(** [s.includes(sub)] *)
Fixpoint includes (s sub : string) : bool :=
  startsWith s sub ||
  match s with
  | EmptyString => false
  | String _ s' => includes s' sub
  end.

(** [s.endsWith(suf)] *)
Fixpoint endsWith (s suf : string) : bool :=
  (String.length s =? String.length suf) && eqb s suf ||
  match s with
  | EmptyString => false
  | String _ s' => endsWith s' suf
  end.

(** [s.indexOf(c)] for a one-character needle; [-1] when absent. *)
Fixpoint indexOf (s : string) (c : ascii) : Z :=
  match s with
  | EmptyString => (-1)%Z
  | String a s' =>
      if Ascii.eqb a c then 0%Z
      else let i := indexOf s' c in
           if (i <? 0)%Z then (-1)%Z else (i + 1)%Z
  end.

(** [s.lastIndexOf(c)]; [-1] when absent. *)
Fixpoint lastIndexOf (s : string) (c : ascii) : Z :=
  match s with
  | EmptyString => (-1)%Z
  | String a s' =>
      let i := lastIndexOf s' c in
      if (0 <=? i)%Z then (i + 1)%Z
      else if Ascii.eqb a c then 0%Z else (-1)%Z
  end.

Definition clamp (len : nat) (i : Z) : nat :=
  Nat.min len (Z.to_nat i).

(** [s.substring(a, b)]: both indices clamped to [0, length], swapped when
    out of order. *)
Definition substring (s : string) (a b : Z) : string :=
  let len := String.length s in
  let a' := clamp len a in
  let b' := clamp len b in
  let lo := Nat.min a' b' in
  let hi := Nat.max a' b' in
  String.substring lo (hi - lo) s.

(** [s.substring(a)] *)
Definition substringFrom (s : string) (a : Z) : string :=
  substring s a (Z.of_nat (String.length s)).

Fixpoint dropSpaces (l : list ascii) : list ascii :=
  match l with
  | c :: l' => if isSpace c then dropSpaces l' else l
  | [] => []
  end.

(** [s.trim()] *)
Definition trim (s : string) : string :=
  str (rev (dropSpaces (rev (dropSpaces (chars s))))).

(** [s.split(sep)] for a one-character separator: never an empty array. *)
Fixpoint split_go (sep : ascii) (cur : list ascii) (l : list ascii)
  : list string :=
  match l with
  | [] => [str (rev cur)]
  | c :: l' =>
      if Ascii.eqb c sep then str (rev cur) :: split_go sep [] l'
      else split_go sep (c :: cur) l'
  end.
Definition split (s : string) (sep : ascii) : list string :=
  split_go sep [] (chars s).

(** [parts.join(sep)] *)
Fixpoint join (parts : list string) (sep : string) : string :=
  match parts with
  | [] => ""
  | [p] => p
  | p :: ps => p +:+ sep +:+ join ps sep
  end.

(** [a.pop()]: the array without its last element, and that element
    ([undefined] on the empty array). *)
Definition pop {A} (l : list A) : list A * option A :=
  (removelast l, last l).

(** [x || d] on a string: the empty string is falsy. *)
Definition orElse (x d : string) : string :=
  if eqb x "" then d else x.

(** [String(n)] for a natural number. *)
Definition ofNat (n : nat) : string := pretty n.

End Js.

(* ===================================================================== *)
(** ** Regular expressions

    The regular expressions of the source are written as terms of [re] and
    run by a backtracking matcher that follows the order of the JavaScript
    one: alternatives left to right, greedy quantifiers longest first, lazy
    ones shortest first, and an iteration of a star that consumes nothing is
    rejected. *)
(* ===================================================================== *)

Module Regex.

Inductive re : Type :=
| Eps
| Chr (p : ascii -> bool)
| Seq (a b : re)
| Alt (a b : re)
| Star (greedy : bool) (a : re)
| Group (i : nat) (a : re)
| Bol (multiline : bool)
| Eol (multiline : bool)
| LookAhead (a : re).

(** The state of a match: the code unit before the current position, the
    input still to read, and the capture groups set so far. *)
Record st : Type := St {
  prev : option ascii;
  rest : list ascii;
  caps : list (nat * string)
}.

(** The text consumed between two states of one match. *)
Definition consumed (s s' : st) : list ascii :=
  firstn (length (rest s) - length (rest s')) (rest s).

Definition atBol (multiline : bool) (s : st) : bool :=
  match prev s with
  | None => true
  | Some c => multiline && Js.isLineTerminator c
  end.

Definition atEol (multiline : bool) (s : st) : bool :=
  match rest s with
  | [] => true
  | c :: _ => multiline && Js.isLineTerminator c
  end.

Definition orTry {A} (x y : option A) : option A :=
  match x with Some _ => x | None => y end.

(** The iterations of a star: [body] matches one iteration and hands the
    state after it to its continuation.  An iteration that consumes nothing
    is rejected; every other one shortens the input, so that a fuel above
    the length of the input is never used up. *)
Definition starLoop (body : st -> (st -> option st) -> option st)
  (greedy : bool) (k : st -> option st) : nat -> st -> option st :=
  fix loop (fuel : nat) (s : st) {struct fuel} : option st :=
    match fuel with
    | O => k s
    | S fuel' =>
        let again :=
          body s (fun s' =>
            if length (rest s') <? length (rest s)
            then loop fuel' s' else None) in
        if greedy then orTry again (k s) else orTry (k s) again
    end.

Fixpoint run (r : re) (s : st) (k : st -> option st) {struct r}
  : option st :=
  match r with
  | Eps => k s
  | Chr p =>
      match rest s with
      | c :: l => if p c then k (St (Some c) l (caps s)) else None
      | [] => None
      end
  | Seq a b => run a s (fun s' => run b s' k)
  | Alt a b => orTry (run a s k) (run b s k)
  | Star greedy a => starLoop (run a) greedy k (S (length (rest s))) s
  | Group i a =>
      run a s (fun s' =>
        k (St (prev s') (rest s') ((i, Js.str (consumed s s')) :: caps s')))
  | Bol m => if atBol m s then k s else None
  | Eol m => if atEol m s then k s else None
  | LookAhead a =>
      match run a s Some with
      | Some s' => k (St (prev s) (rest s) (caps s'))
      | None => None
      end
  end.

(** One successful match: the text before it, the matched text, the
    groups, and the state after it. *)
Record found : Type := Found {
  before : list ascii;
  matched : list ascii;
  groups : list (nat * string);
  after : st
}.

Definition matchAt (r : re) (p : option ascii) (l : list ascii)
  : option st :=
  run r (St p l []) Some.

(** The leftmost match at or after the current position. *)
Fixpoint search (r : re) (p : option ascii) (skipped : list ascii)
  (l : list ascii) {struct l} : option found :=
  match matchAt r p l with
  | Some s' =>
      Some (Found (rev skipped) (consumed (St p l []) s') (caps s') s')
  | None =>
      match l with
      | [] => None
      | c :: l' => search r (Some c) (c :: skipped) l'
      end
  end.

(** [re.test(s)] for an expression without the [g] flag. *)
Definition test (r : re) (s : string) : bool :=
  match search r None [] (Js.chars s) with
  | Some _ => true
  | None => false
  end.

(** The group [i] of a match; [undefined] when it did not take part. *)
Definition group (i : nat) (f : found) : option string :=
  snd <$> List.find (fun c => fst c =? i) (groups f).

(** [s.match(r)] for an expression without the [g] flag. *)
Definition exec (r : re) (s : string) : option found :=
  search r None [] (Js.chars s).

(** All the matches of an expression with the [g] flag, left to right,
    each search starting where the previous match ended (one code unit
    further after an empty match). *)
Fixpoint allFrom (fuel : nat) (r : re) (p : option ascii)
  (skipped : list ascii) (l : list ascii) : list found :=
  match fuel with
  | O => []
  | S fuel' =>
      match search r p skipped l with
      | None => []
      | Some f =>
          match matched f, rest (after f) with
          | [], [] => [f]
          | [], c :: l' => f :: allFrom fuel' r (Some c) [c] l'
          | _ :: _, l' => f :: allFrom fuel' r (prev (after f)) [] l'
          end
      end
  end.

Definition all (r : re) (s : string) : list found :=
  allFrom (S (String.length s)) r None [] (Js.chars s).

(** [s.match(r)] for an expression with the [g] flag: the matched texts. *)
Definition matchAll (r : re) (s : string) : list string :=
  map (fun f => Js.str (matched f)) (all r s).

(** A replacement text: literal pieces and [$n] references. *)
Inductive piece : Type :=
| Lit (s : string)
| Ref (i : nat).

Definition expand (t : list piece) (f : found) : list ascii :=
  concat (map (fun p =>
                 match p with
                 | Lit s => Js.chars s
                 | Ref i => Js.chars (default "" (group i f))
                 end) t).

Fixpoint rebuild (t : list piece) (fs : list found) (tail : list ascii)
  : list ascii :=
  match fs with
  | [] => tail
  | [f] => before f ++ expand t f ++ rest (after f)
  | f :: fs' => before f ++ expand t f ++ rebuild t fs' tail
  end.

(** [s.replace(r, t)] for an expression with the [g] flag. *)
Definition replaceAll (r : re) (t : list piece) (s : string) : string :=
  Js.str (rebuild t (all r s) (Js.chars s)).

(** [s.replace(r, t)] for an expression without the [g] flag. *)
Definition replaceFirst (r : re) (t : list piece) (s : string) : string :=
  match exec r s with
  | None => s
  | Some f => Js.str (before f ++ expand t f ++ rest (after f))
  end.

(** *** Notations of the source's expressions *)

Definition chr (c : ascii) : re := Chr (Ascii.eqb c).

(** A character of the pattern under the [i] flag: the two cases of an
    ASCII letter match each other. *)
Definition foldCase (c : ascii) : ascii :=
  if Js.isUpper c then Js.lowerChar c else c.
Definition chrI (c : ascii) : re :=
  Chr (fun x => Ascii.eqb (foldCase c) (foldCase x)).

Fixpoint lit (s : string) : re :=
  match s with
  | EmptyString => Eps
  | String c EmptyString => chr c
  | String c s' => Seq (chr c) (lit s')
  end.

Fixpoint litI (s : string) : re :=
  match s with
  | EmptyString => Eps
  | String c EmptyString => chrI c
  | String c s' => Seq (chrI c) (litI s')
  end.

Definition plus (greedy : bool) (a : re) : re := Seq a (Star greedy a).
Definition opt (a : re) : re := Alt a Eps.
Definition space : re := Chr Js.isSpace.
Definition word : re := Chr Js.isWord.
Definition dot : re := Chr (fun c => negb (Js.isLineTerminator c)).
Definition anyChar : re := Chr (fun _ => true).
Definition oneOf (s : string) : re :=
  Chr (fun c => existsb (Ascii.eqb c) (Js.chars s)).
Definition noneOf (s : string) : re :=
  Chr (fun c => negb (existsb (Ascii.eqb c) (Js.chars s))).

Fixpoint seqs (l : list re) : re :=
  match l with
  | [] => Eps
  | [a] => a
  | a :: l' => Seq a (seqs l')
  end.

Fixpoint alts (l : list re) : re :=
  match l with
  | [] => Eps
  | [a] => a
  | a :: l' => Alt a (alts l')
  end.

End Regex.

(* ===================================================================== *)
(** ** The data model of [types.ts] *)
(* ===================================================================== *)

Module FileContext.
Record t : Type := mk {
  path : string;
  content : string;
  language : option string;
  size : option nat
}.
(** A file given by its path and content only. *)
Definition file (p c : string) : t := mk p c None None.
End FileContext.

Module ModuleType.
Inductive t : Type :=
| component | service | utility | model | controller | view | config
| test | other.
Global Instance eq_dec : EqDecision t.
Proof. solve_decision. Defined.
End ModuleType.

Module Layer.
Inductive t : Type :=
| presentation | business | data | infrastructure | other.
Global Instance eq_dec : EqDecision t.
Proof. solve_decision. Defined.

(** The layer as the string the code uses for a map key. *)
Definition toString (l : t) : string :=
  match l with
  | presentation => "presentation"
  | business => "business"
  | data => "data"
  | infrastructure => "infrastructure"
  | other => "other"
  end.
End Layer.

(** The interface [Module] of the source. *)
Module Mod.
Record t : Type := mk {
  name : string;
  path : string;
  type : ModuleType.t;
  layer : option Layer.t;
  description : option string;
  exports : option (list string);
  imports : option (list string)
}.
End Mod.

Module RelType.
Inductive t : Type :=
| imports | extends | implements | uses | calls | depends | aggregates
| composes.
End RelType.

Module Strength.
Inductive t : Type := weak | medium | strong.
End Strength.

Module Relationship.
Record t : Type := mk {
  from : string;
  to : string;
  type : RelType.t;
  strength : option Strength.t;
  description : option string
}.
End Relationship.

Module PatternName.
Inductive t : Type :=
| MVC | Layered | Microservices | EventDriven | ClientServer | Monolithic
| Unknown.
Global Instance eq_dec : EqDecision t.
Proof. solve_decision. Defined.
End PatternName.

Module ArchitecturalPattern.
Record t : Type := mk {
  name : PatternName.t;
  confidence : Q;
  description : string
}.
End ArchitecturalPattern.

Module LayerGroup.
Record t : Type := mk {
  name : string;
  modules : list string
}.
End LayerGroup.

Module ArchitectureAnalysis.
Record t : Type := mk {
  modules : list Mod.t;
  relationships : list Relationship.t;
  summary : string;
  pattern : option ArchitecturalPattern.t;
  layers : option (list LayerGroup.t);
  entryPoints : option (list string);
  coreComponents : option (list string);
  raw : option string
}.
End ArchitectureAnalysis.

(** A JavaScript [Set<string>] whose iteration order the code relies on:
    the elements in insertion order, without repetition. *)
Module OrderedSet.
Definition t : Type := list string.
Definition has (s : t) (x : string) : bool := bool_decide (x ∈ s).
Definition add (s : t) (x : string) : t := if has s x then s else s ++ [x].
End OrderedSet.

(* ===================================================================== *)
(** ** [fileSelector.ts] *)
(* ===================================================================== *)

Module FileSelector.
Import Regex.

(** [(ts|tsx|js|jsx)], with and without the [i] flag *)
Definition extI : re := alts [litI "ts"; litI "tsx"; litI "js"; litI "jsx"].
Definition ext : re := alts [lit "ts"; lit "tsx"; lit "js"; lit "jsx"].

(** [/\.(ts|tsx|js|jsx)$/] *)
Definition extensionRe : re := seqs [chr "."; Group 1 ext; Eol false].

(** [/^(src\/)?(index|main|app|server|entry)\.(ts|tsx|js|jsx)$/i] and the
    four other expressions of [entryPointPatterns], in the source's order *)
Definition entryPointPatterns : list re :=
  let named (names : list string) :=
    seqs [Bol false; opt (Group 1 (litI "src/"));
          Group 2 (alts (map litI names)); chr "."; Group 3 extI;
          Eol false] in
  let single (nm : string) :=
    seqs [Bol false; opt (Group 1 (litI "src/")); litI nm; chr ".";
          Group 2 extI; Eol false] in
  [ named ["index"; "main"; "app"; "server"; "entry"];
    named ["index"; "main"; "app"; "server"; "entry"];
    seqs [lit "package.json"; Eol false];
    single "app";
    single "server" ].

(** The last segment of a path: [path.split('/').pop() || ''] *)
Definition baseName (p : string) : string :=
  default "" (snd (Js.pop (Js.split p "/"))).

Definition findEntryPoints (files : list FileContext.t) : OrderedSet.t :=
  foldl (fun entryPoints file =>
           let fileName := baseName (FileContext.path file) in
           let path := Js.toLowerCase (FileContext.path file) in
           if existsb (fun pattern => test pattern fileName || test pattern path)
                entryPointPatterns
           then OrderedSet.add entryPoints (FileContext.path file)
           else entryPoints)
        [] files.

Definition corePatterns : list re :=
  [ seqs [chr "/"; litI "service"; opt (chrI "s"); chr "/"];
    seqs [chr "/"; litI "core"; chr "/"];
    seqs [chr "/"; litI "util"; opt (chrI "s"); chr "/"];
    seqs [chr "/"; litI "model"; opt (chrI "s"); chr "/"];
    seqs [chr "/"; litI "lib"; chr "/"];
    seqs [litI "service"; chr "."; Group 1 extI; Eol false];
    seqs [litI "util"; chr "."; Group 1 extI; Eol false] ].

Definition findCoreFiles (files : list FileContext.t) : gset string :=
  foldl (fun coreFiles file =>
           let path := Js.toLowerCase (FileContext.path file) in
           if existsb (fun pattern => test pattern path) corePatterns
           then {[FileContext.path file]} ∪ coreFiles
           else coreFiles)
        ∅ files.

(** The import clause [\{[^}]*\}|\*\s+as\s+\w+|\w+] *)
Definition importClause : re :=
  alts [ seqs [chr "{"; Star true (noneOf "}"); chr "}"];
         seqs [chr "*"; plus true space; lit "as"; plus true space;
               plus true word];
         plus true word ].

(** The class of the two quotes, and its complement *)
Definition quotes : string := String "'" (String Js.dquote "").
Definition quote : re := oneOf quotes.
Definition notQuote : re := noneOf quotes.

(** [es6ImportRegex] *)
Definition es6ImportRegex : re :=
  seqs [ lit "import"; plus true space;
         opt (seqs [ importClause;
                     Star true (seqs [Star true space; chr ",";
                                      Star true space; importClause]);
                     plus true space; lit "from"; plus true space ]);
         quote; Group 1 (plus true notQuote); quote ].

(** [requireRegex] *)
Definition requireRegex : re :=
  seqs [ lit "require"; Star true space; chr "("; Star true space;
         quote; Group 1 (plus true notQuote); quote;
         Star true space; chr ")" ].

(** The first group of every match of an expression with the [g] flag:
    the [while ((match = re.exec(content)) !== null)] loops. *)
Definition firstGroups (r : re) (content : string) : list string :=
  map (fun f => default "" (group 1 f)) (all r content).

Definition extractImports (content filePath : string) : list string :=
  firstGroups es6ImportRegex content ++ firstGroups requireRegex content.

Definition resolveRelativePath (importPath fromDir : string) : string :=
  foldl (fun currentDir part =>
           if Js.eqb part "." then currentDir
           else if Js.eqb part ".." then
             Js.substring currentDir 0 (Js.lastIndexOf currentDir "/")
           else if Js.eqb currentDir "" then part
           else currentDir +:+ "/" +:+ part)
        fromDir (Js.split importPath "/").

(** The test a corpus file must pass to be the target of a relative
    import resolved to [resolved]. *)
Definition matchesRelative (resolved : string) (file : FileContext.t) : bool :=
  let filePathNoExt := replaceFirst extensionRe [] (FileContext.path file) in
  Js.eqb filePathNoExt resolved || Js.endsWith filePathNoExt ("/" +:+ resolved).

(** The test a corpus file must pass to be the target of a bare import
    whose last segment is [importName]. *)
Definition matchesBare (importName : string) (file : FileContext.t) : bool :=
  let fileName :=
    match snd (Js.pop (Js.split (FileContext.path file) "/")) with
    | Some seg => Js.orElse (replaceFirst extensionRe [] seg) ""
    | None => ""
    end in
  Js.eqb fileName importName.

(** [null] is [None]. *)
Definition resolveImport (importPath fromFile : string)
  (files : list FileContext.t) : option string :=
  let cleanImport := replaceFirst extensionRe [] importPath in
  if Js.startsWith cleanImport "." then
    let fromDir := Js.substring fromFile 0 (Js.lastIndexOf fromFile "/") in
    let resolved := resolveRelativePath cleanImport fromDir in
    FileContext.path <$> List.find (matchesRelative resolved) files
  else
    let importName := baseName cleanImport in
    FileContext.path <$> List.find (matchesBare importName) files.

(** A node of the import graph. *)
Record node : Type := Node {
  imports : gset string;
  importedBy : gset string
}.

Definition addImport (imp : string) (n : node) : node :=
  Node ({[imp]} ∪ imports n) (importedBy n).
Definition addImportedBy (p : string) (n : node) : node :=
  Node (imports n) ({[p]} ∪ importedBy n).

Definition buildImportGraph (files : list FileContext.t)
  : gmap string node :=
  let init :=
    foldl (fun graph file => <[FileContext.path file := Node ∅ ∅]> graph)
          (∅ : gmap string node) files in
  foldl (fun graph file =>
           let fpath := FileContext.path file in
           foldl (fun graph imp =>
                    let graph := alter (addImport imp) fpath graph in
                    match resolveImport imp fpath files with
                    | Some targetFile =>
                        if negb (Js.eqb targetFile "")
                           && negb (Js.eqb targetFile fpath)
                        then alter (addImportedBy fpath) targetFile graph
                        else graph
                    | None => graph
                    end)
                 graph (extractImports (FileContext.content file) fpath))
        init files.

Definition isConfigFile (path : string) : bool :=
  existsb (fun pattern => test pattern path)
    [ seqs [litI "config"; chr "."; Group 1 extI; Eol false];
      seqs [chr "."; litI "config"; chr "."; Group 1 extI; Eol false];
      seqs [litI "package"; chr "."; litI "json"; Eol false];
      seqs [litI "tsconfig"; chr "."; litI "json"; Eol false];
      seqs [litI "webpack"; chr "."; litI "config"; chr "."; Group 1 extI;
            Eol false] ].

Definition isServiceFile (path : string) : bool :=
  test (seqs [litI "service"; chr "."; Group 1 extI; Eol false]) path
  || test (seqs [chr "/"; litI "service"; opt (chrI "s"); chr "/"])
          (Js.toLowerCase path).

Definition isTestFile (path : string) : bool :=
  test (seqs [litI "test"; chr "."; Group 1 extI; Eol false]) path
  || test (seqs [litI "spec"; chr "."; Group 1 extI; Eol false]) path
  || test (seqs [chr "."; litI "test"; chr "."; Group 1 extI; Eol false]) path
  || test (seqs [chr "."; litI "spec"; chr "."; Group 1 extI; Eol false]) path
  || test (seqs [chr "/"; litI "test"]) (Js.toLowerCase path)
  || test (seqs [chr "/"; litI "spec"]) (Js.toLowerCase path).

(** The body of the scoring loop for one file. *)
Definition score (entryPoints : OrderedSet.t) (coreFiles : gset string)
  (importGraph : gmap string node) (file : FileContext.t) : Z :=
  let p := FileContext.path file in
  let score := 0%Z in
  let score := if OrderedSet.has entryPoints p then (score + 100)%Z else score in
  let score := if bool_decide (p ∈ coreFiles) then (score + 80)%Z else score in
  let importCount :=
    match importGraph !! p with
    | Some n => size (importedBy n)
    | None => 0
    end in
  let score := (score + Z.of_nat importCount * 5)%Z in
  let exportCount :=
    match importGraph !! p with
    | Some n => size (imports n)
    | None => 0
    end in
  let score := (score + Z.of_nat exportCount * 3)%Z in
  let score := if isConfigFile p then (score + 50)%Z else score in
  let score := if isServiceFile p then (score + 30)%Z else score in
  let score := if isTestFile p then (score - 20)%Z else score in
  let score :=
    if Js.includes p "/src/" || Js.includes p "/lib/"
    then (score + 10)%Z else score in
  score.

(** [Array.prototype.sort] with the comparator [scoreB - scoreA]: the
    sort is stable, so the result is the one arrangement by decreasing
    score that keeps files of equal score in their original order. *)
Fixpoint insertByScore (sc : FileContext.t -> Z) (a : FileContext.t)
  (sorted : list FileContext.t) : list FileContext.t :=
  match sorted with
  | [] => [a]
  | b :: rest =>
      if (0 <? sc b - sc a)%Z then b :: insertByScore sc a rest
      else a :: sorted
  end.

Fixpoint sortByScore (sc : FileContext.t -> Z) (files : list FileContext.t)
  : list FileContext.t :=
  match files with
  | [] => []
  | a :: rest => insertByScore sc a (sortByScore sc rest)
  end.

(** [fileScores]: the map from path to score filled by the scoring loop. *)
Definition scoreMap (files : list FileContext.t) : gmap string Z :=
  let entryPoints := findEntryPoints files in
  let coreFiles := findCoreFiles files in
  let importGraph := buildImportGraph files in
  foldl (fun fileScores file =>
           <[FileContext.path file :=
               score entryPoints coreFiles importGraph file]> fileScores)
        (∅ : gmap string Z) files.

(** [fileScores.get(a.path) || 0] *)
Definition scoreOf (fileScores : gmap string Z) (a : FileContext.t) : Z :=
  default 0%Z (fileScores !! FileContext.path a).

Definition sortedFiles (files : list FileContext.t) : list FileContext.t :=
  sortByScore (scoreOf (scoreMap files)) files.

(** The loop that pushes the entry points missing from the selection; the
    state is [selected] and [selectedPaths]. *)
Definition pushEntryPoints (files : list FileContext.t)
  (entryPoints : OrderedSet.t) (selected : list FileContext.t)
  : list FileContext.t :=
  fst (foldl (fun '(selected, selectedPaths) path =>
                if bool_decide (path ∈ (selectedPaths : gset string))
                then (selected, selectedPaths)
                else match List.find (fun f => Js.eqb (FileContext.path f) path)
                             files with
                     | Some file =>
                         (selected ++ [file], {[path]} ∪ selectedPaths)
                     | None => (selected, selectedPaths)
                     end)
             (selected,
              list_to_set (map FileContext.path selected) : gset string)
             entryPoints).

Definition selectImportantFiles (files : list FileContext.t)
  (maxFiles : nat) : list FileContext.t :=
  if length files <=? maxFiles then files
  else
    let entryPoints := findEntryPoints files in
    let selected := firstn maxFiles (sortedFiles files) in
    let selected := pushEntryPoints files entryPoints selected in
    let finalSelection := firstn maxFiles selected in
    finalSelection.

End FileSelector.

(* ===================================================================== *)
(** ** [ollamaClient.ts]: the heuristics on paths and modules *)
(* ===================================================================== *)

Module Heuristics.
Import Regex.

Definition inferModuleType (path : string) : ModuleType.t :=
  let lower := Js.toLowerCase path in
  if Js.includes lower "test" then ModuleType.test
  else if Js.includes lower "controller" then ModuleType.controller
  else if Js.includes lower "service" then ModuleType.service
  else if Js.includes lower "model" then ModuleType.model
  else if Js.includes lower "view" || Js.includes lower "component"
       then ModuleType.view
  else if Js.includes lower "util" then ModuleType.utility
  else if Js.includes lower "config" then ModuleType.config
  else if Js.includes lower "component" then ModuleType.component
  else ModuleType.other.

Definition inferLayer (path : string) : Layer.t :=
  let lower := Js.toLowerCase path in
  if Js.includes lower "view" || Js.includes lower "component"
     || Js.includes lower "page" || Js.includes lower "ui"
  then Layer.presentation
  else if Js.includes lower "service" || Js.includes lower "business"
          || Js.includes lower "logic"
  then Layer.business
  else if Js.includes lower "model" || Js.includes lower "data"
          || Js.includes lower "db" || Js.includes lower "database"
  then Layer.data
  else if Js.includes lower "config" || Js.includes lower "infrastructure"
          || Js.includes lower "infra"
  then Layer.infrastructure
  else Layer.other.

Definition newline : ascii := ascii_of_nat 10.

(** [/(?:\/\/|#|<!--)\s*(.+?)(?:\n|$)/] *)
Definition commentRe : re :=
  seqs [ alts [lit "//"; lit "#"; lit "<!--"]; Star true space;
         Group 1 (plus false dot); alts [chr newline; Eol false] ].

Definition inferDescription (path content : string) : string :=
  let lines := firstn 10 (Js.split content newline) in
  match exec commentRe (Js.join lines (String newline "")) with
  | Some commentMatch =>
      Js.substring (Js.trim (default "" (group 1 commentMatch))) 0 100
  | None => ""
  end.

(** [/\.[^/.]+$/] *)
Definition lastExtensionRe : re :=
  seqs [chr "."; plus true (noneOf "/."); Eol false].

(** [path.split('/').pop()?.replace(/\.[^/.]+$/, '') || path] *)
Definition moduleName (path : string) : string :=
  match snd (Js.pop (Js.split path "/")) with
  | Some seg => Js.orElse (replaceFirst lastExtensionRe [] seg) path
  | None => path
  end.

(** The module synthesized for a file from its path and content, as
    [createFallbackAnalysis] and [mergeWithAllFiles] both build it. *)
Definition heuristicModule (f : FileContext.t) : Mod.t :=
  Mod.mk (moduleName (FileContext.path f))
         (FileContext.path f)
         (inferModuleType (FileContext.path f))
         (Some (inferLayer (FileContext.path f)))
         (Some (inferDescription (FileContext.path f) (FileContext.content f)))
         None None.

Definition createFallbackAnalysis (chunkFiles : list FileContext.t)
  : ArchitectureAnalysis.t :=
  ArchitectureAnalysis.mk
    (map heuristicModule chunkFiles)
    []
    ("Fallback analysis for " +:+ Js.ofNat (length chunkFiles) +:+ " files")
    (Some (ArchitecturalPattern.mk PatternName.Unknown 0
             "Chunk analysis failed"))
    (Some []) (Some []) (Some []) None.

(** The flags [inferArchitecturalPattern] raises while it walks the
    modules. *)
Record signals : Type := Signals {
  hasControllers : bool;
  hasViews : bool;
  hasModels : bool;
  hasServices : bool;
  hasLayers : bool;
  hasComponents : bool;
  hasRoutes : bool;
  hasFlask : bool;
  hasReact : bool;
  hasNext : bool
}.

Definition noSignals : signals :=
  Signals false false false false false false false false false false.

Definition isType (m : Mod.t) (t : ModuleType.t) : bool :=
  bool_decide (Mod.type m = t).

(** The conditions of the [if] statements in the body of
    [modules.forEach], on the lower-cased path and name of the module. *)
Definition lowerPath (m : Mod.t) : string := Js.toLowerCase (Mod.path m).
Definition lowerName (m : Mod.t) : string := Js.toLowerCase (Mod.name m).

Definition controllerModule (m : Mod.t) : bool :=
  isType m ModuleType.controller || Js.includes (lowerPath m) "controller"
  || Js.includes (lowerName m) "controller".
Definition viewModule (m : Mod.t) : bool :=
  isType m ModuleType.view || Js.includes (lowerPath m) "view"
  || Js.includes (lowerName m) "view" || Js.includes (lowerPath m) "component".
Definition modelModule (m : Mod.t) : bool :=
  isType m ModuleType.model || Js.includes (lowerPath m) "model"
  || Js.includes (lowerName m) "model".
Definition serviceModule (m : Mod.t) : bool :=
  isType m ModuleType.service || Js.includes (lowerPath m) "service"
  || Js.includes (lowerName m) "service".
Definition componentModule (m : Mod.t) : bool :=
  isType m ModuleType.component || Js.includes (lowerPath m) "component".
Definition routeModule (m : Mod.t) : bool :=
  Js.includes (lowerPath m) "route" || Js.includes (lowerPath m) "api/".
Definition layeredModule (m : Mod.t) : bool :=
  match Mod.layer m with
  | Some l => negb (bool_decide (l = Layer.other))
  | None => false
  end.
Definition flaskModule (m : Mod.t) : bool :=
  Js.includes (lowerPath m) "flask" || Js.includes (lowerPath m) "app.py"
  || Js.includes (lowerPath m) "main.py".
Definition reactModule (m : Mod.t) : bool :=
  Js.includes (lowerPath m) "react" || Js.includes (lowerPath m) ".jsx"
  || Js.includes (lowerPath m) ".tsx".
Definition nextModule (m : Mod.t) : bool :=
  Js.includes (lowerPath m) "next" || Js.includes (lowerPath m) "pages"
  || Js.includes (lowerPath m) "app/".

(** The body of [modules.forEach] for one module: a flag is raised when
    the condition of its [if] holds, and never lowered. *)
Definition observe (s : signals) (m : Mod.t) : signals :=
  Signals
    (hasControllers s || controllerModule m)
    (hasViews s || viewModule m)
    (hasModels s || modelModule m)
    (hasServices s || serviceModule m)
    (hasLayers s || layeredModule m)
    (hasComponents s || componentModule m)
    (hasRoutes s || routeModule m)
    (hasFlask s || flaskModule m)
    (hasReact s || reactModule m)
    (hasNext s || nextModule m).

Definition pattern (n : PatternName.t) (c : Q) (d : string)
  : ArchitecturalPattern.t := ArchitecturalPattern.mk n c d.

Definition inferArchitecturalPattern (analysis : ArchitectureAnalysis.t)
  : ArchitecturalPattern.t :=
  let modules := ArchitectureAnalysis.modules analysis in
  let relationships := ArchitectureAnalysis.relationships analysis in
  let s := foldl observe noSignals modules in
  if hasControllers s && hasViews s && hasModels s then
    pattern PatternName.MVC (85 # 100)
      "Detected Model-View-Controller pattern with clear separation of concerns"
  else if hasLayers s || (hasServices s && hasModels s && hasViews s) then
    pattern PatternName.Layered (75 # 100)
      "Detected layered architecture with separation of concerns across multiple layers"
  else if hasNext s || (hasReact s && hasComponents s) then
    pattern PatternName.Layered (70 # 100)
      "Detected component-based architecture typical of React/Next.js applications"
  else if hasFlask s && hasRoutes s then
    pattern PatternName.Layered (70 # 100)
      "Detected Flask-based web application with layered structure"
  else if hasServices s && (5 <? length modules)
          && (length modules <? 2 * length relationships) then
    pattern PatternName.Microservices (60 # 100)
      "Detected potential microservices architecture with multiple service modules"
  else if (3 <? length modules)
          && (hasServices s || hasModels s || hasViews s) then
    pattern PatternName.Layered (60 # 100)
      "Detected layered architecture based on module types and structure"
  else
    pattern PatternName.Unknown (30 # 100)
      "Could not confidently determine architectural pattern from available information".

(** [name.charAt(0).toUpperCase() + name.slice(1)] *)
Definition capitalize (name : string) : string :=
  match name with
  | EmptyString => EmptyString
  | String c rest => String (Js.upperChar c) rest
  end.

(** The [Map<string, string[]>] of [groupByLayers], in insertion order. *)
Fixpoint pushInto (layerMap : list (string * list string))
  (layer path : string) : list (string * list string) :=
  match layerMap with
  | [] => [(layer, [path])]
  | (k, paths) :: rest =>
      if Js.eqb k layer then (k, paths ++ [path]) :: rest
      else (k, paths) :: pushInto rest layer path
  end.

Definition groupByLayers (modules : list Mod.t) : list LayerGroup.t :=
  let layerMap :=
    foldl (fun layerMap m =>
             let layer :=
               match Mod.layer m with
               | Some l => Layer.toString l
               | None => "other"
               end in
             pushInto layerMap layer (Mod.path m))
          [] modules in
  map (fun '(name, mods) => LayerGroup.mk (capitalize name) mods) layerMap.

End Heuristics.

(* ===================================================================== *)
(** ** Exceptions

    Code that can throw returns a [result]; [tryCatch] is the [try]/[catch]
    statement. *)
(* ===================================================================== *)

Inductive exn : Type :=
| SyntaxError (message : string)
| TypeError (message : string).

Inductive result (A : Type) : Type :=
| Ok (a : A)
| Throw (e : exn).
Arguments Ok {A} a.
Arguments Throw {A} e.

Definition bind {A B} (x : result A) (f : A -> result B) : result B :=
  match x with
  | Ok a => f a
  | Throw e => Throw e
  end.

Notation "x <- c ;; k" := (bind c (fun x => k))
  (at level 100, c at next level, right associativity).

Definition tryCatch {A} (body : result A) (handler : exn -> result A)
  : result A :=
  match body with
  | Ok a => Ok a
  | Throw e => handler e
  end.

(* ===================================================================== *)
(** ** [ollamaClient.ts]: the decoder [parseOllamaResponse] *)
(* ===================================================================== *)

Module Decoder.
Import Regex Heuristics.

Definition backtick3 : string := "```".

(** The four fence-stripping replacements, all with the flags [gim]. *)
Definition stripFences (s : string) : string :=
  let s := replaceAll (seqs [Bol true; litI (backtick3 +:+ "json");
                             Star true space]) [] s in
  let s := replaceAll (seqs [Bol true; lit backtick3; Star true space]) [] s in
  let s := replaceAll (seqs [lit backtick3; Eol true]) [] s in
  let s := replaceAll (seqs [litI (backtick3 +:+ "json"); Eol true]) [] s in
  s.

(** Lines 516 to 537: the fences and the text around the braces go. *)
Definition cleanResponse (fullResponse : string) : string :=
  let cleanJson := Js.trim fullResponse in
  let cleanJson := stripFences cleanJson in
  let cleanJson := Js.trim cleanJson in
  let firstBraceIdx := Js.indexOf cleanJson "{" in
  let lastBraceIdx := Js.lastIndexOf cleanJson "}" in
  let cleanJson :=
    if (0 <? firstBraceIdx)%Z then Js.substringFrom cleanJson firstBraceIdx
    else cleanJson in
  let cleanJson :=
    if (0 <=? lastBraceIdx)%Z
       && (lastBraceIdx <? Z.of_nat (String.length cleanJson) - 1)%Z
    then Js.substring cleanJson 0 (lastBraceIdx + 1)
    else cleanJson in
  Js.trim cleanJson.

(** The loop of lines 550 to 579 from index [i] on: the index of the
    brace that closes the first one, or [-1]. *)
Fixpoint scanBraces (l : list ascii) (i : Z) (braceCount : Z)
  (inString escapeNext : bool) : Z :=
  match l with
  | [] => (-1)%Z
  | char :: l' =>
      if escapeNext then scanBraces l' (i + 1)%Z braceCount inString false
      else if Ascii.eqb char "\" then
        scanBraces l' (i + 1)%Z braceCount inString true
      else if Ascii.eqb char Js.dquote then
        scanBraces l' (i + 1)%Z braceCount (negb inString) false
      else if negb inString then
        if Ascii.eqb char "{" then
          scanBraces l' (i + 1)%Z (braceCount + 1)%Z inString false
        else if Ascii.eqb char "}" then
          if (braceCount - 1 =? 0)%Z then i
          else scanBraces l' (i + 1)%Z (braceCount - 1)%Z inString false
        else scanBraces l' (i + 1)%Z braceCount inString false
      else scanBraces l' (i + 1)%Z braceCount inString false
  end.

(** Methods 1 and 2, lines 540 to 595. *)
Definition extractJson (cleanJson : string) : string :=
  let jsonString := cleanJson in
  let firstBrace := Js.indexOf cleanJson "{" in
  let jsonString :=
    if negb (firstBrace =? -1)%Z then
      let lastBrace :=
        scanBraces (skipn (Z.to_nat firstBrace) (Js.chars cleanJson))
                   firstBrace 0 false false in
      if negb (lastBrace =? -1)%Z && (firstBrace <? lastBrace)%Z
      then Js.substring cleanJson firstBrace (lastBrace + 1)
      else jsonString
    else jsonString in
  if negb (Js.startsWith (Js.trim jsonString) "{")
     || (String.length (Js.trim jsonString) <? 10)
  then
    let firstBrace := Js.indexOf cleanJson "{" in
    let lastBrace := Js.lastIndexOf cleanJson "}" in
    if negb (firstBrace =? -1)%Z && negb (lastBrace =? -1)%Z
       && (firstBrace <? lastBrace)%Z
    then Js.substring cleanJson firstBrace (lastBrace + 1)
    else jsonString
  else jsonString.

(** The repairs of lines 597 to 606. *)
Definition repairJson (jsonString : string) : string :=
  let jsonString :=
    replaceAll (seqs [chr ","; Group 1 (Seq (Star true space) (oneOf "}]"))])
               [Ref 1] jsonString in
  let jsonString :=
    replaceAll
      (seqs [ Group 1 (Seq (oneOf "{,") (Star true space));
              Group 2 (Seq (Chr (fun c => Js.isAlpha c || Ascii.eqb c "_"))
                           (Star true word));
              Star true space; chr ":" ])
      [Ref 1; Lit (String Js.dquote ""); Ref 2; Lit (String Js.dquote ":")]
      jsonString in
  let jsonString :=
    replaceAll (seqs [lit "//"; Star true dot; Eol true]) [] jsonString in
  let jsonString :=
    replaceAll (seqs [lit "/*"; Star false anyChar; lit "*/"]) []
               jsonString in
  jsonString.

(** The text handed to [JSON.parse]. *)
Definition jsonStringOf (fullResponse : string) : string :=
  repairJson (extractJson (cleanResponse fullResponse)).

(** The expression that finds the array of a quoted field:
    the field, [\s*:\s*\[([\s\S]*?)\](?=\s*[,}])] *)
Definition arrayFieldRe (field : string) : re :=
  seqs [ lit (Js.quoted field); Star true space; chr ":";
         Star true space; chr "["; Group 1 (Star false anyChar); chr "]";
         LookAhead (Seq (Star true space) (oneOf ",}")) ].

(** The expression that finds the summary: the quoted field, [\s*:\s*],
    and between double quotes the group of code units that are neither a
    double quote nor a backslash, or a backslash and one more code unit. *)
Definition summaryRe : re :=
  seqs [ lit (Js.quoted "summary"); Star true space; chr ":";
         Star true space; chr Js.dquote;
         Group 1 (Star true (Alt (noneOf (String Js.dquote "\"))
                                 (Seq (chr "\") dot)));
         chr Js.dquote ].

(** The two replacements on the summary: a backslash and a double quote
    become the double quote, a backslash and [n] become a line feed. *)
Definition unescapeSummary (s : string) : string :=
  replaceAll (lit "\n") [Lit (String newline "")]
    (replaceAll (lit (String "\" (String Js.dquote "")))
                [Lit (String Js.dquote "")] s).

Section Parse.
(** The decoder works on the value [JSON.parse] returns, of the
    TypeScript type [any].  What the runtime and the dynamically typed
    statements do with a text or a value is not fixed here: the decoder
    is defined, and its properties are proved, for every behaviour of

    - [JSON_parse], the parser of the runtime, which returns a value or
      throws;
    - [normalizeParsed], the statements of lines 613 to 742, which turn
      the parsed value into the analysis the [try] block returns: they
      read fields of the value (which throws on [null]), map over what
      should be arrays, infer a missing pattern and fill defaults, and
      so return an analysis or throw;
    - [recoverModules], the [modules.map] of lines 759 to 765, which
      returns the modules or throws;
    - [asRelationships], the parsed array of relationships, which the
      code returns as it is and the model reads at its declared type.

    What is fixed is the control flow around them: which text is
    parsed, which exceptions are caught where, and what is returned
    when they are. *)
Context {any : Type}.
Variable JSON_parse : string -> result any.
Variable normalizeParsed :
  any -> list FileContext.t -> result ArchitectureAnalysis.t.
Variable recoverModules : any -> result (list Mod.t).
Variable asRelationships : any -> list Relationship.t.

(** The [try] block of line 609. *)
Definition parseClean (jsonString : string) (files : list FileContext.t)
  : result ArchitectureAnalysis.t :=
  parsed <- JSON_parse jsonString ;;
  normalizeParsed parsed files.

(** The analysis assembled from the fields found by the expressions,
    lines 756 to 778. *)
Definition recoveredAnalysis (modulesText : string)
  (relationshipsMatch summaryMatch : option found)
  : result ArchitectureAnalysis.t :=
  modules <- JSON_parse ("[" +:+ modulesText +:+ "]") ;;
  mods <- recoverModules modules ;;
  Ok (ArchitectureAnalysis.mk
        mods
        match relationshipsMatch with
        | Some m =>
            match JSON_parse ("[" +:+ default "" (group 1 m) +:+ "]") with
            | Ok rels => asRelationships rels
            | Throw _ => []
            end
        | None => []
        end
        match summaryMatch with
        | Some m => unescapeSummary (default "" (group 1 m))
        | None => "Chunk analysis completed"
        end
        (Some (ArchitecturalPattern.mk PatternName.Unknown (30 # 100)
                 "Partial recovery"))
        (Some []) (Some []) (Some []) None).

(** The [catch (parseError)] block: [Some] when it returns an analysis,
    [None] when control leaves it for the statement that follows. *)
Definition recoverFields (jsonString : string)
  : result (option ArchitectureAnalysis.t) :=
  tryCatch
    (let modulesMatch := exec (arrayFieldRe "modules") jsonString in
     let relationshipsMatch :=
       exec (arrayFieldRe "relationships") jsonString in
     let summaryMatch := exec summaryRe jsonString in
     match modulesMatch with
     | Some m =>
         tryCatch
           (a <- recoveredAnalysis (default "" (group 1 m))
                   relationshipsMatch summaryMatch ;;
            Ok (Some a))
           (fun e => Ok None)
     | None => Ok None
     end)
    (fun recoveryError => Ok None).

Definition parseOllamaResponse (fullResponse : string)
  (files : list FileContext.t) : result ArchitectureAnalysis.t :=
  if Js.eqb fullResponse "" || (String.length (Js.trim fullResponse) =? 0)
  then Ok (createFallbackAnalysis files)
  else
    let jsonString := jsonStringOf fullResponse in
    attempt <-
      tryCatch (a <- parseClean jsonString files ;; Ok (Some a))
               (fun parseError => recoverFields jsonString) ;;
    match attempt with
    | Some a => Ok a
    | None => Ok (createFallbackAnalysis files)
    end.

End Parse.
End Decoder.


(* ===================================================================== *)
(** ** [ollamaClient.ts]: the merge engine and [analyze] *)
(* ===================================================================== *)

Module OllamaClient.
Import Regex Heuristics.

(** The key of a relationship in the sets of the merge: the template
    string of lines 420, 1093 and 1107. *)
Definition relKey (from to : string) : string := from +:+ "->" +:+ to.

Definition keyOf (rel : Relationship.t) : string :=
  relKey (Relationship.from rel) (Relationship.to rel).

(** [moduleMap], a [Map<string, Module>] read back in insertion order. *)
Definition mapHas (moduleMap : list (string * Mod.t)) (path : string) : bool :=
  existsb (fun kv => Js.eqb (fst kv) path) moduleMap.

(** The body of the loop of lines 408 to 412. *)
Definition setIfAbsent (moduleMap : list (string * Mod.t)) (module : Mod.t)
  : list (string * Mod.t) :=
  if mapHas moduleMap (Mod.path module) then moduleMap
  else moduleMap ++ [(Mod.path module, module)].

(** Lines 405 to 413, and [Array.from(moduleMap.values())]. *)
Definition mergeModules (chunkResults : list ArchitectureAnalysis.t)
  : list Mod.t :=
  map snd
    (foldl (fun moduleMap chunk =>
              foldl setIfAbsent moduleMap (ArchitectureAnalysis.modules chunk))
           [] chunkResults).

(** One step of a loop that pushes a relationship unless its key is in
    the set; the state is the array and the set. *)
Definition pushUnlessSeen (st : list Relationship.t * gset string)
  (rel : Relationship.t) : list Relationship.t * gset string :=
  let '(relationships, seen) := st in
  if bool_decide (keyOf rel ∈ seen) then (relationships, seen)
  else (relationships ++ [rel], {[keyOf rel]} ∪ seen).

(** Lines 415 to 426. *)
Definition mergeRelationships (chunkResults : list ArchitectureAnalysis.t)
  : list Relationship.t :=
  fst (foldl (fun st chunk =>
                foldl pushUnlessSeen st (ArchitectureAnalysis.relationships chunk))
             ([], ∅) chunkResults).

(** Lines 446 to 450. *)
Definition combineSummaries (chunkResults : list ArchitectureAnalysis.t)
  (allFiles : list FileContext.t) : string :=
  let summaries :=
    filter (fun s => s ≠ "") (map ArchitectureAnalysis.summary chunkResults) in
  if 0 <? length summaries then Js.join summaries " "
  else "Analyzed " +:+ Js.ofNat (length allFiles) +:+ " files across "
       +:+ Js.ofNat (length chunkResults) +:+ " chunks".

(** [a > b] on confidences. *)
Definition Qgtb (a b : Q) : bool := negb (Qle_bool a b).

(** The callback of [patterns.reduce]. *)
Definition better (best current : ArchitecturalPattern.t)
  : ArchitecturalPattern.t :=
  if Qgtb (ArchitecturalPattern.confidence current)
          (ArchitecturalPattern.confidence best)
  then current else best.

(** [chunkResults.map(c => c.pattern).filter(p => p && p.name !== 'Unknown')] *)
Definition candidatePatterns (chunkResults : list ArchitectureAnalysis.t)
  : list ArchitecturalPattern.t :=
  filter (fun p => ArchitecturalPattern.name p ≠ PatternName.Unknown)
         (omap ArchitectureAnalysis.pattern chunkResults).

(** Lines 452 to 458. *)
Definition bestPattern (chunkResults : list ArchitectureAnalysis.t)
  : ArchitecturalPattern.t :=
  match candidatePatterns chunkResults with
  | first :: others => foldl better first others
  | [] => ArchitecturalPattern.mk PatternName.Unknown 0
            "Could not determine pattern"
  end.

(** Lines 460 to 466, for one of the two fields. *)
Definition mergeSets (field : ArchitectureAnalysis.t -> option (list string))
  (chunkResults : list ArchitectureAnalysis.t) : list string :=
  foldl (fun set chunk => foldl OrderedSet.add set (default [] (field chunk)))
        [] chunkResults.

Definition mergeWithAllFiles (analyzedModules : list Mod.t)
  (allFiles selectedFiles : list FileContext.t) : list Mod.t :=
  let analyzedPaths : gset string :=
    list_to_set (map Mod.path analyzedModules) in
  foldl (fun allModules file =>
           if bool_decide (FileContext.path file ∈ analyzedPaths)
           then allModules
           else allModules ++ [heuristicModule file])
        analyzedModules allFiles.

(** The [resolveRelativePath] of the client. *)
Definition resolveRelativePath (relativePath baseDir : string) : string :=
  if Js.startsWith relativePath "./" then
    baseDir +:+ "/" +:+ Js.substringFrom relativePath 2
  else if Js.startsWith relativePath "../" then
    let parts := fst (Js.pop (Js.split baseDir "/")) in
    Js.join parts "/" +:+ "/" +:+ Js.substringFrom relativePath 3
  else relativePath.

(** [/\.(js|ts|tsx|jsx|py)$/] *)
Definition sourceExtensionRe : re :=
  seqs [chr "."; Group 1 (alts [lit "js"; lit "ts"; lit "tsx"; lit "jsx";
                               lit "py"]); Eol false].

Definition resolveImportPath (importPath fromPath : string)
  (files : list FileContext.t) : option string :=
  let pathParts := fst (Js.pop (Js.split fromPath "/")) in
  let relativePath :=
    if Js.startsWith importPath "./" || Js.startsWith importPath "../"
    then resolveRelativePath importPath (Js.join pathParts "/")
    else importPath in
  let matchingFile :=
    List.find (fun f =>
                 Js.eqb (FileContext.path f) relativePath
                 || Js.endsWith (FileContext.path f) relativePath
                 || Js.includes (FileContext.path f)
                      (replaceFirst sourceExtensionRe [] relativePath))
              files in
  match matchingFile with
  | Some f => if Js.eqb (FileContext.path f) "" then None
              else Some (FileContext.path f)
  | None => None
  end.

(** The expression of line 1098, with the flag [g]: one of the words
    [import], [from] and [require], [\s+], and a quoted import literal; and
    the expression applied to each of its matches, the quoted literal
    alone. *)
Definition importLiteralRe : re :=
  seqs [ FileSelector.quote; Group 1 (plus true FileSelector.notQuote);
         FileSelector.quote ].
Definition importStatementRe : re :=
  seqs [ alts [lit "import"; lit "from"; lit "require"]; plus true space;
         FileSelector.quote; Group 1 (plus true FileSelector.notQuote);
         FileSelector.quote ].

(** The import literals of the first 10000 code units of a content. *)
Definition importLiterals (content : string) : list string :=
  omap (fun imp => exec importLiteralRe imp ≫= group 1)
       (matchAll importStatementRe (Js.substring content 0 10000)).

(** The edge the backfill proposes for one import literal of a file. *)
Definition importEdge (modulePaths : gset string)
  (allFiles : list FileContext.t) (file : FileContext.t) (importPath : string)
  : option Relationship.t :=
  match resolveImportPath importPath (FileContext.path file) allFiles with
  | Some resolvedPath =>
      if bool_decide (resolvedPath ∈ modulePaths)
         && negb (Js.eqb resolvedPath (FileContext.path file))
      then Some (Relationship.mk (FileContext.path file) resolvedPath
                   RelType.imports (Some Strength.medium)
                   (Some ("Imports from " +:+ resolvedPath)))
      else None
  | None => None
  end.

Definition inferAllRelationships (allModules : list Mod.t)
  (allFiles : list FileContext.t) (existingRelationships : list Relationship.t)
  : list Relationship.t :=
  let modulePaths : gset string := list_to_set (map Mod.path allModules) in
  let existingRelKeys : gset string :=
    list_to_set (map keyOf existingRelationships) in
  fst (foldl (fun st file =>
                foldl (fun st importPath =>
                         match importEdge modulePaths allFiles file importPath with
                         | Some rel => pushUnlessSeen st rel
                         | None => st
                         end)
                      st (importLiterals (FileContext.content file)))
             (existingRelationships, existingRelKeys) allFiles).

(** [mergeChunkResults].  The [layers] the source merges from the fragments
    in lines 428 to 444 are not used: the graph gets the layers of
    [groupByLayers]. *)
Definition mergeChunkResults (chunkResults : list ArchitectureAnalysis.t)
  (allFiles selectedFiles : list FileContext.t) : ArchitectureAnalysis.t :=
  let relationships := mergeRelationships chunkResults in
  let combinedSummary := combineSummaries chunkResults allFiles in
  let allModules :=
    mergeWithAllFiles (mergeModules chunkResults) allFiles selectedFiles in
  let allRelationships :=
    inferAllRelationships allModules allFiles relationships in
  ArchitectureAnalysis.mk
    allModules
    allRelationships
    combinedSummary
    (Some (bestPattern chunkResults))
    (Some (groupByLayers allModules))
    (Some (mergeSets ArchitectureAnalysis.entryPoints chunkResults))
    (Some (mergeSets ArchitectureAnalysis.coreComponents chunkResults))
    None.

(** [Math.min(10, Math.max(5, Math.floor(files.length * 0.10)))]; the
    product by the double 0.10 has the floor of the tenth for every length
    an array can have. *)
Definition maxFilesFor (n : nat) : nat := Nat.min 10 (Nat.max 5 (n / 10)).

Definition chunkSize : nat := 5.

(** The loop of lines 88 to 90. *)
Fixpoint chunksOf (fuel : nat) (selectedFiles : list FileContext.t)
  : list (list FileContext.t) :=
  match fuel, selectedFiles with
  | S fuel', _ :: _ =>
      firstn chunkSize selectedFiles
      :: chunksOf fuel' (skipn chunkSize selectedFiles)
  | _, _ => []
  end.

Definition isTestPath (p : string) : bool :=
  Js.includes p "test" || Js.includes p "spec" || Js.includes p ".cy."
  || Js.includes p "cypress".

(** What the two requests of [analyzeChunk] end in: no usable response
    (both protocols failed, a timeout, a status that is not ok), or the
    text of the response. *)
Inductive reply : Type :=
| Failed
| Responded (fullResponse : string).

Section Analyze.
Context {any : Type}.
Variable JSON_parse : string -> result any.
Variable normalizeParsed :
  any -> list FileContext.t -> result ArchitectureAnalysis.t.
Variable recoverModules : any -> result (list Mod.t).
Variable asRelationships : any -> list Relationship.t.

(** The inference service, which sees what the prompt is built from. *)
Variable service :
  list FileContext.t -> list FileContext.t -> bool -> nat -> nat -> reply.

Definition analyzeChunk (chunkFiles allFiles : list FileContext.t)
  (isTestSuite : bool) (chunkIndex totalChunks : nat)
  : ArchitectureAnalysis.t :=
  match service chunkFiles allFiles isTestSuite chunkIndex totalChunks with
  | Failed => createFallbackAnalysis chunkFiles
  | Responded fullResponse =>
      if Js.eqb fullResponse "" || (String.length (Js.trim fullResponse) =? 0)
      then createFallbackAnalysis chunkFiles
      else
        match Decoder.parseOllamaResponse JSON_parse normalizeParsed
                recoverModules asRelationships fullResponse chunkFiles with
        | Ok analysis => analysis
        | Throw error => createFallbackAnalysis chunkFiles
        end
  end.

Definition selectFiles (files : list FileContext.t) : list FileContext.t :=
  let maxFiles := maxFilesFor (length files) in
  if maxFiles <? length files
  then FileSelector.selectImportantFiles files maxFiles
  else files.

Definition chunksFor (files : list FileContext.t) : list (list FileContext.t) :=
  let selectedFiles := selectFiles files in
  chunksOf (length selectedFiles) selectedFiles.

Definition chunkResultsFor (files : list FileContext.t)
  : list ArchitectureAnalysis.t :=
  let selectedFiles := selectFiles files in
  let testFileCount :=
    length (filter (fun f => isTestPath (FileContext.path f) = true)
                   selectedFiles) in
  let isTestSuite := length selectedFiles <? 2 * testFileCount in
  let chunks := chunksFor files in
  imap (fun idx chunk =>
          analyzeChunk chunk files isTestSuite (idx + 1) (length chunks))
       chunks.

Definition analyze (files : list FileContext.t) : ArchitectureAnalysis.t :=
  mergeChunkResults (chunkResultsFor files) files (selectFiles files).

End Analyze.
End OllamaClient.
(* ===================================================================== *)
(** ** [diagramGenerator.ts]: the Mermaid text of an analysis

    The first class of the file: [generateComponentDiagram], which the
    route of the web application calls on the result of [analyze],
    [generateLayeredDiagram] and their helpers.  A diagram is built as an
    array of lines joined by line feeds. *)
(* ===================================================================== *)

Module DiagramGenerator.

(** The string of a module type and of a relationship type. *)
Definition typeName (t : ModuleType.t) : string :=
  match t with
  | ModuleType.component => "component"
  | ModuleType.service => "service"
  | ModuleType.utility => "utility"
  | ModuleType.model => "model"
  | ModuleType.controller => "controller"
  | ModuleType.view => "view"
  | ModuleType.config => "config"
  | ModuleType.test => "test"
  | ModuleType.other => "other"
  end.

Definition relName (t : RelType.t) : string :=
  match t with
  | RelType.imports => "imports"
  | RelType.extends => "extends"
  | RelType.implements => "implements"
  | RelType.uses => "uses"
  | RelType.calls => "calls"
  | RelType.depends => "depends"
  | RelType.aggregates => "aggregates"
  | RelType.composes => "composes"
  end.

Definition formatModuleName (name : string) : string :=
  if 25 <? String.length name then Js.substring name 0 22 +:+ "..."
  else name.

Definition formatRelationshipLabel (r : Relationship.t) : string :=
  let described :=
    match Relationship.description r with
    | Some description =>
        negb (Js.eqb description "") && (String.length description <? 30)
    | None => false
    end in
  if described then default "" (Relationship.description r)
  else if negb (Js.eqb (relName (Relationship.type r)) "depends")
  then relName (Relationship.type r)
  else "".

(** The brackets of a node: [start] and [end]. *)
Definition getNodeShape (type : ModuleType.t) : string * string :=
  match type with
  | ModuleType.service => ("[[", "]]")
  | ModuleType.model => ("[(", ")]")
  | ModuleType.controller => ("[/", "/]")
  | ModuleType.view => ("([", "])")
  | ModuleType.config => ("{", "}")
  | _ => ("[", "]")
  end.

Definition getArrowStyle (type : RelType.t) : string :=
  match type with
  | RelType.extends | RelType.implements => "--|>"
  | RelType.imports | RelType.uses => "-->"
  | RelType.calls => "-.->"
  | RelType.aggregates => "--o"
  | RelType.composes => "==>"
  | _ => "-->"
  end.

(** [null] is [None]. *)
Definition getLayerStyleClass (layerName : string) : option string :=
  let name := Js.toLowerCase layerName in
  if Js.includes name "presentation" || Js.includes name "view"
     || Js.includes name "ui"
  then Some "presentation"
  else if Js.includes name "business" || Js.includes name "service"
          || Js.includes name "logic"
  then Some "business"
  else if Js.includes name "data" || Js.includes name "database"
          || Js.includes name "model"
  then Some "data"
  else if Js.includes name "infrastructure" || Js.includes name "infra"
  then Some "infrastructure"
  else if Js.includes name "cache" then Some "cache"
  else if Js.includes name "monitor" || Js.includes name "logging"
  then Some "monitoring"
  else if Js.includes name "communication" || Js.includes name "message"
          || Js.includes name "api"
  then Some "communication"
  else None.

(** [name || path.split('/').pop() || `Module${idx}`], formatted. *)
Definition displayName (name path : string) (idx : nat) : string :=
  formatModuleName
    (Js.orElse name
       (Js.orElse (default "" (snd (Js.pop (Js.split path "/"))))
          ("Module" +:+ Js.ofNat idx))).

(** The line of a relationship between two drawn nodes; none when an end
    of the relationship has no node. *)
Definition edgeLine (nodeMap : gmap string string) (r : Relationship.t)
  : option string :=
  match nodeMap !! Relationship.from r, nodeMap !! Relationship.to r with
  | Some fromId, Some toId =>
      let arrow := getArrowStyle (Relationship.type r) in
      let label := formatRelationshipLabel r in
      Some (if negb (Js.eqb label "")
            then "    " +:+ fromId +:+ " " +:+ arrow +:+ "|" +:+ Js.quoted label
                 +:+ "| " +:+ toId
            else "    " +:+ fromId +:+ " " +:+ arrow +:+ " " +:+ toId)
  | _, _ => None
  end.

(** What the loops that draw the nodes carry: the lines, the map from a
    path to the identifier of its node, and the counter [nodeIdx]. *)
Record drawing : Type := Drawing {
  lines : list string;
  nodeMap : gmap string string;
  nodeIdx : nat
}.

Definition push (d : drawing) (new : list string) : drawing :=
  Drawing (lines d ++ new) (nodeMap d) (nodeIdx d).

(** A loop over an array with the index of each element. *)
Fixpoint foldli {A St : Type} (f : St -> nat -> A -> St) (i : nat) (s : St)
  (l : list A) : St :=
  match l with
  | [] => s
  | x :: l' => foldli f (S i) (f s i x) l'
  end.

(** *** The component diagram *)







(** *** The layered diagram *)

Definition layeredHeader : list string :=
  [ "flowchart TB";
    "    classDef presentation fill:#EF4444,stroke:#B91C1C,stroke-width:2px,color:#fff,font-weight:500";
    "    classDef business fill:#3B82F6,stroke:#1E40AF,stroke-width:2px,color:#fff,font-weight:500";
    "    classDef data fill:#10B981,stroke:#047857,stroke-width:2px,color:#fff,font-weight:500";
    "    classDef infrastructure fill:#F59E0B,stroke:#B45309,stroke-width:2px,color:#fff,font-weight:500";
    "    classDef other fill:#6B7280,stroke:#4B5563,stroke-width:2px,color:#fff,font-weight:500";
    "    classDef cache fill:#06B6D4,stroke:#0E7490,stroke-width:2px,color:#fff,font-weight:500";
    "    classDef monitoring fill:#8B5CF6,stroke:#6D28D9,stroke-width:2px,color:#fff,font-weight:500";
    "    classDef communication fill:#EC4899,stroke:#BE185D,stroke-width:2px,color:#fff,font-weight:500";
    "" ].

(** The body of [layer.modules.forEach]: the node of the path
    [modulePath], the [modIdx]-th of the layer of index [layerIdx]. *)
Definition drawLayerModule (modules : list Mod.t) (layerIdx : nat)
  (layerName : string) (d : drawing) (modIdx : nat) (modulePath : string)
  : drawing :=
  let module := List.find (fun m => Js.eqb (Mod.path m) modulePath) modules in
  let nodeId := "L" +:+ Js.ofNat layerIdx +:+ "_M" +:+ Js.ofNat modIdx in
  let displayName :=
    displayName (from_option Mod.name "" module) modulePath modIdx in
  let shape :=
    match module with
    | Some m => getNodeShape (Mod.type m)
    | None => ("[", "]")
    end in
  let styleClass :=
    match getLayerStyleClass layerName with
    | Some layerStyle => layerStyle
    | None =>
        match module with
        | Some m =>
            if negb (bool_decide (Mod.type m = ModuleType.other))
            then typeName (Mod.type m) else "other"
        | None => "other"
        end
    end in
  Drawing
    (lines d
     ++ [ "        " +:+ nodeId +:+ fst shape +:+ Js.quoted displayName
          +:+ snd shape;
          "        class " +:+ nodeId +:+ " " +:+ styleClass ])
    (<[modulePath := nodeId]> (nodeMap d))
    (nodeIdx d).

(** The body of [layers.forEach]. *)
Definition drawLayer (modules : list Mod.t) (d : drawing) (layerIdx : nat)
  (layer : LayerGroup.t) : drawing :=
  let layerName :=
    Js.orElse (LayerGroup.name layer) ("Layer " +:+ Js.ofNat layerIdx) in
  let d := push d ["    subgraph L" +:+ Js.ofNat layerIdx +:+ "["
                   +:+ Js.quoted layerName +:+ "]"] in
  let d :=
    if 0 <? length (LayerGroup.modules layer) then
      foldli (drawLayerModule modules layerIdx layerName) 0 d
             (LayerGroup.modules layer)
    else
      push d ["        Empty" +:+ Js.ofNat layerIdx +:+ "["
              +:+ Js.quoted "No modules" +:+ "]:::other"] in
  push d ["    end"; ""].

Definition layeredDrawing (modules : list Mod.t) (layers : list LayerGroup.t)
  : drawing :=
  foldli (drawLayer modules) 0 (Drawing layeredHeader ∅ 0) layers.

Definition layeredLines (analysis : ArchitectureAnalysis.t)
  (layers : list LayerGroup.t) : list string :=
  let d := layeredDrawing (ArchitectureAnalysis.modules analysis) layers in
  lines d
  ++ omap (edgeLine (nodeMap d)) (ArchitectureAnalysis.relationships analysis).

(** *** The two entry points

    Each function calls the other: the component diagram of an analysis
    some layer of which lists a module is its layered diagram, and the
    layered diagram of an analysis without layers is its component
    diagram.  The second call never leads back to the first, so each is
    written with the body the other runs in that case. *)






End DiagramGenerator.

(* ===================================================================== *)
(** ** The providers of the corpus and the route of the web application *)
(* ===================================================================== *)

Module Scanner.

(** The filter of [scanWorkspace] on the entries of the glob. *)
Definition backslash : string := String "\" "".

Definition isNonTest (f : string) : bool :=
  negb (Js.includes f ".test.")
  && negb (Js.includes f ".spec.")
  && negb (Js.includes f "/test/")
  && negb (Js.includes f "/tests/")
  && negb (Js.includes f (backslash +:+ "test" +:+ backslash))
  && negb (Js.includes f (backslash +:+ "tests" +:+ backslash)).

Definition filesToProcess (entries : list string) : list string :=
  let nonTestFiles := List.filter isNonTest entries in
  firstn 20 (if 0 <? length nonTestFiles then nonTestFiles else entries).

Definition maxContentLength : Z := 5000.

Section Scan.
(** The text of the document at a path of the workspace; opening it may
    throw, and the file is then left out. *)
Variable getText : string -> result string.

(** The loop over [filesToProcess], on the entries the glob returned. *)
Definition scanWorkspace (entries : list string) : list FileContext.t :=
  omap (fun file =>
          match getText file with
          | Ok content =>
              Some (FileContext.file file
                      (Js.substring content 0 maxContentLength))
          | Throw _ => None
          end)
       (filesToProcess entries).
End Scan.

End Scanner.

Module Route.



End Route.



(* ===================================================================== *)
(** * The vocabulary of the properties *)
(* ===================================================================== *)

(** How many elements of a list a test accepts. *)
Definition countIf {A} (p : A -> bool) (l : list A) : nat :=
  length (List.filter p l).

(** The completeness of a graph for a corpus: every path of the corpus is
    the path of exactly one module. *)
Definition hasOneModulePerPath (files : list FileContext.t)
  (graph : ArchitectureAnalysis.t) : Prop :=
  forall p, p ∈ map FileContext.path files ->
    countIf (fun m => Js.eqb (Mod.path m) p)
            (ArchitectureAnalysis.modules graph) = 1.

(** The invariant of the module map: its keys are the paths of its values
    and no key is repeated. *)
Definition keyedByPath (moduleMap : list (string * Mod.t)) : Prop :=
  Forall (fun kv => fst kv = Mod.path (snd kv)) moduleMap
  /\ NoDup (map fst moduleMap).

(** The files the backfill of [mergeWithAllFiles] makes a module for. *)
Definition unanalyzed (paths : gset string) (file : FileContext.t) : bool :=
  negb (bool_decide (FileContext.path file ∈ paths)).

(** All the modules and all the relationships of the fragments, in chunk
    order. *)
Definition fragmentModules (chunkResults : list ArchitectureAnalysis.t)
  : list Mod.t :=
  concat (map ArchitectureAnalysis.modules chunkResults).

Definition fragmentRelationships (chunkResults : list ArchitectureAnalysis.t)
  : list Relationship.t :=
  concat (map ArchitectureAnalysis.relationships chunkResults).

(** The identity of a relationship in the data model: the ordered pair. *)
Definition pairOf (rel : Relationship.t) : string * string :=
  (Relationship.from rel, Relationship.to rel).

(** The records a loop of [pushUnlessSeen] pushes, given the keys seen
    before it. *)
Fixpoint keepFirst (seen : gset string) (rels : list Relationship.t)
  : list Relationship.t :=
  match rels with
  | [] => []
  | rel :: rels' =>
      if bool_decide (OllamaClient.keyOf rel ∈ seen) then keepFirst seen rels'
      else rel :: keepFirst ({[OllamaClient.keyOf rel]} ∪ seen) rels'
  end.

(** The edges the backfill proposes, in the order of the files and of the
    import literals of each. *)
Definition proposedEdges (allModules : list Mod.t)
  (allFiles : list FileContext.t) : list Relationship.t :=
  concat (map (fun file =>
                 omap (OllamaClient.importEdge
                         (list_to_set (map Mod.path allModules)) allFiles file)
                      (OllamaClient.importLiterals (FileContext.content file)))
              allFiles).

(** The relationship [from -> to] as a fragment may hold it. *)
Definition usesRel (from to : string) : Relationship.t :=
  Relationship.mk from to RelType.uses None None.

(** A fragment with relationships only. *)
Definition fragmentOf (rels : list Relationship.t) : ArchitectureAnalysis.t :=
  ArchitectureAnalysis.mk [] rels "" None None None None None.


(** A run of the pipeline in which every request fails: the service gives
    no response, and the parser, never reached, rejects every text. *)
Definition offlineService
  : list FileContext.t -> list FileContext.t -> bool -> nat -> nat
    -> OllamaClient.reply :=
  fun _ _ _ _ _ => OllamaClient.Failed.

Definition rejectingParser : string -> result unit :=
  fun _ => Throw (SyntaxError "Unexpected token").

Definition analyzeOffline (files : list FileContext.t)
  : ArchitectureAnalysis.t :=
  OllamaClient.analyze rejectingParser
    (fun _ _ => Throw (TypeError "not an object")) (fun _ => Ok [])
    (fun _ => []) offlineService files.


(** Two files, the first importing the second. *)
Definition corpusOfTwo : list FileContext.t :=
  [ FileContext.file "src/a.ts" "import {x} from './util'";
    FileContext.file "src/util.ts" "" ].

(** The pattern of a merge without a candidate. *)
Definition undeterminedPattern : ArchitecturalPattern.t :=
  ArchitecturalPattern.mk PatternName.Unknown 0 "Could not determine pattern".

(** Two files with the same path. *)
Definition corpusOfTwins : list FileContext.t :=
  [FileContext.file "dup.ts" ""; FileContext.file "dup.ts" ""].

(** A service file that is a configuration file, a service file, and an
    entry point, in this order. *)
Definition corpusWithEntryPoint : list FileContext.t :=
  [ FileContext.file "src/services/a.config.ts" "";
    FileContext.file "src/services/b.ts" "";
    FileContext.file "index.ts" "" ].

(** A fragment with a pattern only. *)
Definition fragmentWithPattern (name : PatternName.t) (confidence : Q)
  : ArchitectureAnalysis.t :=
  ArchitectureAnalysis.mk [] [] ""
    (Some (ArchitecturalPattern.mk name confidence "")) None None None None.

(** The three fragments of the pattern selection example. *)
Definition fragmentsOfExample : list ArchitectureAnalysis.t :=
  [ fragmentWithPattern PatternName.Unknown (3 # 10);
    fragmentWithPattern PatternName.Layered (6 # 10);
    fragmentWithPattern PatternName.MVC (85 # 100) ].

(** The patterns the fragments carry. *)
Definition fragmentPatterns (chunkResults : list ArchitectureAnalysis.t)
  : list ArchitecturalPattern.t :=
  omap ArchitectureAnalysis.pattern chunkResults.

(** A decision list: the outcome of the first rule whose condition holds,
    or the default. *)
Definition firstMatch {R} (rules : list (bool * R)) (otherwise : R) : R :=
  match List.find fst rules with
  | Some rule => snd rule
  | None => otherwise
  end.

(** The conditions of the classifier on a module set: some module passes
    the test. *)
Definition someModule (test : Mod.t -> bool) (analysis : ArchitectureAnalysis.t)
  : bool :=
  existsb test (ArchitectureAnalysis.modules analysis).

Definition ruleMVC (a : ArchitectureAnalysis.t) : bool :=
  someModule Heuristics.controllerModule a && someModule Heuristics.viewModule a
  && someModule Heuristics.modelModule a.
Definition ruleLayered (a : ArchitectureAnalysis.t) : bool :=
  someModule Heuristics.layeredModule a
  || (someModule Heuristics.serviceModule a && someModule Heuristics.modelModule a
      && someModule Heuristics.viewModule a).
Definition ruleComponents (a : ArchitectureAnalysis.t) : bool :=
  someModule Heuristics.nextModule a
  || (someModule Heuristics.reactModule a && someModule Heuristics.componentModule a).
Definition ruleFlask (a : ArchitectureAnalysis.t) : bool :=
  someModule Heuristics.flaskModule a && someModule Heuristics.routeModule a.
Definition ruleMicroservices (a : ArchitectureAnalysis.t) : bool :=
  someModule Heuristics.serviceModule a
  && (5 <? length (ArchitectureAnalysis.modules a))
  && (length (ArchitectureAnalysis.modules a)
      <? 2 * length (ArchitectureAnalysis.relationships a)).
Definition ruleSomeStructure (a : ArchitectureAnalysis.t) : bool :=
  (3 <? length (ArchitectureAnalysis.modules a))
  && (someModule Heuristics.serviceModule a || someModule Heuristics.modelModule a
      || someModule Heuristics.viewModule a).

(** The rules of the classifier as the code has them, and as the claim
    lists them. *)
Definition rulesOfCode (a : ArchitectureAnalysis.t)
  : list (bool * (PatternName.t * Q)) :=
  [ (ruleMVC a, (PatternName.MVC, 85 # 100));
    (ruleLayered a, (PatternName.Layered, 75 # 100));
    (ruleComponents a, (PatternName.Layered, 70 # 100));
    (ruleFlask a, (PatternName.Layered, 70 # 100));
    (ruleMicroservices a, (PatternName.Microservices, 60 # 100));
    (ruleSomeStructure a, (PatternName.Layered, 60 # 100)) ].

Definition rulesOfClaim (a : ArchitectureAnalysis.t)
  : list (bool * (PatternName.t * Q)) :=
  [ (ruleMVC a, (PatternName.MVC, 85 # 100));
    (ruleLayered a, (PatternName.Layered, 75 # 100));
    (ruleComponents a, (PatternName.Layered, 70 # 100));
    (ruleMicroservices a, (PatternName.Microservices, 60 # 100)) ].

Definition classification (p : ArchitecturalPattern.t) : PatternName.t * Q :=
  (ArchitecturalPattern.name p, ArchitecturalPattern.confidence p).

(** A module given by its name, path and type, without a layer. *)
Definition plainModule (name path : string) (type : ModuleType.t) : Mod.t :=
  Mod.mk name path type None None None None.

(** An analysis with modules only. *)
Definition modulesOnly (modules : list Mod.t) : ArchitectureAnalysis.t :=
  ArchitectureAnalysis.mk modules [] "" None None None None None.

(** Four services, and a Flask application with its routes. *)
Definition fourServices : ArchitectureAnalysis.t :=
  modulesOnly [ plainModule "billing" "billing.go" ModuleType.service;
                plainModule "orders" "orders.go" ModuleType.service;
                plainModule "users" "users.go" ModuleType.service;
                plainModule "mail" "mail.go" ModuleType.service ].

Definition flaskApplication : ArchitectureAnalysis.t :=
  modulesOnly [ plainModule "app" "app.py" ModuleType.other;
                plainModule "routes" "routes.py" ModuleType.other ].

(** Whether a corpus file is a target of an import literal of a file, as
    [resolveImport] tests it. *)
Definition isTargetOf (importPath fromFile : string) (file : FileContext.t)
  : bool :=
  let cleanImport :=
    Regex.replaceFirst FileSelector.extensionRe [] importPath in
  if Js.startsWith cleanImport "." then
    FileSelector.matchesRelative
      (FileSelector.resolveRelativePath cleanImport
         (Js.substring fromFile 0 (Js.lastIndexOf fromFile "/")))
      file
  else FileSelector.matchesBare (FileSelector.baseName cleanImport) file.



(** In decreasing order of score, [a] may stand before [b]. *)
Definition notBelow (sc : FileContext.t -> Z) (a b : FileContext.t) : Prop :=
  (sc b <= sc a)%Z.

(** Six service files that are configuration files, and an entry point. *)
Definition corpusOfSeven : list FileContext.t :=
  map (fun p => FileContext.file p "")
      [ "src/services/a.config.ts"; "src/services/b.config.ts";
        "src/services/c.config.ts"; "src/services/d.config.ts";
        "src/services/e.config.ts"; "src/services/f.config.ts";
        "index.ts" ].
(** ** The loops of [buildImportGraph] *)

(** The graph after the first loop: an empty node for every path. *)
Definition emptyGraph (files : list FileContext.t)
  : gmap string FileSelector.node :=
  foldl (fun graph file =>
           <[FileContext.path file := FileSelector.Node ∅ ∅]> graph)
        ∅ files.

(** The body of [imports.forEach] for the file at [fpath]. *)
Definition importStep (files : list FileContext.t) (fpath : string)
  (graph : gmap string FileSelector.node) (imp : string)
  : gmap string FileSelector.node :=
  let graph := alter (FileSelector.addImport imp) fpath graph in
  match FileSelector.resolveImport imp fpath files with
  | Some targetFile =>
      if negb (Js.eqb targetFile "") && negb (Js.eqb targetFile fpath)
      then alter (FileSelector.addImportedBy fpath) targetFile graph
      else graph
  | None => graph
  end.

(** The body of the second [files.forEach]. *)
Definition importsOfFile (files : list FileContext.t)
  (graph : gmap string FileSelector.node) (file : FileContext.t)
  : gmap string FileSelector.node :=
  foldl (importStep files (FileContext.path file)) graph
        (FileSelector.extractImports (FileContext.content file)
           (FileContext.path file)).

(** The import literal [imp] of the file at [fpath] makes that file an
    importer of the path [target]. *)
Definition links (files : list FileContext.t) (fpath imp target : string)
  : Prop :=
  FileSelector.resolveImport imp fpath files = Some target
  /\ target ≠ "" /\ target ≠ fpath.

(** How a node grows in the loops: by the import literals [newImports]
    and the importers [newImporters]. *)
Definition grows (before after : option FileSelector.node)
  (newImports newImporters : string -> Prop) : Prop :=
  match after, before with
  | Some n', Some n =>
      (forall i, i ∈ FileSelector.imports n'
                 <-> i ∈ FileSelector.imports n \/ newImports i)
      /\ (forall q, q ∈ FileSelector.importedBy n'
                    <-> q ∈ FileSelector.importedBy n \/ newImporters q)
  | None, None => True
  | _, _ => False
  end.


(** The name of the group of a module in [groupByLayers]. *)
Definition groupOf (m : Mod.t) : string :=
  Heuristics.capitalize (from_option Layer.toString "other" (Mod.layer m)).

(** ** What the matcher finds

    [matches r s s']: the expression [r] matches the input of the state
    [s] up to the state [s'].  The matcher [Regex.run] only hands to its
    continuation states the expression matches up to. *)
Inductive matches : Regex.re -> Regex.st -> Regex.st -> Prop :=
| matches_eps s : matches Regex.Eps s s
| matches_chr p c l s :
    Regex.rest s = c :: l -> p c = true ->
    matches (Regex.Chr p) s (Regex.St (Some c) l (Regex.caps s))
| matches_seq a b s s1 s2 :
    matches a s s1 -> matches b s1 s2 -> matches (Regex.Seq a b) s s2
| matches_alt_l a b s s' : matches a s s' -> matches (Regex.Alt a b) s s'
| matches_alt_r a b s s' : matches b s s' -> matches (Regex.Alt a b) s s'
| matches_star_stop greedy a s : matches (Regex.Star greedy a) s s
| matches_star_step greedy a s s1 s2 :
    matches a s s1 ->
    length (Regex.rest s1) < length (Regex.rest s) ->
    matches (Regex.Star greedy a) s1 s2 ->
    matches (Regex.Star greedy a) s s2
| matches_group i a s s' :
    matches a s s' ->
    matches (Regex.Group i a) s
      (Regex.St (Regex.prev s') (Regex.rest s')
         ((i, Js.str (Regex.consumed s s')) :: Regex.caps s'))
| matches_bol m s : Regex.atBol m s = true -> matches (Regex.Bol m) s s
| matches_eol m s : Regex.atEol m s = true -> matches (Regex.Eol m) s s
| matches_look a s s' :
    matches a s s' ->
    matches (Regex.LookAhead a) s
      (Regex.St (Regex.prev s) (Regex.rest s) (Regex.caps s')).

(** The code unit before the position reached after [pre], from a
    position whose previous code unit is [p]. *)
Definition prevOf (p : option ascii) (pre : list ascii) : option ascii :=
  match last pre with
  | Some c => Some c
  | None => p
  end.

(** A code unit that is not a quote, and a text without a quote. *)
Definition notAQuote (c : ascii) : Prop := c ≠ "'"%char /\ c ≠ Js.dquote.
Definition isAQuote (c : ascii) : Prop := c = "'"%char \/ c = Js.dquote.

(** The text [literal] stands in [content] between two quotes, is not
    empty and holds no quote. *)
Definition quotedIn (content literal : string) : Prop :=
  literal ≠ ""
  /\ Forall notAQuote (Js.chars literal)
  /\ exists pre post q1 q2,
       Js.chars content = pre ++ q1 :: Js.chars literal ++ q2 :: post
       /\ isAQuote q1 /\ isAQuote q2.

(** ** Expressions that match finitely many words

    The expressions the selector tests paths with are made of code units,
    sequences, alternatives and groups: such an expression matches the
    words of a finite list, a word being a list of tests on code units. *)

Fixpoint noLookAhead (r : Regex.re) : bool :=
  match r with
  | Regex.LookAhead _ => false
  | Regex.Seq a b | Regex.Alt a b => noLookAhead a && noLookAhead b
  | Regex.Star _ a | Regex.Group _ a => noLookAhead a
  | _ => true
  end.

(** Every word of the first list followed by every word of the second. *)
Definition products {A} (wa wb : list (list A)) : list (list A) :=
  concat (map (fun w1 => map (app w1) wb) wa).

Inductive shape : Regex.re -> list (list (ascii -> bool)) -> Prop :=
| shape_eps : shape Regex.Eps [[]]
| shape_chr p : shape (Regex.Chr p) [[p]]
| shape_seq a b wa wb :
    shape a wa -> shape b wb -> shape (Regex.Seq a b) (products wa wb)
| shape_alt a b wa wb :
    shape a wa -> shape b wb -> shape (Regex.Alt a b) (wa ++ wb)
| shape_group i a wa : shape a wa -> shape (Regex.Group i a) wa.

(** The text [u] passes the tests of the word [w], one code unit each. *)
Definition fits (w : list (ascii -> bool)) (u : list ascii) : Prop :=
  Forall2 (fun p x => p x = true) w u.

(** All the code units. *)
Definition allAscii : list ascii := map ascii_of_nat (seq 0 256).

(** The test [p] accepts exactly the code units that [norm] sends to [c];
    and the same for words and lists of words. *)
Definition predNorm (norm : ascii -> ascii) (c : ascii) (p : ascii -> bool)
  : bool :=
  forallb (fun x => Bool.eqb (p x) (Ascii.eqb (norm x) c)) allAscii.

Fixpoint wordNorm (norm : ascii -> ascii) (t : list ascii)
  (w : list (ascii -> bool)) : bool :=
  match t, w with
  | [], [] => true
  | c :: t', p :: w' => predNorm norm c p && wordNorm norm t' w'
  | _, _ => false
  end.

Fixpoint wordsNorm (norm : ascii -> ascii) (T : list string)
  (W : list (list (ascii -> bool))) : bool :=
  match T, W with
  | [], [] => true
  | t :: T', w :: W' => wordNorm norm (Js.chars t) w && wordsNorm norm T' W'
  | _, _ => false
  end.

(** ** The words of the tests of the selector *)

(** The four extensions after a name and a dot. *)
Definition withExtensions (name : string) : list string :=
  map (fun e => name +:+ "." +:+ e) ["ts"; "tsx"; "js"; "jsx"].

(** The names of the entry points: [index.ts] to [entry.jsx], each also
    after [src/]. *)
Definition entryNames : list string :=
  concat (map (fun dir =>
                 concat (map (fun name => withExtensions (dir +:+ name))
                             ["index"; "main"; "app"; "server"; "entry"]))
              ["src/"; ""]).

(** The test of [findEntryPoints] on a path, without regular
    expressions. *)
Definition isEntryPointPath (path : string) : bool :=
  let fileName := FileSelector.baseName path in
  let lower := Js.toLowerCase path in
  existsb (Js.eqb (Js.toLowerCase fileName)) entryNames
  || existsb (Js.eqb lower) entryNames
  || Js.endsWith fileName "package.json"
  || Js.endsWith lower "package.json".

(** The test of [findCoreFiles] on a path, without regular expressions. *)
Definition isCorePath (path : string) : bool :=
  let lower := Js.toLowerCase path in
  existsb (Js.includes lower)
    ["/services/"; "/service/"; "/core/"; "/utils/"; "/util/"; "/models/";
     "/model/"; "/lib/"]
  || existsb (Js.endsWith lower)
       (withExtensions "service" ++ withExtensions "util").

(** The number a condition adds to a score. *)
Definition points (n : Z) (condition : bool) : Z :=
  if condition then n else 0%Z.

(** The score of a path in a corpus, without regular expressions: the
    sum the scoring loop of [selectImportantFiles] computes. *)
Definition pathScore (files : list FileContext.t) (path : string) : Z :=
  let node := FileSelector.buildImportGraph files !! path in
  (points 100 (isEntryPointPath path)
   + points 80 (isCorePath path)
   + 5 * Z.of_nat (from_option (fun n => size (FileSelector.importedBy n))
                     0%nat node)
   + 3 * Z.of_nat (from_option (fun n => size (FileSelector.imports n))
                     0%nat node)
   + points 50 (FileSelector.isConfigFile path)
   + points 30 (FileSelector.isServiceFile path)
   - points 20 (FileSelector.isTestFile path)
   + points 10 (Js.includes path "/src/" || Js.includes path "/lib/"))%Z.



(* ===================================================================== *)
(** * Properties *)
(* ===================================================================== *)

(** ** Loops over arrays *)

Section Loops.
Context {A B S : Type}.

(** A loop nested in a loop is one loop over the concatenation. *)
Lemma foldl_nested (g : S -> B -> S) (f : A -> list B) (l : list A) (s : S) :
  foldl (fun acc a => foldl g acc (f a)) s l = foldl g s (concat (map f l)).
Proof.
  revert s. induction l as [|a l IH]; intros s; simpl; [done|].
  by rewrite foldl_app, IH.
Qed.

End Loops.

Lemma countIf_app {A} (p : A -> bool) (l1 l2 : list A) :
  countIf p (l1 ++ l2) = countIf p l1 + countIf p l2.
Proof. unfold countIf. by rewrite List.filter_app, length_app. Qed.

Lemma countIf_none {A} (p : A -> bool) (l : list A) :
  (forall x, x ∈ l -> p x = false) -> countIf p l = 0.
Proof.
  unfold countIf. induction l as [|a l IH]; intros H; simpl; [done|].
  rewrite (H a) by constructor. apply IH. intros x Hx. apply H. by constructor.
Qed.

Lemma countIf_map {A B} (p : B -> bool) (h : A -> B) (l : list A) :
  countIf p (map h l) = countIf (fun a => p (h a)) l.
Proof.
  unfold countIf. induction l as [|a l IH]; simpl; [done|].
  destruct (p (h a)); simpl; by rewrite IH.
Qed.

(** In a list without two elements of the same key, a key that occurs
    occurs once. *)
Lemma countIf_key_NoDup {A} (key : A -> string) (l : list A) (k : string) :
  NoDup (map key l) -> k ∈ map key l ->
  countIf (fun a => Js.eqb (key a) k) l = 1.
Proof.
  unfold countIf, Js.eqb.
  induction l as [|a l IH]; simpl; intros Hnd Hin.
  - by apply elem_of_nil in Hin.
  - apply NoDup_cons in Hnd as [Hna Hnd].
    destruct (String.eqb_spec (key a) k) as [Hk|Hne]; simpl.
    + f_equal. apply (countIf_none (fun a => String.eqb (key a) k)).
      intros x Hx. apply String.eqb_neq. intros Heq. apply Hna.
      rewrite Hk, <- Heq. apply list_elem_of_In, in_map, list_elem_of_In, Hx.
    + apply IH; [done|]. apply elem_of_cons in Hin as [Heq|Hin]; [|done].
      by destruct Hne.
Qed.

Lemma countIf_key_absent {A} (key : A -> string) (l : list A) (k : string) :
  k ∉ map key l -> countIf (fun a => Js.eqb (key a) k) l = 0.
Proof.
  intros Hnot. apply countIf_none. intros x Hx. apply String.eqb_neq.
  intros Heq. apply Hnot. rewrite <- Heq.
  apply list_elem_of_In, in_map, list_elem_of_In, Hx.
Qed.

Lemma NoDup_map_filter {A} (key : A -> string) (q : A -> bool) (l : list A) :
  NoDup (map key l) -> NoDup (map key (List.filter q l)).
Proof.
  induction l as [|a l IH]; simpl; intros Hnd; [done|].
  apply NoDup_cons in Hnd as [Hna Hnd].
  destruct (q a); simpl; [|by apply IH].
  apply NoDup_cons. split; [|by apply IH].
  intros Hin. apply Hna.
  apply list_elem_of_In, in_map_iff in Hin as (x & Hx & Hin).
  apply filter_In in Hin as [Hin _].
  apply list_elem_of_In, in_map_iff. eauto.
Qed.

(** ** The module map of the merge *)

Section ModuleMap.
Import OllamaClient.

Lemma mapHas_spec (moduleMap : list (string * Mod.t)) (p : string) :
  mapHas moduleMap p = true <-> p ∈ map fst moduleMap.
Proof.
  unfold mapHas. rewrite existsb_exists. split.
  - intros (kv & Hin & Heq). apply String.eqb_eq in Heq. subst p.
    apply list_elem_of_In, in_map, Hin.
  - intros Hin. apply list_elem_of_In, in_map_iff in Hin as (kv & Heq & Hin).
    exists kv. split; [done|]. by apply String.eqb_eq.
Qed.

Lemma setIfAbsent_keyed moduleMap module :
  keyedByPath moduleMap -> keyedByPath (setIfAbsent moduleMap module).
Proof.
  intros [Hk Hnd]. unfold setIfAbsent.
  destruct (mapHas moduleMap (Mod.path module)) eqn:Hhas; [done|].
  split.
  - apply Forall_app. split; [done|]. by repeat constructor.
  - rewrite map_app. simpl. apply NoDup_app. split; [done|]. split.
    + intros k Hin Hk'. apply list_elem_of_singleton in Hk'. subst k.
      apply mapHas_spec in Hin. congruence.
    + apply NoDup_singleton.
Qed.

Lemma foldl_setIfAbsent_keyed modules moduleMap :
  keyedByPath moduleMap -> keyedByPath (foldl setIfAbsent moduleMap modules).
Proof.
  revert moduleMap. induction modules as [|m l IH]; intros mm H; simpl; [done|].
  apply IH. by apply setIfAbsent_keyed.
Qed.

Lemma keyedByPath_paths moduleMap :
  keyedByPath moduleMap -> map Mod.path (map snd moduleMap) = map fst moduleMap.
Proof.
  intros [Hk _]. induction Hk as [|kv l Hkv _ IH]; simpl; [done|].
  by rewrite IH, Hkv.
Qed.

Lemma mergeModules_unfold chunkResults :
  mergeModules chunkResults
  = map snd (foldl setIfAbsent [] (fragmentModules chunkResults)).
Proof.
  unfold mergeModules, fragmentModules.
  by rewrite <- (foldl_nested setIfAbsent ArchitectureAnalysis.modules).
Qed.

(** No two merged modules have the same path. *)
Lemma mergeModules_NoDup chunkResults :
  NoDup (map Mod.path (mergeModules chunkResults)).
Proof.
  rewrite mergeModules_unfold.
  assert (keyedByPath (foldl setIfAbsent [] (fragmentModules chunkResults)))
    as H.
  { apply foldl_setIfAbsent_keyed. split; constructor. }
  rewrite (keyedByPath_paths _ H). apply H.
Qed.

Lemma backfill_loop (paths : gset string) allFiles (acc : list Mod.t) :
  foldl (fun allModules file =>
           if bool_decide (FileContext.path file ∈ paths) then allModules
           else allModules ++ [Heuristics.heuristicModule file])
        acc allFiles
  = acc ++ map Heuristics.heuristicModule
             (List.filter (unanalyzed paths) allFiles).
Proof.
  revert acc. unfold unanalyzed.
  induction allFiles as [|f l IH]; intros acc; simpl.
  - by rewrite app_nil_r.
  - rewrite IH. destruct (bool_decide (FileContext.path f ∈ paths)); simpl;
      [done|]. by rewrite <- app_assoc.
Qed.

(** The backfill appends one heuristic module per file whose path no
    analyzed module has. *)
Lemma mergeWithAllFiles_unfold analyzedModules allFiles selectedFiles :
  mergeWithAllFiles analyzedModules allFiles selectedFiles
  = analyzedModules
    ++ map Heuristics.heuristicModule
         (List.filter (unanalyzed (list_to_set (map Mod.path analyzedModules)))
                      allFiles).
Proof. apply backfill_loop. Qed.

Lemma unanalyzed_spec analyzedModules file :
  unanalyzed (list_to_set (map Mod.path analyzedModules)) file = true
  <-> FileContext.path file ∉ map Mod.path analyzedModules.
Proof.
  unfold unanalyzed. rewrite negb_true_iff, bool_decide_eq_false.
  by rewrite elem_of_list_to_set.
Qed.

Lemma mergeWithAllFiles_complete analyzedModules allFiles selectedFiles p :
  NoDup (map Mod.path analyzedModules) ->
  NoDup (map FileContext.path allFiles) ->
  p ∈ map FileContext.path allFiles ->
  countIf (fun m => Js.eqb (Mod.path m) p)
          (mergeWithAllFiles analyzedModules allFiles selectedFiles) = 1.
Proof.
  intros HndA HndF Hp.
  rewrite mergeWithAllFiles_unfold, countIf_app, countIf_map. simpl.
  destruct (decide (p ∈ map Mod.path analyzedModules)) as [Hin|Hnot].
  - rewrite (countIf_key_NoDup Mod.path) by done.
    rewrite countIf_none; [done|].
    intros f Hf. apply list_elem_of_In, filter_In in Hf as [_ Hf].
    apply unanalyzed_spec in Hf. apply String.eqb_neq. congruence.
  - rewrite (countIf_key_absent Mod.path) by done. simpl.
    apply (countIf_key_NoDup FileContext.path).
    + by apply NoDup_map_filter.
    + apply list_elem_of_In, in_map_iff in Hp as (f & Hf & Hin).
      apply list_elem_of_In, in_map_iff. exists f. split; [done|].
      apply filter_In. split; [done|]. apply unanalyzed_spec. congruence.
Qed.

(** Whatever the fragments are, the merged graph is complete for a corpus
    of distinct paths. *)
Lemma mergeChunkResults_complete chunkResults allFiles selectedFiles :
  NoDup (map FileContext.path allFiles) ->
  hasOneModulePerPath allFiles
    (mergeChunkResults chunkResults allFiles selectedFiles).
Proof.
  intros Hnd p Hp. simpl.
  apply mergeWithAllFiles_complete; [apply mergeModules_NoDup|done..].
Qed.

End ModuleMap.

(** ** The deduplication of relationships *)

Section Relationships.
Import OllamaClient.

Lemma NoDup_of_map {A B} (g : A -> B) (l : list A) :
  NoDup (map g l) -> NoDup l.
Proof.
  induction l as [|a l IH]; simpl; intros H; [constructor|].
  apply NoDup_cons in H as [Hna Hnd]. apply NoDup_cons. split; [|by apply IH].
  intros Hin. apply Hna. apply list_elem_of_In, in_map, list_elem_of_In, Hin.
Qed.

(** Equal pairs have equal keys. *)
Lemma keyOf_pairOf rel :
  keyOf rel = relKey (fst (pairOf rel)) (snd (pairOf rel)).
Proof. done. Qed.

Lemma NoDup_keys_pairs (rels : list Relationship.t) :
  NoDup (map keyOf rels) -> NoDup (map pairOf rels).
Proof.
  intros H. apply (NoDup_of_map (fun p => relKey (fst p) (snd p))).
  by rewrite map_map.
Qed.

Lemma pushUnlessSeen_loop rels acc seen :
  fst (foldl pushUnlessSeen (acc, seen) rels) = acc ++ keepFirst seen rels.
Proof.
  revert acc seen. induction rels as [|r l IH]; intros acc seen; simpl.
  - by rewrite app_nil_r.
  - destruct (bool_decide (keyOf r ∈ seen)); [apply IH|].
    rewrite IH. by rewrite <- app_assoc.
Qed.

Lemma foldl_omap {A B S} (g : S -> B -> S) (h : A -> option B) (l : list A)
  (s : S) :
  foldl (fun s a => match h a with Some b => g s b | None => s end) s l
  = foldl g s (omap h l).
Proof.
  revert s. induction l as [|a l IH]; intros s; simpl; [done|].
  destruct (h a); simpl; apply IH.
Qed.

Lemma mergeRelationships_unfold chunkResults :
  mergeRelationships chunkResults
  = keepFirst ∅ (fragmentRelationships chunkResults).
Proof.
  unfold mergeRelationships, fragmentRelationships.
  rewrite (foldl_nested pushUnlessSeen ArchitectureAnalysis.relationships).
  by rewrite pushUnlessSeen_loop.
Qed.

Lemma inferAllRelationships_unfold allModules allFiles existing :
  inferAllRelationships allModules allFiles existing
  = existing
    ++ keepFirst (list_to_set (map keyOf existing))
                 (proposedEdges allModules allFiles).
Proof.
  unfold inferAllRelationships, proposedEdges.
  rewrite <- pushUnlessSeen_loop. f_equal.
  generalize (existing, list_to_set (map keyOf existing) : gset string).
  generalize allFiles at 1 3 as moduleFiles.
  generalize (list_to_set (map Mod.path allModules) : gset string) as paths.
  intros paths moduleFiles.
  induction allFiles as [|f l IH]; intros st; simpl; [done|].
  by rewrite foldl_app, <- IH, foldl_omap.
Qed.

(** The records kept have distinct keys, none of them seen before. *)
Lemma keepFirst_fresh seen rels r :
  r ∈ keepFirst seen rels -> keyOf r ∉ seen.
Proof.
  revert seen. induction rels as [|x l IH]; intros seen; simpl.
  - by intros ?%elem_of_nil.
  - case_bool_decide as Hx; [apply IH|].
    intros [->|Hin]%elem_of_cons; [done|].
    apply IH in Hin. set_solver.
Qed.

Lemma keepFirst_NoDup seen rels : NoDup (map keyOf (keepFirst seen rels)).
Proof.
  revert seen. induction rels as [|x l IH]; intros seen; simpl; [constructor|].
  case_bool_decide as Hx; [apply IH|]. simpl.
  apply NoDup_cons. split; [|apply IH].
  intros Hin. apply list_elem_of_In, in_map_iff in Hin as (r & Hk & Hin).
  apply list_elem_of_In, keepFirst_fresh in Hin. set_solver.
Qed.

(** A record kept is the first one of the loop with its key. *)
Lemma keepFirst_first seen rels r :
  r ∈ keepFirst seen rels ->
  exists l1 l2, rels = l1 ++ r :: l2 /\ forall x, x ∈ l1 -> keyOf x ≠ keyOf r.
Proof.
  revert seen. induction rels as [|x l IH]; intros seen; simpl.
  - by intros ?%elem_of_nil.
  - case_bool_decide as Hx.
    + intros Hin. pose proof (keepFirst_fresh _ _ _ Hin) as Hfresh.
      destruct (IH _ Hin) as (l1 & l2 & -> & Hl1).
      exists (x :: l1), l2. split; [done|].
      intros y [->|Hy]%elem_of_cons; [congruence|by apply Hl1].
    + intros [->|Hin]%elem_of_cons.
      * exists [], l. split; [done|]. by intros y ?%elem_of_nil.
      * pose proof (keepFirst_fresh _ _ _ Hin) as Hfresh.
        destruct (IH _ Hin) as (l1 & l2 & -> & Hl1).
        exists (x :: l1), l2. split; [done|].
        intros y [->|Hy]%elem_of_cons; [set_solver|by apply Hl1].
Qed.

(** Every record of the loop has its key seen before or kept. *)
Lemma keepFirst_represented seen rels x :
  x ∈ rels ->
  keyOf x ∈ seen \/ exists r, r ∈ keepFirst seen rels /\ keyOf r = keyOf x.
Proof.
  revert seen. induction rels as [|y l IH]; intros seen; simpl.
  - by intros ?%elem_of_nil.
  - intros [->|Hin]%elem_of_cons.
    + case_bool_decide as Hy; [by left|].
      right. exists y. split; [by left|done].
    + case_bool_decide as Hy; [by apply IH|].
      destruct (IH ({[keyOf y]} ∪ seen) Hin) as [Hs|(r & Hr & Hk)].
      * apply elem_of_union in Hs as [Hs%elem_of_singleton|Hs]; [|by left].
        right. exists y. split; [by left|done].
      * right. exists r. split; [by right|done].
Qed.

(** The relationships of the merged graph: the first fragment record of
    each key, then the first proposed edge of each key not yet there. *)
Lemma merged_relationships chunkResults allFiles selectedFiles :
  let graph := mergeChunkResults chunkResults allFiles selectedFiles in
  ArchitectureAnalysis.relationships graph
  = mergeRelationships chunkResults
    ++ keepFirst (list_to_set (map keyOf (mergeRelationships chunkResults)))
                 (proposedEdges (ArchitectureAnalysis.modules graph) allFiles).
Proof. simpl. apply inferAllRelationships_unfold. Qed.


End Relationships.

(** ** The selection of files and the chunks *)

Section Selection.
Import FileSelector.

Lemma insertByScore_perm sc a l : Permutation (insertByScore sc a l) (a :: l).
Proof.
  induction l as [|b l IH]; simpl; [done|].
  destruct (0 <? sc b - sc a)%Z; [|done].
  rewrite IH. apply perm_swap.
Qed.

(** The sort rearranges the files and loses none. *)
Lemma sortByScore_perm sc l : Permutation (sortByScore sc l) l.
Proof.
  induction l as [|a l IH]; simpl; [done|].
  by rewrite insertByScore_perm, IH.
Qed.

Lemma sortByScore_length sc l : length (sortByScore sc l) = length l.
Proof. apply Permutation_length, sortByScore_perm. Qed.

(** The loop over the entry points only appends to the selection. *)
Lemma pushEntryPoints_appends files entryPoints selected :
  exists pushed, pushEntryPoints files entryPoints selected = selected ++ pushed.
Proof.
  unfold pushEntryPoints.
  generalize (list_to_set (map FileContext.path selected) : gset string).
  revert selected. induction entryPoints as [|p l IH]; intros sel paths; simpl.
  - exists []. by rewrite app_nil_r.
  - destruct (bool_decide (p ∈ paths)); [apply IH|].
    destruct (List.find _ files) as [file|]; [|apply IH].
    destruct (IH (sel ++ [file]) ({[p]} ∪ paths)) as [pushed ->].
    exists (file :: pushed). by rewrite <- app_assoc.
Qed.

(** What [selectImportantFiles] returns for a corpus larger than the
    target: the head of the sorted corpus, whatever was pushed after it. *)
Lemma selectImportantFiles_large files maxFiles :
  maxFiles < length files ->
  selectImportantFiles files maxFiles = firstn maxFiles (sortedFiles files).
Proof.
  intros Hlt. unfold selectImportantFiles.
  destruct (Nat.leb_spec (length files) maxFiles) as [Hle|_]; [lia|].
  destruct (pushEntryPoints_appends files (findEntryPoints files)
              (firstn maxFiles (sortedFiles files))) as [pushed ->].
  rewrite take_app_le.
  - apply take_idemp.
  - rewrite length_take. unfold sortedFiles. rewrite sortByScore_length. lia.
Qed.

Lemma selectImportantFiles_small files maxFiles :
  length files <= maxFiles -> selectImportantFiles files maxFiles = files.
Proof.
  intros Hle. unfold selectImportantFiles.
  by destruct (Nat.leb_spec (length files) maxFiles) as [_|Hlt]; [|lia].
Qed.

Lemma selectImportantFiles_length files maxFiles :
  length (selectImportantFiles files maxFiles)
  = Nat.min maxFiles (length files).
Proof.
  destruct (Nat.le_gt_cases (length files) maxFiles) as [Hle|Hlt].
  - rewrite selectImportantFiles_small by done. lia.
  - rewrite selectImportantFiles_large by done.
    rewrite length_take. unfold sortedFiles. by rewrite sortByScore_length.
Qed.

(** The selection is drawn from the corpus, each file at most as often as
    the corpus has it. *)
Lemma selectImportantFiles_sublist files maxFiles :
  exists others,
    Permutation (selectImportantFiles files maxFiles ++ others) files.
Proof.
  destruct (Nat.le_gt_cases (length files) maxFiles) as [Hle|Hlt].
  - exists []. rewrite selectImportantFiles_small by done.
    by rewrite app_nil_r.
  - exists (skipn maxFiles (sortedFiles files)).
    rewrite selectImportantFiles_large by done.
    rewrite take_drop. apply sortByScore_perm.
Qed.

End Selection.

Section Chunks.
Import OllamaClient.

Lemma maxFilesFor_bounds n : 5 <= maxFilesFor n <= 10.
Proof. unfold maxFilesFor. lia. Qed.

Lemma selectFiles_length files :
  length (selectFiles files)
  = Nat.min (maxFilesFor (length files)) (length files).
Proof.
  unfold selectFiles.
  destruct (Nat.ltb_spec (maxFilesFor (length files)) (length files)).
  - apply selectImportantFiles_length.
  - lia.
Qed.

Lemma selectFiles_sublist files :
  exists others, Permutation (selectFiles files ++ others) files.
Proof.
  unfold selectFiles.
  destruct (maxFilesFor (length files) <? length files).
  - apply selectImportantFiles_sublist.
  - exists []. by rewrite app_nil_r.
Qed.

Lemma selectFiles_subset files f : f ∈ selectFiles files -> f ∈ files.
Proof.
  intros Hf. destruct (selectFiles_sublist files) as [others Hp].
  rewrite <- Hp. apply elem_of_app. by left.
Qed.

Lemma selectFiles_NoDup files :
  NoDup (map FileContext.path files) ->
  NoDup (map FileContext.path (selectFiles files)).
Proof.
  intros Hnd. destruct (selectFiles_sublist files) as [others Hp].
  apply (Permutation_map FileContext.path) in Hp.
  rewrite <- Hp, map_app in Hnd. by apply NoDup_app in Hnd as [? _].
Qed.

(** The chunks are the selection cut in pieces. *)
Lemma chunksOf_concat fuel l :
  length l <= fuel -> concat (chunksOf fuel l) = l.
Proof.
  revert l. induction fuel as [|fuel IH]; intros l Hle.
  - destruct l; [done|simpl in Hle; lia].
  - destruct l as [|a l]; [done|].
    change (chunksOf (S fuel) (a :: l))
      with (firstn chunkSize (a :: l)
            :: chunksOf fuel (skipn chunkSize (a :: l))).
    cbn [concat]. rewrite IH.
    + apply take_drop.
    + rewrite length_drop. unfold chunkSize. lia.
Qed.


Lemma chunksOf_count fuel l k :
  length l <= chunkSize * k -> length (chunksOf fuel l) <= k.
Proof.
  revert l k. induction fuel as [|fuel IH]; intros l k Hle; [simpl; lia|].
  destruct l as [|a l]; [simpl; lia|].
  change (chunksOf (S fuel) (a :: l))
    with (firstn chunkSize (a :: l)
          :: chunksOf fuel (skipn chunkSize (a :: l))).
  destruct k as [|k]; [cbn [length] in Hle; lia|].
  cbn [length]. apply le_n_S, IH.
  rewrite length_drop. unfold chunkSize in *. lia.
Qed.

Lemma chunksFor_concat files : concat (chunksFor files) = selectFiles files.
Proof. unfold chunksFor. by apply chunksOf_concat. Qed.

End Chunks.

(** ** The order of the sorted corpus *)

Section SortOrder.
Import FileSelector.
Variable sc : FileContext.t -> Z.

Lemma insertByScore_sorted a l :
  StronglySorted (notBelow sc) l -> StronglySorted (notBelow sc) (insertByScore sc a l).
Proof.
  induction 1 as [|b l Hs IH Hb]; simpl.
  - repeat constructor.
  - destruct (Z.ltb_spec 0 (sc b - sc a)) as [Hlt|Hge].
    + constructor; [done|].
      apply Forall_forall. intros x Hx.
      rewrite insertByScore_perm in Hx.
      apply elem_of_cons in Hx as [->|Hx]; [unfold notBelow; lia|].
      by apply (proj1 (Forall_forall _ _) Hb).
    + constructor; [by constructor|].
      constructor; [unfold notBelow; lia|].
      apply Forall_forall. intros x Hx.
      pose proof (proj1 (Forall_forall _ _) Hb x Hx) as Hxb.
      unfold notBelow in *. lia.
Qed.

(** The sorted corpus is in decreasing order of score. *)
Lemma sortByScore_sorted l : StronglySorted (notBelow sc) (sortByScore sc l).
Proof.
  induction l as [|a l IH]; simpl; [constructor|].
  by apply insertByScore_sorted.
Qed.

Lemma insertByScore_stable v a l :
  List.filter (fun x => (sc x =? v)%Z) (insertByScore sc a l)
  = List.filter (fun x => (sc x =? v)%Z) (a :: l).
Proof.
  induction l as [|b l IH]; [done|].
  cbn [insertByScore].
  destruct (Z.ltb_spec 0 (sc b - sc a)) as [Hlt|Hge]; [|done].
  cbn [List.filter] in *. rewrite IH.
  destruct (Z.eqb_spec (sc a) v), (Z.eqb_spec (sc b) v); try done. lia.
Qed.

(** The sort is stable: the files of one score keep their order. *)
Lemma sortByScore_stable v l :
  List.filter (fun x => (sc x =? v)%Z) (sortByScore sc l)
  = List.filter (fun x => (sc x =? v)%Z) l.
Proof.
  induction l as [|a l IH]; [done|].
  cbn [sortByScore]. rewrite insertByScore_stable.
  cbn [List.filter]. by rewrite IH.
Qed.

End SortOrder.

(** ** The matcher: its loops are not cut short by their fuel *)

Section Matcher.
Import Regex.

Lemma orTry_some {A} (x y : option A) (a : A) :
  orTry x y = Some a -> x = Some a \/ y = Some a.
Proof. destruct x; simpl; auto. Qed.

(** A match hands to its continuation a state whose input is no longer
    than the one it started from. *)
Lemma starLoop_shrinks body greedy k :
  (forall s k' res, body s k' = Some res ->
     exists s', k' s' = Some res /\ length (rest s') <= length (rest s)) ->
  forall fuel s res,
    starLoop body greedy k fuel s = Some res ->
    exists s', k s' = Some res /\ length (rest s') <= length (rest s).
Proof.
  intros Hbody. induction fuel as [|fuel IH]; intros s res; simpl.
  - intros Hk. by exists s.
  - intros H.
    assert (forall again,
              again = body s (fun s' =>
                        if length (rest s') <? length (rest s)
                        then starLoop body greedy k fuel s' else None) ->
              again = Some res ->
              exists s', k s' = Some res
                         /\ length (rest s') <= length (rest s)) as Hagain.
    { intros again -> Hres. apply Hbody in Hres as (s1 & Hs1 & Hle).
      destruct (Nat.ltb_spec (length (rest s1)) (length (rest s)));
        [|done].
      apply IH in Hs1 as (s' & Hk & Hle'). exists s'. split; [done|lia]. }
    destruct greedy; apply orTry_some in H as [H|H];
      first [by eapply Hagain | by exists s].
Qed.

Lemma run_shrinks r : forall s k res,
  run r s k = Some res ->
  exists s', k s' = Some res /\ length (rest s') <= length (rest s).
Proof.
  induction r as [|p|a IHa b IHb|a IHa b IHb|greedy a IHa|i a IHa|m|m|a IHa];
    intros s k res; cbn [run].
  - intros H. by exists s.
  - destruct (rest s) as [|c l] eqn:Hrest; [done|].
    destruct (p c); [|done]. intros H. eexists. split; [exact H|].
    simpl. lia.
  - intros H. apply IHa in H as (s1 & H & Hle1).
    apply IHb in H as (s' & H & Hle2). exists s'. split; [done|lia].
  - intros [H|H]%orTry_some; [by apply IHa|by apply IHb].
  - by apply starLoop_shrinks.
  - intros H. apply IHa in H as (s1 & H & Hle). eexists. split; [exact H|].
    done.
  - destruct (atBol m s); [|done]. intros H. by exists s.
  - destruct (atEol m s); [|done]. intros H. by exists s.
  - destruct (run a s Some) as [s1|]; [|done]. intros H.
    eexists. split; [exact H|]. done.
Qed.

(** The matcher does not depend on how its continuation is written. *)
Lemma starLoop_ext body greedy k1 k2 :
  (forall s c1 c2, (forall s', c1 s' = c2 s') -> body s c1 = body s c2) ->
  (forall s, k1 s = k2 s) ->
  forall fuel s, starLoop body greedy k1 fuel s = starLoop body greedy k2 fuel s.
Proof.
  intros Hbody Hk. induction fuel as [|fuel IH]; intros s; simpl; [done|].
  rewrite (Hk s).
  assert (body s (fun s' =>
                    if length (rest s') <? length (rest s)
                    then starLoop body greedy k1 fuel s' else None)
          = body s (fun s' =>
                      if length (rest s') <? length (rest s)
                      then starLoop body greedy k2 fuel s' else None))
    as ->; [|done].
  apply Hbody. intros s'. by rewrite IH.
Qed.

Lemma run_ext r : forall s k1 k2,
  (forall s', k1 s' = k2 s') -> run r s k1 = run r s k2.
Proof.
  induction r as [|p|a IHa b IHb|a IHa b IHb|greedy a IHa|i a IHa|m|m|a IHa];
    intros s k1 k2 Hk; cbn [run]; try by rewrite ?Hk.
  - by destruct (rest s) as [|c l]; [|rewrite Hk].
  - apply IHa. intros s'. by apply IHb.
  - by rewrite (IHa s k1 k2 Hk), (IHb s k1 k2 Hk).
  - by apply starLoop_ext.
  - apply IHa. intros s'. by rewrite Hk.
  - by destruct (run a s Some); [rewrite Hk|].
Qed.

(** Above the length of the input, the fuel of a star does not matter. *)
Lemma starLoop_fuel a greedy k : forall fuel1 fuel2 s,
  length (rest s) < fuel1 -> length (rest s) < fuel2 ->
  starLoop (run a) greedy k fuel1 s = starLoop (run a) greedy k fuel2 s.
Proof.
  induction fuel1 as [|fuel1 IH]; intros fuel2 s H1 H2; [lia|].
  destruct fuel2 as [|fuel2]; [lia|]. simpl.
  assert (run a s (fun s' =>
                     if length (rest s') <? length (rest s)
                     then starLoop (run a) greedy k fuel1 s' else None)
          = run a s (fun s' =>
                       if length (rest s') <? length (rest s)
                       then starLoop (run a) greedy k fuel2 s' else None))
    as ->; [|done].
  apply run_ext. intros s'.
  destruct (Nat.ltb_spec (length (rest s')) (length (rest s))); [|done].
  apply IH; lia.
Qed.

Lemma matchAt_shrinks r p l s' :
  matchAt r p l = Some s' -> length (rest s') <= length l.
Proof.
  unfold matchAt. intros H.
  apply run_shrinks in H as (s1 & [= ->] & Hle). done.
Qed.

(** What is left after a match found by a search is no longer than the
    text searched, and shorter when the match is not empty. *)
Lemma search_shrinks r : forall l p skipped f,
  search r p skipped l = Some f ->
  length (rest (after f)) <= length l
  /\ (matched f ≠ [] -> length (rest (after f)) < length l).
Proof.
  induction l as [|c l IH]; intros p skipped f; cbn [search].
  - destruct (matchAt r p []) as [s'|] eqn:Hm; [|done].
    intros [= <-]. apply matchAt_shrinks in Hm. simpl in *.
    split; [done|]. unfold consumed. simpl. by intros [].
  - destruct (matchAt r p (c :: l)) as [s'|] eqn:Hm.
    + intros [= <-]. apply matchAt_shrinks in Hm. cbn [after matched].
      split; [done|]. unfold consumed. cbn [rest].
      intros Hne.
      destruct (Nat.eq_dec (length (rest s')) (length (c :: l))) as [He|];
        [|lia].
      rewrite He, Nat.sub_diag in Hne. by destruct Hne.
    + intros H. apply IH in H as [Hle Hlt]. simpl. split; [lia|].
      intros Hne. specialize (Hlt Hne). lia.
Qed.

(** Above the length of the text, the fuel of the loop over all the
    matches does not matter. *)
Lemma allFrom_fuel r : forall fuel1 fuel2 p skipped l,
  length l < fuel1 -> length l < fuel2 ->
  allFrom fuel1 r p skipped l = allFrom fuel2 r p skipped l.
Proof.
  induction fuel1 as [|fuel1 IH]; intros fuel2 p skipped l H1 H2; [lia|].
  destruct fuel2 as [|fuel2]; [lia|]. cbn [allFrom].
  destruct (search r p skipped l) as [f|] eqn:Hs; [|done].
  apply search_shrinks in Hs as [Hle Hlt].
  destruct (matched f) as [|x m] eqn:Hm.
  - destruct (rest (after f)) as [|c l'] eqn:Hr; [done|].
    f_equal. apply IH; simpl in *; lia.
  - f_equal. assert (length (rest (after f)) < length l) by by apply Hlt.
    apply IH; lia.
Qed.

End Matcher.

(** ** The embedding on known values *)

Section Examples.
Import Regex.

Example split_path : Js.split "src/a.ts" "/" = ["src"; "a.ts"].
Proof. reflexivity. Qed.

Example split_empty : Js.split "" "/" = [""].
Proof. reflexivity. Qed.

Example substring_swaps : Js.substring "abcdef" 4 2 = "cd".
Proof. reflexivity. Qed.

Example substring_negative : Js.substring "src" 0 (Js.lastIndexOf "src" "/") = "".
Proof. reflexivity. Qed.

(** ["baac".replace(/a*/g, "-")] is ["-b--c-"]. *)
Example replace_empty_matches :
  replaceAll (Star true (chr "a")) [Lit "-"] "baac" = "-b--c-".
Proof. vm_compute. reflexivity. Qed.

(** The alternative [ts] is tried before [tsx] and given up at [$]. *)
Example strip_extension :
  replaceFirst FileSelector.extensionRe [] "src/util.tsx" = "src/util".
Proof. vm_compute. reflexivity. Qed.

Example extract_forms :
  FileSelector.extractImports
    "import a from 'x'; import {b, c} from 'y'; import * as d from 'z'; import 'w'; const e = require('v'); import f, {g} from 'u'"
    "index.ts"
  = ["x"; "y"; "z"; "w"; "u"; "v"].
Proof. vm_compute. reflexivity. Qed.

Example import_literals :
  OllamaClient.importLiterals
    "import {x} from './util'; const y = require('./q'); import 'w'"
  = ["./util"; "w"].
Proof. vm_compute. reflexivity. Qed.

Example entry_points :
  FileSelector.findEntryPoints
    (map (fun p => FileContext.file p "")
         ["a/Index.ts"; "src/App.JSX"; "x/package.json"; "a/indexer.ts";
          "a/Index.ts"])
  = ["a/Index.ts"; "src/App.JSX"; "x/package.json"].
Proof. vm_compute. reflexivity. Qed.

Example module_types :
  map Heuristics.inferModuleType
      ["src/UserController.test.ts"; "src/UserController.ts";
       "components/Button.tsx"; "src/db/conn.ts"]
  = [ModuleType.test; ModuleType.controller; ModuleType.view;
     ModuleType.other].
Proof. vm_compute. reflexivity. Qed.

Example layers_of_paths :
  map Heuristics.inferLayer
      ["components/Button.tsx"; "src/UserService.ts"; "src/db/conn.ts";
       "webpack.config.js"; "main.go"]
  = [Layer.presentation; Layer.business; Layer.data; Layer.infrastructure;
     Layer.other].
Proof. vm_compute. reflexivity. Qed.

Example module_names :
  map Heuristics.moduleName ["src/a.b.ts"; "Makefile"; "src/"]
  = ["a.b"; "Makefile"; "src/"].
Proof. vm_compute. reflexivity. Qed.

(** Twelve files make three chunks, of five, five and two files. *)
Example chunks_of_twelve :
  map length
      (OllamaClient.chunksOf 12
         (map (fun p => FileContext.file p "")
              ["1"; "2"; "3"; "4"; "5"; "6"; "7"; "8"; "9"; "10"; "11"; "12"]))
  = [5; 5; 2].
Proof. reflexivity. Qed.

Example bounds_of_corpora :
  map OllamaClient.maxFilesFor [0; 7; 49; 50; 64; 99; 100; 5000]
  = [5; 5; 5; 5; 6; 9; 10; 10].
Proof. reflexivity. Qed.

End Examples.

(** ** The merged graph: modules and relationships *)

Section MergeClaims.
Import OllamaClient.

Lemma setIfAbsent_values modules moduleMap m :
  m ∈ map snd (foldl setIfAbsent moduleMap modules) ->
  m ∈ map snd moduleMap \/ m ∈ modules.
Proof.
  revert moduleMap. induction modules as [|x l IH]; intros mm; simpl.
  - by left.
  - intros [Hin|Hin]%IH; [|right; by right].
    unfold setIfAbsent in Hin. destruct (mapHas mm (Mod.path x)); [by left|].
    rewrite map_app in Hin. apply elem_of_app in Hin as [Hin|Hin]; [by left|].
    simpl in Hin. apply list_elem_of_singleton in Hin. subst m. right. by left.
Qed.

(** A merged module is a module of some fragment. *)
Lemma mergeModules_from_fragments chunkResults m :
  m ∈ mergeModules chunkResults -> m ∈ fragmentModules chunkResults.
Proof.
  rewrite mergeModules_unfold. intros [Hin|Hin]%setIfAbsent_values; [|done].
  by apply elem_of_nil in Hin.
Qed.


Section Pipeline.
Context {any : Type}.
Variable JSON_parse : string -> result any.
Variable normalizeParsed :
  any -> list FileContext.t -> result ArchitectureAnalysis.t.
Variable recoverModules : any -> result (list Mod.t).
Variable asRelationships : any -> list Relationship.t.
Variable service :
  list FileContext.t -> list FileContext.t -> bool -> nat -> nat -> reply.



End Pipeline.


(** C10: the key of the deduplication is the text [from->to], not the
    pair.  The relationships from [a->b] to [c] and from [a] to [b->c] are
    different pairs with one key, and the merge of a fragment that holds
    both keeps the first and drops the second; the import backfill drops in
    the same way the edge from the file [a] to the file [b->c] it imports
    when the fragments hold a relationship from [a->b] to [c]. *)
Theorem C10_key_is_concatenation :
  let first := usesRel "a->b" "c" in
  let second := usesRel "a" "b->c" in
  let corpus := [ FileContext.file "a" "import 'b->c'";
                  FileContext.file "b->c" "" ] in
  pairOf first ≠ pairOf second
  /\ keyOf first = keyOf second
  /\ ArchitectureAnalysis.relationships
       (mergeChunkResults [fragmentOf [first; second]] [] []) = [first]
  /\ ArchitectureAnalysis.relationships
       (mergeChunkResults [fragmentOf [first]; fragmentOf [second]] [] [])
     = [first]
  /\ length (proposedEdges (map Heuristics.heuristicModule corpus) corpus) = 1
  /\ map pairOf (proposedEdges (map Heuristics.heuristicModule corpus) corpus)
     = [("a", "b->c")]
  /\ ArchitectureAnalysis.relationships
       (mergeChunkResults [fragmentOf [first]] corpus []) = [first]
  /\ map pairOf (ArchitectureAnalysis.relationships
                   (mergeChunkResults [fragmentOf []] corpus []))
     = [("a", "b->c")].
Proof.
  repeat split; try (vm_compute; reflexivity).
  intros H. discriminate H.
Qed.

End MergeClaims.




(** ** The pipeline when every chunk falls back *)

Section TotalFailure.
Import OllamaClient Heuristics.

Lemma fallback_modules chunks :
  fragmentModules (map createFallbackAnalysis chunks)
  = map heuristicModule (concat chunks).
Proof.
  unfold fragmentModules. induction chunks as [|c l IH]; simpl; [done|].
  by rewrite IH, map_app.
Qed.

Lemma fallback_relationships chunks :
  fragmentRelationships (map createFallbackAnalysis chunks) = [].
Proof.
  unfold fragmentRelationships. induction chunks as [|c l IH]; simpl; done.
Qed.

Lemma fallback_candidates chunks :
  candidatePatterns (map createFallbackAnalysis chunks) = [].
Proof.
  unfold candidatePatterns. induction chunks as [|c l IH]; simpl; [done|].
  rewrite filter_cons_False; [done|]. simpl. by intros H.
Qed.

(** A module of the merged graph comes from a fragment or from the
    heuristics on a file of the corpus. *)
Lemma merged_module_origin chunkResults allFiles selectedFiles m :
  m ∈ ArchitectureAnalysis.modules
        (mergeChunkResults chunkResults allFiles selectedFiles) ->
  m ∈ fragmentModules chunkResults
  \/ exists f, f ∈ allFiles /\ m = heuristicModule f.
Proof.
  simpl. rewrite mergeWithAllFiles_unfold.
  intros [Hin|Hin]%elem_of_app.
  - left. by apply mergeModules_from_fragments.
  - right. apply list_elem_of_In, in_map_iff in Hin as (f & <- & Hf).
    apply filter_In in Hf as [Hf _]. exists f. split; [|done].
    by apply list_elem_of_In.
Qed.

Lemma resolveImportPath_in_corpus importPath fromPath files p :
  resolveImportPath importPath fromPath files = Some p ->
  p ∈ map FileContext.path files.
Proof.
  unfold resolveImportPath.
  destruct (List.find _ files) as [f|] eqn:Hfind; [|done].
  apply find_some in Hfind as [Hin _].
  destruct (Js.eqb (FileContext.path f) ""); [done|].
  intros [= <-]. by apply list_elem_of_In, in_map.
Qed.

(** What an edge proposed by the backfill looks like. *)
Lemma proposedEdges_shape allModules allFiles r :
  r ∈ proposedEdges allModules allFiles ->
  Relationship.type r = RelType.imports
  /\ Relationship.from r ∈ map FileContext.path allFiles
  /\ Relationship.to r ∈ map FileContext.path allFiles
  /\ Relationship.to r ∈ map Mod.path allModules
  /\ Relationship.from r ≠ Relationship.to r.
Proof.
  unfold proposedEdges.
  intros Hr. apply list_elem_of_In, in_concat in Hr as (edges & Hedges & Hr).
  apply in_map_iff in Hedges as (file & <- & Hfile).
  apply list_elem_of_In, list_elem_of_omap in Hr as (lit & _ & Hedge).
  unfold importEdge in Hedge.
  destruct (resolveImportPath lit _ allFiles) as [p|] eqn:Hres; [|done].
  case_bool_decide as Hp; [|done]. simpl in Hedge. unfold Js.eqb in Hedge.
  destruct (String.eqb_spec p (FileContext.path file)) as [|Hne]; [done|].
  simpl in Hedge. injection Hedge as <-. simpl.
  split; [done|]. split; [by apply list_elem_of_In, in_map|].
  split; [by eapply resolveImportPath_in_corpus|].
  split; [by apply elem_of_list_to_set in Hp|]. congruence.
Qed.

Lemma no_literals_no_edges
  (edge : FileContext.t -> string -> option Relationship.t)
  (files : list FileContext.t) :
  (forall f, f ∈ files -> importLiterals (FileContext.content f) = []) ->
  concat (map (fun file =>
                 omap (edge file) (importLiterals (FileContext.content file)))
              files) = [].
Proof.
  induction files as [|f l IH]; intros H; simpl; [done|].
  rewrite (H f) by constructor. simpl. apply IH.
  intros g Hg. apply H. by constructor.
Qed.

Lemma proposedEdges_none allModules allFiles :
  (forall f, f ∈ allFiles -> importLiterals (FileContext.content f) = []) ->
  proposedEdges allModules allFiles = [].
Proof. apply no_literals_no_edges. Qed.

Lemma keepFirst_subset seen rels r : r ∈ keepFirst seen rels -> r ∈ rels.
Proof.
  intros (l1 & l2 & -> & _)%keepFirst_first.
  apply elem_of_app. right. by left.
Qed.

Lemma imap_is_map {A B} (f : nat -> A -> B) (g : A -> B) (l : list A) :
  (forall i x, f i x = g x) -> imap f l = map g l.
Proof.
  revert f. induction l as [|a l IH]; intros f H; simpl; [done|].
  rewrite H. f_equal. apply IH. intros i x. apply H.
Qed.

Section Pipeline.
Context {any : Type}.
Variable JSON_parse : string -> result any.
Variable normalizeParsed :
  any -> list FileContext.t -> result ArchitectureAnalysis.t.
Variable recoverModules : any -> result (list Mod.t).
Variable asRelationships : any -> list Relationship.t.
Variable service :
  list FileContext.t -> list FileContext.t -> bool -> nat -> nat -> reply.

(** When the service gives no response to any request, every chunk is
    its fallback analysis. *)
Lemma failed_requests_fall_back files :
  (forall chunk all isTest idx total,
      service chunk all isTest idx total = Failed) ->
  chunkResultsFor JSON_parse normalizeParsed recoverModules asRelationships
    service files
  = map createFallbackAnalysis (chunksFor files).
Proof.
  intros Hfail. unfold chunkResultsFor, analyzeChunk.
  generalize (chunksFor files). intros chunks.
  generalize (length chunks) as total.
  generalize (length (selectFiles files)
              <? 2 * length (filter (fun f => isTestPath (FileContext.path f) = true)
                               (selectFiles files))) as isTest.
  intros isTest total.
  apply imap_is_map. intros i chunk. by rewrite Hfail.
Qed.

(** C4, as amended: when every chunk of a corpus that is not empty and has
    pairwise distinct paths reduces to its fallback analysis, [analyze]
    returns a graph that is not empty, with exactly one module per input
    path, each module the heuristic one of an input file, and the pattern
    Unknown with confidence 0; its relationships are those the import
    backfill infers from the contents of the files and no others: each has
    the type imports and goes from an input file to another input file,
    and there is none when no content holds an import literal. *)
Theorem C4_total_failure_graph (files : list FileContext.t) :
  files ≠ [] ->
  NoDup (map FileContext.path files) ->
  chunkResultsFor JSON_parse normalizeParsed recoverModules asRelationships
    service files
  = map createFallbackAnalysis (chunksFor files) ->
  let graph :=
    analyze JSON_parse normalizeParsed recoverModules asRelationships service
      files in
  ArchitectureAnalysis.modules graph ≠ []
  /\ hasOneModulePerPath files graph
  /\ (forall m, m ∈ ArchitectureAnalysis.modules graph ->
        exists f, f ∈ files /\ m = heuristicModule f)
  /\ ArchitectureAnalysis.pattern graph = Some undeterminedPattern
  /\ ArchitectureAnalysis.relationships graph
     = keepFirst ∅ (proposedEdges (ArchitectureAnalysis.modules graph) files)
  /\ (forall r, r ∈ ArchitectureAnalysis.relationships graph ->
        Relationship.type r = RelType.imports
        /\ Relationship.from r ∈ map FileContext.path files
        /\ Relationship.to r ∈ map FileContext.path files
        /\ Relationship.from r ≠ Relationship.to r)
  /\ ((forall f, f ∈ files -> importLiterals (FileContext.content f) = []) ->
      ArchitectureAnalysis.relationships graph = []).
Proof.
  intros Hne Hnd Hfall graph.
  assert (hasOneModulePerPath files graph) as Hone
    by by apply mergeChunkResults_complete.
  assert (ArchitectureAnalysis.relationships graph
          = keepFirst ∅ (proposedEdges (ArchitectureAnalysis.modules graph)
                           files)) as Hrels.
  { unfold graph, analyze. rewrite merged_relationships.
    rewrite mergeRelationships_unfold, Hfall, fallback_relationships.
    done. }
  split; [|split; [done|split; [|split; [|split; [done|split]]]]].
  - destruct files as [|f l]; [done|].
    intros Hnil. specialize (Hone (FileContext.path f)).
    rewrite Hnil in Hone. unfold countIf in Hone. simpl in Hone.
    discriminate Hone. by left.
  - intros m Hm. apply merged_module_origin in Hm as [Hm|Hm]; [|done].
    rewrite Hfall, fallback_modules, chunksFor_concat in Hm.
    apply list_elem_of_In, in_map_iff in Hm as (f & <- & Hf).
    exists f. split; [|done]. by apply selectFiles_subset, list_elem_of_In.
  - unfold graph, analyze. simpl. unfold bestPattern.
    by rewrite Hfall, fallback_candidates.
  - intros r Hr. rewrite Hrels in Hr. apply keepFirst_subset in Hr.
    apply proposedEdges_shape in Hr. tauto.
  - intros Hlit. rewrite Hrels. by rewrite proposedEdges_none.
Qed.


End Pipeline.

(** C4, the counterexample: with every request failing, the corpus of two
    files of which the first imports the second has every chunk reduced to
    its fallback and yet a relationship in its graph; the corpus of two
    files with the same path, each chunk reduced to its fallback, has one
    module for its two files; and the empty corpus, which has no chunk, has
    an empty graph. *)
Lemma C4_backfilled_edge_counterexample :
  (chunkResultsFor rejectingParser
     (fun _ _ => Throw (TypeError "not an object")) (fun _ => Ok [])
     (fun _ => []) offlineService corpusOfTwo
   = map createFallbackAnalysis (chunksFor corpusOfTwo)
   /\ map pairOf (ArchitectureAnalysis.relationships (analyzeOffline corpusOfTwo))
      = [("src/a.ts", "src/util.ts")]
   /\ ArchitectureAnalysis.relationships (analyzeOffline corpusOfTwo) ≠ [])
  /\ length corpusOfTwins = 2
  /\ length (ArchitectureAnalysis.modules (analyzeOffline corpusOfTwins)) = 1
  /\ ArchitectureAnalysis.modules (analyzeOffline []) = [].
Proof.
  split; [split; [|split]|split; [|split]]; try (vm_compute; reflexivity).
  intros H. vm_compute in H. discriminate H.
Qed.

(** C4, a witness: the corpus of two files, every request failing. *)
Lemma C4_total_failure_graph_witness :
  corpusOfTwo ≠ []
  /\ NoDup (map FileContext.path corpusOfTwo)
  /\ chunkResultsFor rejectingParser
       (fun _ _ => Throw (TypeError "not an object")) (fun _ => Ok [])
       (fun _ => []) offlineService corpusOfTwo
     = map createFallbackAnalysis (chunksFor corpusOfTwo)
  /\ ArchitectureAnalysis.modules (analyzeOffline corpusOfTwo) ≠ []
  /\ hasOneModulePerPath corpusOfTwo (analyzeOffline corpusOfTwo)
  /\ ArchitectureAnalysis.pattern (analyzeOffline corpusOfTwo)
     = Some undeterminedPattern.
Proof.
  assert (corpusOfTwo ≠ []) as Hne by done.
  assert (NoDup (map FileContext.path corpusOfTwo)) as Hnd.
  { apply (bool_decide_unpack _). vm_compute. exact I. }
  assert (chunkResultsFor rejectingParser
            (fun _ _ => Throw (TypeError "not an object")) (fun _ => Ok [])
            (fun _ => []) offlineService corpusOfTwo
          = map createFallbackAnalysis (chunksFor corpusOfTwo)) as Hfall.
  { vm_compute. reflexivity. }
  pose proof (C4_total_failure_graph rejectingParser _ _ _ offlineService
                corpusOfTwo Hne Hnd Hfall) as H.
  split; [exact Hne|]. split; [exact Hnd|]. split; [exact Hfall|].
  split; [apply H|]. split; apply H.
Defined.


End TotalFailure.

(** ** The importance scorer *)

Section Scorer.
Import FileSelector.

(** What the selection is for every corpus and target: a prefix of the
    corpus when it is small, of the sorted corpus when it is large; the
    entry points pushed after the prefix never reach the result. *)
Lemma selectImportantFiles_prefix files maxFiles :
  selectImportantFiles files maxFiles
  = firstn maxFiles
      (if length files <=? maxFiles then files else sortedFiles files).
Proof.
  destruct (Nat.leb_spec (length files) maxFiles) as [Hle|Hlt].
  - rewrite selectImportantFiles_small by done. by rewrite take_ge.
  - by apply selectImportantFiles_large.
Qed.

(** C5, the code at a failing input.  Of three files with the scores 160,
    110 and 100, the last is the one entry point.  For the target 2 the
    sort selects the first two, the loop pushes the entry point after
    them, and the final [slice(0, maxFiles)] cuts it off again: the result
    is the first two files, without the entry point, where the claim has
    the entry point in the place of the second file.  The same happens on
    the way through [analyze]: of seven files, six of score 160 and the
    entry point, the five selected for the service are the first five. *)
Theorem C5_entry_point_dropped :
  findEntryPoints corpusWithEntryPoint = ["index.ts"]
  /\ map (scoreOf (scoreMap corpusWithEntryPoint)) corpusWithEntryPoint
     = [160%Z; 110%Z; 100%Z]
  /\ map FileContext.path
       (pushEntryPoints corpusWithEntryPoint
          (findEntryPoints corpusWithEntryPoint)
          (firstn 2 (sortedFiles corpusWithEntryPoint)))
     = ["src/services/a.config.ts"; "src/services/b.ts"; "index.ts"]
  /\ map FileContext.path (selectImportantFiles corpusWithEntryPoint 2)
     = ["src/services/a.config.ts"; "src/services/b.ts"]
  /\ ("index.ts"
      ∉ map FileContext.path (selectImportantFiles corpusWithEntryPoint 2))
  /\ findEntryPoints corpusOfSeven = ["index.ts"]
  /\ map FileContext.path (OllamaClient.selectFiles corpusOfSeven)
     = [ "src/services/a.config.ts"; "src/services/b.config.ts";
         "src/services/c.config.ts"; "src/services/d.config.ts";
         "src/services/e.config.ts" ].
Proof.
  repeat split; try (vm_compute; reflexivity).
  apply (bool_decide_unpack _). vm_compute. exact I.
Qed.

End Scorer.

(** ** The pattern of the merged graph *)

Section Patterns.
Import OllamaClient.

Lemma Qgtb_true (a b : Q) : Qgtb a b = true <-> (b < a)%Q.
Proof.
  unfold Qgtb. rewrite negb_true_iff. split.
  - intros H. apply Qnot_le_lt. intros Hle.
    apply Qle_bool_iff in Hle. congruence.
  - intros Hlt. destruct (Qle_bool a b) eqn:Hle; [|done].
    apply Qle_bool_iff in Hle. by apply Qlt_not_le in Hlt.
Qed.

Lemma Qgtb_false (a b : Q) : Qgtb a b = false <-> (a <= b)%Q.
Proof.
  unfold Qgtb. rewrite negb_false_iff. apply Qle_bool_iff.
Qed.

(** The reduction keeps the first pattern of the greatest confidence. *)
Lemma reduce_better others pre best post :
  (forall p, p ∈ pre ->
     (ArchitecturalPattern.confidence p
      < ArchitecturalPattern.confidence best)%Q) ->
  (forall p, p ∈ post ->
     (ArchitecturalPattern.confidence p
      <= ArchitecturalPattern.confidence best)%Q) ->
  exists l1 l2,
    pre ++ best :: post ++ others = l1 ++ foldl better best others :: l2
    /\ (forall p, p ∈ l1 ->
          (ArchitecturalPattern.confidence p
           < ArchitecturalPattern.confidence (foldl better best others))%Q)
    /\ (forall p, p ∈ l2 ->
          (ArchitecturalPattern.confidence p
           <= ArchitecturalPattern.confidence (foldl better best others))%Q).
Proof.
  revert pre best post.
  induction others as [|c l IH]; intros pre best post Hpre Hpost; simpl.
  - exists pre, post. by rewrite app_nil_r.
  - unfold better at 2 4 6.
    destruct (Qgtb (ArchitecturalPattern.confidence c)
                   (ArchitecturalPattern.confidence best)) eqn:Hgt.
    + apply Qgtb_true in Hgt.
      destruct (IH (pre ++ best :: post) c []) as (l1 & l2 & Heq & H1 & H2).
      * intros p [Hp|Hp]%elem_of_app.
        -- eapply Qlt_trans; [by apply Hpre|done].
        -- apply elem_of_cons in Hp as [->|Hp]; [done|].
           eapply Qle_lt_trans; [by apply Hpost|done].
      * by intros p ?%elem_of_nil.
      * exists l1, l2. split; [|done]. rewrite <- Heq.
        by rewrite <- !app_assoc.
    + apply Qgtb_false in Hgt.
      destruct (IH pre best (post ++ [c])) as (l1 & l2 & Heq & H1 & H2).
      * done.
      * intros p [Hp|Hp]%elem_of_app; [by apply Hpost|].
        by apply list_elem_of_singleton in Hp as ->.
      * exists l1, l2. split; [|done]. rewrite <- Heq.
        by rewrite <- !app_assoc.
Qed.

(** C6, as amended: the pattern of the merged graph is, among the patterns
    of the fragments that are not named Unknown, taken in chunk order, the
    first one of the greatest confidence; when no fragment has such a
    pattern it is no pattern of a fragment but a new one, Unknown with
    confidence 0.  The fragments Unknown at 0.3, Layered at 0.6 and MVC at
    0.85 merge to MVC at 0.85. *)
Theorem C6_best_pattern (chunkResults : list ArchitectureAnalysis.t)
  (allFiles selectedFiles : list FileContext.t) :
  let candidates := candidatePatterns chunkResults in
  let best := bestPattern chunkResults in
  ArchitectureAnalysis.pattern
    (mergeChunkResults chunkResults allFiles selectedFiles) = Some best
  /\ (forall p, p ∈ candidates <->
        p ∈ fragmentPatterns chunkResults
        /\ ArchitecturalPattern.name p ≠ PatternName.Unknown)
  /\ (candidates = [] -> best = undeterminedPattern)
  /\ (candidates ≠ [] ->
      exists l1 l2,
        candidates = l1 ++ best :: l2
        /\ (forall p, p ∈ l1 ->
              (ArchitecturalPattern.confidence p
               < ArchitecturalPattern.confidence best)%Q)
        /\ (forall p, p ∈ l2 ->
              (ArchitecturalPattern.confidence p
               <= ArchitecturalPattern.confidence best)%Q))
  /\ classification (bestPattern fragmentsOfExample)
     = (PatternName.MVC, 85 # 100).
Proof.
  intros candidates best. split; [done|]. split; [|split; [|split]].
  - intros p. unfold candidates, candidatePatterns, fragmentPatterns.
    by rewrite list_elem_of_filter, (comm and).
  - unfold best, bestPattern. fold candidates. by intros ->.
  - unfold best, bestPattern. fold candidates.
    destruct candidates as [|first others]; [done|]. intros _.
    destruct (reduce_better others [] first []) as (l1 & l2 & Heq & H1 & H2).
    + by intros p ?%elem_of_nil.
    + by intros p ?%elem_of_nil.
    + by exists l1, l2.
  - by vm_compute.
Qed.

(** C6, the counterexample: for one fragment whose pattern is Unknown at
    0.3 there is no candidate that is not Unknown, and the merged pattern
    is not the pattern of the fragment: its confidence is 0. *)
Lemma C6_unknown_only_counterexample :
  let chunkResults := [fragmentWithPattern PatternName.Unknown (3 # 10)] in
  map classification (fragmentPatterns chunkResults)
  = [(PatternName.Unknown, 3 # 10)]
  /\ classification (bestPattern chunkResults) = (PatternName.Unknown, 0%Q)
  /\ bestPattern chunkResults ∉ fragmentPatterns chunkResults.
Proof.
  split; [done|]. split; [done|].
  intros H. apply list_elem_of_singleton in H. discriminate H.
Qed.

(** C6, a witness: the three fragments of the example. *)
Lemma C6_best_pattern_witness :
  candidatePatterns fragmentsOfExample ≠ []
  /\ exists l1 l2,
       candidatePatterns fragmentsOfExample
       = l1 ++ bestPattern fragmentsOfExample :: l2
       /\ (forall p, p ∈ l1 ->
             (ArchitecturalPattern.confidence p
              < ArchitecturalPattern.confidence
                  (bestPattern fragmentsOfExample))%Q)
       /\ (forall p, p ∈ l2 ->
             (ArchitecturalPattern.confidence p
              <= ArchitecturalPattern.confidence
                   (bestPattern fragmentsOfExample))%Q).
Proof.
  assert (candidatePatterns fragmentsOfExample ≠ []) as Hne.
  { vm_compute. discriminate. }
  split; [exact Hne|].
  exact (proj1 (proj2 (proj2 (proj2
           (C6_best_pattern fragmentsOfExample [] [])))) Hne).
Defined.

End Patterns.

(** ** The heuristic classifier *)

Section Classifier.
Import Heuristics.

(** The flags after the walk: those raised before it, or raised by some
    module. *)
Lemma observe_all modules s :
  foldl observe s modules
  = Signals (hasControllers s || existsb controllerModule modules)
            (hasViews s || existsb viewModule modules)
            (hasModels s || existsb modelModule modules)
            (hasServices s || existsb serviceModule modules)
            (hasLayers s || existsb layeredModule modules)
            (hasComponents s || existsb componentModule modules)
            (hasRoutes s || existsb routeModule modules)
            (hasFlask s || existsb flaskModule modules)
            (hasReact s || existsb reactModule modules)
            (hasNext s || existsb nextModule modules).
Proof.
  revert s. induction modules as [|m l IH]; intros s; simpl.
  - destruct s. simpl. by rewrite !orb_false_r.
  - rewrite IH. simpl. by rewrite !orb_assoc.
Qed.

(** C7, as amended: for every module set the classifier is the decision
    list of six rules, the first that matches winning: controller, view and
    model together give MVC at 0.85; a module with a layer other than
    other, or service, model and view together, give Layered at 0.75; a
    Next-like path, or a React-like path with a component, gives Layered at
    0.7; a Flask-like path with a route gives Layered at 0.7; a service
    among more than five modules with relationships more than half as many
    gives Microservices at 0.6; a service, model or view among more than
    three modules gives Layered at 0.6; and only then Unknown at 0.3. *)
Theorem C7_classifier_rules (analysis : ArchitectureAnalysis.t) :
  classification (inferArchitecturalPattern analysis)
  = firstMatch (rulesOfCode analysis) (PatternName.Unknown, 30 # 100).
Proof.
  unfold inferArchitecturalPattern, firstMatch, rulesOfCode.
  rewrite observe_all. cbn [hasControllers hasViews hasModels hasServices
    hasLayers hasComponents hasRoutes hasFlask hasReact hasNext noSignals
    orb].
  unfold ruleMVC, ruleLayered, ruleComponents, ruleFlask, ruleMicroservices,
    ruleSomeStructure, someModule.
  cbn [List.find fst snd].
  repeat match goal with
         | |- context [if ?c then _ else _] => destruct c; [done|]
         end.
  done.
Qed.

(** C7, the counterexample: four services without layers match none of
    the four rules of the claim, which then says Unknown at 0.3, and are
    classified Layered at 0.6; a Flask application with its routes matches
    none either and is classified Layered at 0.7. *)
Lemma C7_further_rules_counterexample :
  (firstMatch (rulesOfClaim fourServices) (PatternName.Unknown, 30 # 100)
   = (PatternName.Unknown, 30 # 100)
   /\ classification (inferArchitecturalPattern fourServices)
      = (PatternName.Layered, 60 # 100))
  /\ (firstMatch (rulesOfClaim flaskApplication)
        (PatternName.Unknown, 30 # 100)
      = (PatternName.Unknown, 30 # 100)
      /\ classification (inferArchitecturalPattern flaskApplication)
         = (PatternName.Layered, 70 # 100)).
Proof. repeat split; vm_compute; reflexivity. Qed.

End Classifier.

(** ** The import resolver *)

Section Resolver.
Import FileSelector.

(** [resolveImport] returns the path of the first target in the corpus. *)
Lemma resolveImport_find importPath fromFile files :
  resolveImport importPath fromFile files
  = FileContext.path <$> List.find (isTargetOf importPath fromFile) files.
Proof.
  unfold resolveImport, isTargetOf.
  by destruct (Js.startsWith _ ".").
Qed.

Lemma find_first {A} (p : A -> bool) (pre post : list A) (x : A) :
  (forall y, y ∈ pre -> p y = false) -> p x = true ->
  List.find p (pre ++ x :: post) = Some x.
Proof.
  intros Hpre Hx. induction pre as [|y l IH]; simpl.
  - by rewrite Hx.
  - rewrite (Hpre y) by constructor. apply IH.
    intros z Hz. apply Hpre. by constructor.
Qed.

(** C8: the literal [./util] is what the import expression extracts from
    [import {x} from './util'], and it normalizes against the directory of
    [src/a.ts] to [src/util]; in the corpus of [src/a.ts] and
    [src/util.ts], whatever their contents and their order, and in every
    corpus where [src/util.ts] is the first target, the resolver returns
    [src/util.ts] for it.  For every literal, importer and corpus, a path
    the resolver returns is the path of a file of the corpus that is a
    target of the literal, and the resolver returns null exactly when no
    file of the corpus is a target. *)
Theorem C8_import_resolution :
  extractImports "import {x} from './util'" "src/a.ts" = ["./util"]
  /\ resolveRelativePath "./util" "src" = "src/util"
  /\ (forall contentA contentU,
        resolveImport "./util" "src/a.ts"
          [FileContext.file "src/a.ts" contentA;
           FileContext.file "src/util.ts" contentU] = Some "src/util.ts"
        /\ resolveImport "./util" "src/a.ts"
             [FileContext.file "src/util.ts" contentU;
              FileContext.file "src/a.ts" contentA] = Some "src/util.ts")
  /\ (forall pre post contentU,
        (forall f, f ∈ pre -> isTargetOf "./util" "src/a.ts" f = false) ->
        resolveImport "./util" "src/a.ts"
          (pre ++ FileContext.file "src/util.ts" contentU :: post)
        = Some "src/util.ts")
  /\ (forall importPath fromFile files p,
        resolveImport importPath fromFile files = Some p ->
        exists f, f ∈ files /\ FileContext.path f = p
                  /\ isTargetOf importPath fromFile f = true)
  /\ (forall importPath fromFile files,
        resolveImport importPath fromFile files = None
        <-> forall f, f ∈ files -> isTargetOf importPath fromFile f = false).
Proof.
  split; [vm_compute; reflexivity|]. split; [vm_compute; reflexivity|].
  split; [|split; [|split]].
  - intros contentA contentU. split; vm_compute; reflexivity.
  - intros pre post contentU Hpre. rewrite resolveImport_find.
    by rewrite (find_first _ pre post _ Hpre).
  - intros importPath fromFile files p. rewrite resolveImport_find.
    destruct (List.find _ files) as [f|] eqn:Hfind; [|done].
    intros [= <-]. apply find_some in Hfind as [Hin Ht].
    exists f. split; [by apply list_elem_of_In|done].
  - intros importPath fromFile files. rewrite resolveImport_find. split.
    + destruct (List.find _ files) as [f|] eqn:Hfind; [done|]. intros _ f Hf.
      by apply (find_none _ _ Hfind), list_elem_of_In.
    + intros Hnone.
      destruct (List.find _ files) as [f|] eqn:Hfind; [|done].
      apply find_some in Hfind as [Hin Ht].
      rewrite Hnone in Ht by (by apply list_elem_of_In). done.
Qed.

(** C8, a witness: a corpus in which a file that is no target precedes
    [src/util.ts], and a literal that has no target in it. *)
Lemma C8_import_resolution_witness :
  resolveImport "./util" "src/a.ts"
    ([FileContext.file "src/a.ts" ""; FileContext.file "src/b.ts" ""]
     ++ FileContext.file "src/util.ts" "" :: [])
  = Some "src/util.ts"
  /\ resolveImport "./missing" "src/a.ts"
       [FileContext.file "src/a.ts" ""; FileContext.file "src/util.ts" ""]
     = None.
Proof.
  destruct C8_import_resolution as (_ & _ & _ & Hfirst & _ & Hnull).
  split.
  - apply Hfirst. intros f Hf.
    apply elem_of_cons in Hf as [->|Hf]; [vm_compute; reflexivity|].
    apply list_elem_of_singleton in Hf as ->. vm_compute. reflexivity.
  - apply Hnull. intros f Hf.
    apply elem_of_cons in Hf as [->|Hf]; [vm_compute; reflexivity|].
    apply list_elem_of_singleton in Hf as ->. vm_compute. reflexivity.
Defined.

End Resolver.

(** ** The decoder *)

Section DecoderTotal.
Import Decoder Heuristics.
Context {any : Type}.
Variable JSON_parse : string -> result any.
Variable normalizeParsed :
  any -> list FileContext.t -> result ArchitectureAnalysis.t.
Variable recoverModules : any -> result (list Mod.t).
Variable asRelationships : any -> list Relationship.t.

(** The [catch] block never throws. *)
Lemma recoverFields_returns jsonString :
  exists attempt,
    recoverFields JSON_parse recoverModules asRelationships jsonString
    = Ok attempt.
Proof.
  unfold recoverFields.
  destruct (Regex.exec (arrayFieldRe "modules") jsonString) as [m|];
    cbn [tryCatch bind]; [|by eexists].
  destruct (recoveredAnalysis _ _ _ _ _ _); cbn [tryCatch bind]; by eexists.
Qed.



End DecoderTotal.

(** The ladder on concrete responses, with a parser that rejects every
    text: prose ends in the fallback; and the text handed to the parser for a
    fenced object with an unquoted key, trailing commas and a comment. *)
Example decoder_on_prose :
  Decoder.parseOllamaResponse rejectingParser
    (fun _ _ => Throw (TypeError "not an object")) (fun _ => Ok [])
    (fun _ => []) "Sorry, I cannot analyze this." corpusOfTwo
  = Ok (Heuristics.createFallbackAnalysis corpusOfTwo).
Proof. vm_compute. reflexivity. Qed.

Example decoder_repairs_text :
  let nl := String Heuristics.newline "" in
  Decoder.jsonStringOf
    ("Here it is:" +:+ nl +:+ Decoder.backtick3 +:+ "json" +:+ nl
     +:+ "{modules: [1, 2, ], } // done" +:+ nl +:+ Decoder.backtick3)
  = "{" +:+ Js.quoted "modules" +:+ ": [1, 2 ] }".
Proof. vm_compute. reflexivity. Qed.
(* ===================================================================== *)
(** * Further properties of the merge engine *)
(* ===================================================================== *)

Section MergeEngine.
Import OllamaClient Heuristics.

(** ** [moduleMap]: the first module of a path wins *)

Lemma setIfAbsent_keys moduleMap module :
  map fst (setIfAbsent moduleMap module)
  = map fst moduleMap
    ++ (if mapHas moduleMap (Mod.path module) then [] else [Mod.path module]).
Proof.
  unfold setIfAbsent. destruct (mapHas moduleMap (Mod.path module)).
  - by rewrite app_nil_r.
  - by rewrite map_app.
Qed.

Lemma setIfAbsent_has moduleMap module :
  Mod.path module ∈ map fst (setIfAbsent moduleMap module).
Proof.
  rewrite setIfAbsent_keys.
  destruct (mapHas moduleMap (Mod.path module)) eqn:Hhas.
  - rewrite app_nil_r. by apply mapHas_spec.
  - apply elem_of_app. right. by left.
Qed.

Lemma setIfAbsent_grows moduleMap module p :
  p ∈ map fst moduleMap -> p ∈ map fst (setIfAbsent moduleMap module).
Proof. rewrite setIfAbsent_keys. intros Hp. apply elem_of_app. by left. Qed.

Lemma foldl_setIfAbsent_grows modules moduleMap p :
  p ∈ map fst moduleMap -> p ∈ map fst (foldl setIfAbsent moduleMap modules).
Proof.
  revert moduleMap. induction modules as [|x l IH]; intros mm Hp; simpl; [done|].
  by apply IH, setIfAbsent_grows.
Qed.

Lemma foldl_setIfAbsent_represented modules moduleMap x :
  x ∈ modules -> Mod.path x ∈ map fst (foldl setIfAbsent moduleMap modules).
Proof.
  revert moduleMap. induction modules as [|y l IH]; intros mm Hx; simpl.
  - by apply elem_of_nil in Hx.
  - apply elem_of_cons in Hx as [->|Hx]; [|by apply IH].
    apply foldl_setIfAbsent_grows, setIfAbsent_has.
Qed.

Lemma foldl_setIfAbsent_first modules moduleMap m :
  m ∈ map snd (foldl setIfAbsent moduleMap modules) ->
  m ∈ map snd moduleMap
  \/ ((Mod.path m ∉ map fst moduleMap)
      /\ exists l1 l2, modules = l1 ++ m :: l2
                       /\ forall x, x ∈ l1 -> Mod.path x ≠ Mod.path m).
Proof.
  revert moduleMap. induction modules as [|x l IH]; intros mm; simpl.
  - by left.
  - intros [Hin|(Hfresh & l1 & l2 & -> & Hl1)]%IH.
    + unfold setIfAbsent in Hin.
      destruct (mapHas mm (Mod.path x)) eqn:Hhas; [by left|].
      rewrite map_app in Hin. apply elem_of_app in Hin as [Hin|Hin]; [by left|].
      simpl in Hin. apply list_elem_of_singleton in Hin. subst m. right.
      split.
      * intros Hp. apply mapHas_spec in Hp. congruence.
      * exists [], l. split; [done|]. by intros y ?%elem_of_nil.
    + right. split.
      * intros Hp. by apply Hfresh, setIfAbsent_grows.
      * exists (x :: l1), l2. split; [done|].
        intros y [->|Hy]%elem_of_cons; [|by apply Hl1].
        intros Heq. apply Hfresh. rewrite <- Heq. apply setIfAbsent_has.
Qed.

(** ** Ordered sets *)

Lemma OrderedSet_add_elem s x y :
  y ∈ OrderedSet.add s x <-> y ∈ s \/ y = x.
Proof.
  unfold OrderedSet.add, OrderedSet.has. case_bool_decide as Hx.
  - split; [by left|]. by intros [?| ->].
  - rewrite elem_of_app, list_elem_of_singleton. tauto.
Qed.

Lemma OrderedSet_add_NoDup s x : NoDup s -> NoDup (OrderedSet.add s x).
Proof.
  unfold OrderedSet.add, OrderedSet.has. case_bool_decide as Hx; [done|].
  intros Hnd. apply NoDup_app. split; [done|]. split.
  - intros y Hy ->%list_elem_of_singleton. by apply Hx.
  - apply NoDup_singleton.
Qed.





(** ** The summary *)


Lemma filter_nothing {A} (p : A -> bool) (l : list A) :
  (forall x, In x l -> p x = false) -> List.filter p l = [].
Proof.
  induction l as [|a l IH]; intros Hall; simpl; [done|].
  rewrite (Hall a) by (by left). apply IH. intros x Hx. apply Hall. by right.
Qed.

(** ** Relationships *)

Lemma keepFirst_seen seen rels :
  (forall r, r ∈ rels -> keyOf r ∈ seen) -> keepFirst seen rels = [].
Proof.
  revert seen. induction rels as [|x l IH]; intros seen Hall; simpl; [done|].
  rewrite bool_decide_true by (apply Hall; by left).
  apply IH. intros r Hr. apply Hall. by right.
Qed.

Lemma keepFirst_sub seen rels r : r ∈ keepFirst seen rels -> r ∈ rels.
Proof.
  revert seen. induction rels as [|x l IH]; intros seen; simpl; [done|].
  case_bool_decide.
  - intros Hr. right. by eapply IH.
  - intros [->|Hr]%elem_of_cons; [by left|]. right. by eapply IH.
Qed.

End MergeEngine.

Section MergeExtras.
Import OllamaClient Heuristics.

(** X1: of the fragment modules that share a path, the merge keeps the
    first in chunk order and drops the others: the kept modules have
    pairwise distinct paths, every kept module is a fragment module that no
    earlier fragment module shares its path with, and every fragment
    module has a kept module with its path. *)
Theorem X1_first_module_of_a_path_wins
  (chunkResults : list ArchitectureAnalysis.t) :
  let kept := mergeModules chunkResults in
  let proposed := fragmentModules chunkResults in
  NoDup (map Mod.path kept)
  /\ (forall m, m ∈ kept ->
        exists l1 l2, proposed = l1 ++ m :: l2
                      /\ forall x, x ∈ l1 -> Mod.path x ≠ Mod.path m)
  /\ (forall x, x ∈ proposed ->
        exists m, m ∈ kept /\ Mod.path m = Mod.path x).
Proof.
  intros kept proposed. split; [apply mergeModules_NoDup|]. split.
  - intros m Hm. unfold kept in Hm. rewrite mergeModules_unfold in Hm.
    apply foldl_setIfAbsent_first in Hm as [Hm|(_ & Hm)]; [|done].
    by apply elem_of_nil in Hm.
  - intros x Hx. unfold kept. rewrite mergeModules_unfold.
    assert (keyedByPath (foldl setIfAbsent [] proposed)) as Hkeyed.
    { apply foldl_setIfAbsent_keyed. split; constructor. }
    pose proof (foldl_setIfAbsent_represented proposed [] x Hx) as Hp.
    rewrite <- (keyedByPath_paths _ Hkeyed) in Hp.
    apply list_elem_of_In, in_map_iff in Hp as (m & Hpath & Hm).
    exists m. split; [by apply list_elem_of_In|done].
Qed.

(** X2: the backfill of the modules only appends.  The analysed modules
    stay at the head of the list, unchanged and in their order; a module is
    appended for a file exactly when no analysed module has its path, and
    it is the heuristic module of the file; a second backfill over the same
    corpus adds nothing. *)
Theorem X2_backfill_only_appends (analyzedModules : list Mod.t)
  (allFiles selectedFiles : list FileContext.t) :
  let allModules := mergeWithAllFiles analyzedModules allFiles selectedFiles in
  exists added,
    allModules = analyzedModules ++ map heuristicModule added
    /\ sublist added allFiles
    /\ (forall f, f ∈ added <->
          f ∈ allFiles /\ FileContext.path f ∉ map Mod.path analyzedModules)
    /\ mergeWithAllFiles allModules allFiles selectedFiles = allModules.
Proof.
  intros allModules.
  exists (List.filter (unanalyzed (list_to_set (map Mod.path analyzedModules)))
            allFiles).
  assert (allModules
          = analyzedModules
            ++ map heuristicModule
                 (List.filter
                    (unanalyzed (list_to_set (map Mod.path analyzedModules)))
                    allFiles)) as Hall by apply mergeWithAllFiles_unfold.
  split; [done|]. split.
  { clear. induction allFiles as [|f l IH]; simpl; [constructor|].
    destruct (unanalyzed _ f); [by apply sublist_skip|by apply sublist_cons]. }
  split.
  { intros f. rewrite list_elem_of_In, filter_In, <- list_elem_of_In.
    by rewrite unanalyzed_spec. }
  rewrite mergeWithAllFiles_unfold.
  rewrite filter_nothing; [by rewrite app_nil_r|].
  intros f Hf. apply not_true_iff_false. intros Hun. apply unanalyzed_spec in Hun.
  apply Hun. rewrite Hall, map_app, elem_of_app.
  destruct (decide (FileContext.path f ∈ map Mod.path analyzedModules))
    as [Hin|Hout]; [by left|]. right.
  rewrite map_map. apply list_elem_of_In, in_map_iff. exists f.
  split; [done|]. apply filter_In. split; [done|]. by apply unanalyzed_spec.
Qed.

End MergeExtras.

Section LayerGroups.
Import Heuristics.

(** ** The layer map of [groupByLayers] *)

Lemma pushInto_keys layerMap layer path :
  map fst (pushInto layerMap layer path)
  = map fst layerMap
    ++ (if bool_decide (layer ∈ map fst layerMap) then [] else [layer]).
Proof.
  induction layerMap as [|[k ps] rest IH]; simpl; [done|].
  unfold Js.eqb. destruct (String.eqb_spec k layer) as [->|Hne]; simpl.
  - rewrite bool_decide_true by (by left). by rewrite app_nil_r.
  - rewrite IH. f_equal.
    rewrite (bool_decide_ext (layer ∈ k :: map fst rest)
                             (layer ∈ map fst rest)); [done|].
    rewrite elem_of_cons. split; [|by right]. by intros [->|?].
Qed.

Lemma pushInto_NoDup layerMap layer path :
  NoDup (map fst layerMap) -> NoDup (map fst (pushInto layerMap layer path)).
Proof.
  intros Hnd. rewrite pushInto_keys. case_bool_decide as Hin.
  - by rewrite app_nil_r.
  - apply NoDup_app. split; [done|]. split; [|apply NoDup_singleton].
    by intros x Hx ->%list_elem_of_singleton.
Qed.

Lemma pushInto_perm layerMap layer path :
  Permutation (concat (map snd (pushInto layerMap layer path)))
              (path :: concat (map snd layerMap)).
Proof.
  induction layerMap as [|[k ps] rest IH]; simpl; [done|].
  destruct (Js.eqb k layer); simpl.
  - rewrite <- app_assoc. simpl. by rewrite <- Permutation_middle.
  - rewrite IH. by rewrite Permutation_middle.
Qed.

Lemma pushInto_here layerMap layer path :
  exists ps, (layer, ps) ∈ pushInto layerMap layer path /\ path ∈ ps.
Proof.
  induction layerMap as [|[k ps] rest IH]; simpl.
  - exists [path]. split; by left.
  - unfold Js.eqb. destruct (String.eqb_spec k layer) as [->|Hne].
    + exists (ps ++ [path]). split; [by left|]. apply elem_of_app. right. by left.
    + destruct IH as (ps' & Hin & Hp). exists ps'. split; [by right|done].
Qed.

Lemma pushInto_keeps layerMap layer path k x :
  (exists ps, (k, ps) ∈ layerMap /\ x ∈ ps) ->
  exists ps, (k, ps) ∈ pushInto layerMap layer path /\ x ∈ ps.
Proof.
  induction layerMap as [|[k' ps'] rest IH]; simpl.
  - by intros (ps & ?%elem_of_nil & _).
  - intros (ps & Hin & Hx). apply elem_of_cons in Hin as [[= -> ->]|Hin].
    + destruct (Js.eqb k' layer).
      * exists (ps' ++ [path]). split; [by left|]. apply elem_of_app. by left.
      * exists ps'. split; [by left|done].
    + destruct IH as (ps'' & Hin' & Hx'); [by exists ps|].
      destruct (Js.eqb k' layer).
      * exists ps. split; [by right|done].
      * exists ps''. split; [by right|done].
Qed.

Lemma pushInto_origin layerMap layer path k ps x :
  (k, ps) ∈ pushInto layerMap layer path -> x ∈ ps ->
  (exists ps', (k, ps') ∈ layerMap /\ x ∈ ps') \/ (k = layer /\ x = path).
Proof.
  induction layerMap as [|[k' ps'] rest IH]; simpl.
  - intros [= -> ->]%list_elem_of_singleton ->%list_elem_of_singleton. by right.
  - unfold Js.eqb. destruct (String.eqb_spec k' layer) as [->|Hne].
    + intros [[= -> ->]|Hin]%elem_of_cons Hx.
      * apply elem_of_app in Hx as [Hx| ->%list_elem_of_singleton]; [|by right].
        left. exists ps'. split; [by left|done].
      * left. exists ps. split; [by right|done].
    + intros [[= -> ->]|Hin]%elem_of_cons Hx.
      * left. exists ps'. split; [by left|done].
      * destruct (IH Hin Hx) as [(ps'' & Hin' & Hx')|Hnew]; [|by right].
        left. exists ps''. split; [by right|done].
Qed.

Lemma pushInto_not_empty layerMap layer path :
  Forall (fun kv => snd kv ≠ []) layerMap ->
  Forall (fun kv => snd kv ≠ []) (pushInto layerMap layer path).
Proof.
  induction layerMap as [|[k ps] rest IH]; simpl.
  - intros _. by repeat constructor.
  - intros [Hps Hrest]%Forall_cons. simpl in Hps. destruct (Js.eqb k layer).
    + constructor; [|done]. simpl. by destruct ps.
    + constructor; [done|]. by apply IH.
Qed.

(** The key of the layer map a module goes to: [m.layer || 'other']. *)
Lemma capitalize_layer_inj (a b : option Layer.t) :
  capitalize (from_option Layer.toString "other" a)
  = capitalize (from_option Layer.toString "other" b) ->
  from_option Layer.toString "other" a = from_option Layer.toString "other" b.
Proof. by destruct a as [[]|], b as [[]|]. Qed.

End LayerGroups.

Section MergeExtras2.
Import OllamaClient Heuristics.

(** X3: the import backfill only appends to the relationships it is given.
    They stay at the head of the list, unchanged; every edge it adds is of
    type imports and strength medium, goes from a file of the corpus to
    another path that is both a path of the corpus and the path of a
    module, is described by the words Imports from and its target, and has
    a (from, to) pair that no relationship given and no other added edge
    has; and a second backfill over its own result adds nothing. *)
Theorem X3_import_backfill_only_appends (allModules : list Mod.t)
  (allFiles : list FileContext.t) (existing : list Relationship.t) :
  let all := inferAllRelationships allModules allFiles existing in
  exists added,
    all = existing ++ added
    /\ (forall r, r ∈ added ->
          Relationship.type r = RelType.imports
          /\ Relationship.strength r = Some Strength.medium
          /\ Relationship.description r
             = Some ("Imports from " +:+ Relationship.to r)
          /\ Relationship.from r ∈ map FileContext.path allFiles
          /\ Relationship.to r ∈ map FileContext.path allFiles
          /\ Relationship.to r ∈ map Mod.path allModules
          /\ Relationship.from r ≠ Relationship.to r
          /\ forall x, x ∈ existing -> pairOf x ≠ pairOf r)
    /\ NoDup (map pairOf added)
    /\ inferAllRelationships allModules allFiles all = all.
Proof.
  intros all.
  set (seen := list_to_set (map keyOf existing) : gset string).
  set (proposed := proposedEdges allModules allFiles).
  assert (all = existing ++ keepFirst seen proposed) as Hall
    by apply inferAllRelationships_unfold.
  exists (keepFirst seen proposed). split; [done|]. split; [|split].
  - intros r Hr.
    assert (r ∈ proposed) as Hprop by by eapply keepFirst_sub.
    pose proof (proposedEdges_shape _ _ _ Hprop)
      as (Htype & Hfrom & Hto & Hmod & Hne).
    assert (Relationship.strength r = Some Strength.medium
            /\ Relationship.description r
               = Some ("Imports from " +:+ Relationship.to r)) as [Hs Hd].
    { unfold proposed, proposedEdges in Hprop.
      apply list_elem_of_In, in_concat in Hprop as (edges & Hedges & Hin).
      apply in_map_iff in Hedges as (file & <- & _).
      apply list_elem_of_In, list_elem_of_omap in Hin as (lit & _ & Hedge).
      unfold importEdge in Hedge.
      destruct (resolveImportPath lit _ allFiles) as [p|]; [|done].
      destruct (_ && _); [|done]. by injection Hedge as <-. }
    repeat (split; [done|]).
    intros x Hx Hpair. apply keepFirst_fresh in Hr. apply Hr.
    unfold seen. apply elem_of_list_to_set.
    rewrite (keyOf_pairOf r), <- Hpair, <- keyOf_pairOf.
    by apply list_elem_of_In, in_map, list_elem_of_In.
  - apply NoDup_keys_pairs, keepFirst_NoDup.
  - rewrite inferAllRelationships_unfold. fold proposed.
    rewrite keepFirst_seen; [by rewrite app_nil_r|].
    intros r Hr. apply elem_of_list_to_set. rewrite Hall, map_app, elem_of_app.
    destruct (keepFirst_represented seen proposed r Hr) as [Hseen|(r' & Hr' & Hk)].
    + left. by apply elem_of_list_to_set in Hseen.
    + right. rewrite <- Hk. by apply list_elem_of_In, in_map, list_elem_of_In.
Qed.


(** What [groupByLayers] returns. *)
Lemma groupByLayers_partition (modules : list Mod.t) :
  let groups := groupByLayers modules in
  let groupOf (m : Mod.t) :=
    capitalize (from_option Layer.toString "other" (Mod.layer m)) in
  NoDup (map LayerGroup.name groups)
  /\ Forall (fun g => LayerGroup.modules g ≠ []) groups
  /\ Permutation (concat (map LayerGroup.modules groups)) (map Mod.path modules)
  /\ (forall m, m ∈ modules ->
        exists g, g ∈ groups /\ LayerGroup.name g = groupOf m
                  /\ Mod.path m ∈ LayerGroup.modules g)
  /\ (forall g p, g ∈ groups -> p ∈ LayerGroup.modules g ->
        exists m, m ∈ modules /\ Mod.path m = p
                  /\ LayerGroup.name g = groupOf m).
Proof.
  intros groups groupOf.
  set (key := fun m : Mod.t => from_option Layer.toString "other" (Mod.layer m)).
  set (step := fun (layerMap : list (string * list string)) (m : Mod.t) =>
                 pushInto layerMap (key m) (Mod.path m)).
  assert (groups
          = map (fun '(name, mods) => LayerGroup.mk (capitalize name) mods)
                (foldl step [] modules)) as Hgroups.
  { done. }
  assert (NoDup (map fst (foldl step [] modules))
          /\ Forall (fun kv => snd kv ≠ []) (foldl step [] modules)
          /\ Permutation (concat (map snd (foldl step [] modules)))
                         (map Mod.path modules)
          /\ (forall m, m ∈ modules ->
                exists ps, (key m, ps) ∈ foldl step [] modules
                           /\ Mod.path m ∈ ps)
          /\ (forall k ps p, (k, ps) ∈ foldl step [] modules -> p ∈ ps ->
                exists m, m ∈ modules /\ Mod.path m = p /\ k = key m))
    as (Hnd & Hne & Hperm & Hin & Hout).
  { clear Hgroups. induction modules as [|m l IH] using rev_ind.
    - simpl. split; [constructor|]. split; [constructor|]. split; [done|].
      split; [by intros m ?%elem_of_nil|]. by intros k ps p ?%elem_of_nil.
    - rewrite foldl_app. simpl. destruct IH as (Hnd & Hne & Hperm & Hin & Hout).
      unfold step at 1 3 5 7 9. split; [by apply pushInto_NoDup|].
      split; [by apply pushInto_not_empty|]. split.
      { rewrite pushInto_perm, map_app, Hperm. simpl.
        by rewrite <- Permutation_cons_append. }
      split.
      + intros x [Hx| ->%list_elem_of_singleton]%elem_of_app.
        * by apply pushInto_keeps, Hin.
        * apply pushInto_here.
      + intros k ps p Hk Hp.
        destruct (pushInto_origin _ _ _ _ _ _ Hk Hp)
          as [(ps' & Hk' & Hp')|[-> ->]].
        * destruct (Hout k ps' p Hk' Hp') as (x & Hx & Hpath & Hkey).
          exists x. split; [|done]. apply elem_of_app. by left.
        * exists m. split; [|done]. apply elem_of_app. right. by left. }
  assert (forall k, k ∈ map fst (foldl step [] modules) ->
            exists m, m ∈ modules /\ k = key m) as Hkeys.
  { intros k Hk. apply list_elem_of_In, in_map_iff in Hk as ([k' ps] & <- & Hkv).
    apply list_elem_of_In in Hkv.
    pose proof Hne as Hne'. rewrite Forall_forall in Hne'.
    specialize (Hne' _ Hkv). simpl in Hne'.
    destruct ps as [|p ps]; [done|].
    destruct (Hout k' (p :: ps) p Hkv) as (m & Hm & _ & Hkey); [by left|].
    by exists m. }
  rewrite Hgroups. split; [|split; [|split; [|split]]].
  - rewrite map_map.
    replace (map (fun x : string * list string =>
                    LayerGroup.name
                      (let '(name, mods) := x in
                       LayerGroup.mk (capitalize name) mods))
                 (foldl step [] modules))
      with (map capitalize (map fst (foldl step [] modules)))
      by (rewrite map_map; apply map_ext; by intros [k ps]).
    apply NoDup_fmap_2_strong; [|done].
    intros k1 k2 Hk1 Hk2 Hcap.
    apply Hkeys in Hk1 as (m1 & _ & ->).
    apply Hkeys in Hk2 as (m2 & _ & ->).
    by apply capitalize_layer_inj.
  - apply Forall_forall. intros g Hg.
    apply list_elem_of_In, in_map_iff in Hg as ([k ps] & <- & Hkv).
    rewrite Forall_forall in Hne. apply list_elem_of_In in Hkv.
    by apply (Hne _ Hkv).
  - rewrite map_map.
    replace (map (fun x : string * list string =>
                    LayerGroup.modules
                      (let '(name, mods) := x in
                       LayerGroup.mk (capitalize name) mods))
                 (foldl step [] modules))
      with (map snd (foldl step [] modules))
      by (apply map_ext; by intros [k ps]).
    done.
  - intros m Hm. destruct (Hin m Hm) as (ps & Hkv & Hp).
    exists (LayerGroup.mk (capitalize (key m)) ps). split; [|done].
    apply list_elem_of_In, in_map_iff. exists (key m, ps).
    split; [done|]. by apply list_elem_of_In.
  - intros g p Hg Hp.
    apply list_elem_of_In, in_map_iff in Hg as ([k ps] & <- & Hkv).
    apply list_elem_of_In in Hkv. simpl in Hp.
    destruct (Hout k ps p Hkv Hp) as (m & Hm & Hpath & ->).
    by exists m.
Qed.


End MergeExtras2.

(* ===================================================================== *)
(** * Further properties of the strings and of the heuristics *)
(* ===================================================================== *)

Section Strings.

Lemma chars_app (a b : string) : Js.chars (a +:+ b) = Js.chars a ++ Js.chars b.
Proof.
  unfold Js.chars. induction a as [|c a IH]; simpl; [done|]. by rewrite IH.
Qed.

Lemma str_chars (s : string) : Js.str (Js.chars s) = s.
Proof. apply string_of_list_ascii_of_string. Qed.

Lemma length_chars (s : string) : length (Js.chars s) = String.length s.
Proof. unfold Js.chars. induction s as [|c s IH]; simpl; [done|]. by rewrite IH. Qed.

Lemma length_substring n m s : String.length (String.substring n m s) <= m.
Proof.
  revert n m. induction s as [|c s IH]; intros n m.
  - destruct n, m; simpl; lia.
  - destruct n as [|n]; destruct m as [|m]; simpl; try lia.
    + specialize (IH 0 m). lia.
    + apply IH.
    + apply IH.
Qed.

Lemma substring_prefix (a b : string) :
  String.substring 0 (String.length a) (a +:+ b) = a.
Proof.
  induction a as [|c a IH]; simpl.
  - by destruct b.
  - by rewrite IH.
Qed.

(** [s.substring(0, n)] has at most [n] code units. *)
Lemma length_js_substring_0 s (n : nat) :
  String.length (Js.substring s 0 (Z.of_nat n)) <= n.
Proof.
  unfold Js.substring, Js.clamp. rewrite Nat2Z.id. simpl.
  rewrite Nat.min_0_r, Nat.min_0_l, Nat.max_0_l, Nat.sub_0_r.
  etrans; [apply length_substring|]. lia.
Qed.

(** [split] cuts at every separator. *)
Lemma split_go_app sep cur la lb :
  Js.split_go sep cur (la ++ sep :: lb)
  = Js.split_go sep cur la ++ Js.split_go sep [] lb.
Proof.
  revert cur. induction la as [|c la IH]; intros cur; simpl.
  - by rewrite Ascii.eqb_refl.
  - destruct (Ascii.eqb c sep); simpl; by rewrite IH.
Qed.

Lemma split_app (a b : string) (sep : ascii) :
  Js.split (a +:+ String sep b) sep = Js.split a sep ++ Js.split b sep.
Proof. unfold Js.split. rewrite chars_app. apply split_go_app. Qed.

Lemma split_go_single sep cur l :
  sep ∉ l -> Js.split_go sep cur l = [Js.str (rev cur ++ l)].
Proof.
  revert cur. induction l as [|c l IH]; intros cur Hnot; simpl.
  - by rewrite app_nil_r.
  - destruct (Ascii.eqb_spec c sep) as [->|Hne].
    + exfalso. apply Hnot. by left.
    + rewrite IH; [|by intros ?; apply Hnot; right].
      simpl. by rewrite <- app_assoc.
Qed.

Lemma split_single (s : string) (sep : ascii) :
  sep ∉ Js.chars s -> Js.split s sep = [s].
Proof.
  intros Hnot. unfold Js.split. rewrite split_go_single by done.
  simpl. by rewrite str_chars.
Qed.

Lemma lastIndexOf_absent (s : string) (c : ascii) :
  c ∉ Js.chars s -> Js.lastIndexOf s c = (-1)%Z.
Proof.
  induction s as [|a s IH]; intros Hnot; simpl; [done|].
  rewrite IH by (intros ?; apply Hnot; by right). simpl.
  destruct (Ascii.eqb_spec a c) as [->|Hne]; [|done].
  exfalso. apply Hnot. by left.
Qed.

Lemma lastIndexOf_app (a b : string) (c : ascii) :
  c ∉ Js.chars b ->
  Js.lastIndexOf (a +:+ String c b) c = Z.of_nat (String.length a).
Proof.
  intros Hnot. induction a as [|x a IH].
  - simpl. rewrite lastIndexOf_absent by done. simpl.
    by rewrite Ascii.eqb_refl.
  - change (Js.lastIndexOf (String x a +:+ String c b) c)
      with (let i := Js.lastIndexOf (a +:+ String c b) c in
            if (0 <=? i)%Z then (i + 1)%Z
            else if Ascii.eqb x c then 0%Z else (-1)%Z).
    rewrite IH. cbv zeta.
    destruct (Z.leb_spec 0 (Z.of_nat (String.length a))); [|lia].
    change (String.length (String x a)) with (S (String.length a)). lia.
Qed.

Lemma js_substring_prefix (a b : string) :
  Js.substring (a +:+ b) 0 (Z.of_nat (String.length a)) = a.
Proof.
  unfold Js.substring, Js.clamp. rewrite Nat2Z.id. simpl.
  rewrite Nat.min_0_r, Nat.min_0_l, Nat.max_0_l, Nat.sub_0_r.
  rewrite Nat.min_r; [apply substring_prefix|].
  clear. induction a as [|c a IH]; simpl; lia.
Qed.

Lemma js_substring_nothing (s : string) : Js.substring s 0 (-1) = "".
Proof.
  unfold Js.substring, Js.clamp. simpl.
  rewrite Nat.min_0_r. simpl. by destruct s.
Qed.

Lemma indexOf_bounds (s : string) (c : ascii) :
  (-1 <= Js.indexOf s c < Z.of_nat (String.length s))%Z.
Proof.
  induction s as [|a s IH]; simpl; [lia|].
  destruct (Ascii.eqb a c); [lia|].
  destruct (Z.ltb_spec (Js.indexOf s c) 0); lia.
Qed.

Lemma indexOf_found (s : string) (c : ascii) :
  (0 <= Js.indexOf s c)%Z ->
  Js.chars s !! Z.to_nat (Js.indexOf s c) = Some c.
Proof.
  induction s as [|a s IH]; simpl; [lia|].
  destruct (Ascii.eqb_spec a c) as [->|Hne]; [done|].
  destruct (Z.ltb_spec (Js.indexOf s c) 0) as [Hlt|Hge]; [lia|].
  intros _. rewrite Z2Nat.inj_add by lia.
  rewrite Nat.add_comm. simpl. by apply IH.
Qed.

Lemma indexOf_absent (s : string) (c : ascii) :
  Js.indexOf s c = (-1)%Z -> c ∉ Js.chars s.
Proof.
  induction s as [|a s IH]; simpl; [by intros _ ?%elem_of_nil|].
  destruct (Ascii.eqb_spec a c) as [->|Hne]; [done|].
  destruct (Z.ltb_spec (Js.indexOf s c) 0) as [Hlt|Hge]; [|lia].
  intros _ [?|Hin]%elem_of_cons; [congruence|].
  apply IH; [|done]. pose proof (indexOf_bounds s c). lia.
Qed.

End Strings.

Section HeuristicExtras.
Import Heuristics.

(** X6: what the path heuristics can and cannot say of a file.  The type
    is never component: a path with the word component in it is typed view
    (or test, controller, service or model) by an earlier test, so the last
    test of the function never succeeds.  A path with the word test in it
    is typed test whatever else it holds.  And a path typed view is always
    put in the presentation layer. *)
Theorem X6_inferred_type_is_never_component (path : string) :
  inferModuleType path ≠ ModuleType.component
  /\ (Js.includes (Js.toLowerCase path) "test" = true ->
      inferModuleType path = ModuleType.test)
  /\ (inferModuleType path = ModuleType.view ->
      inferLayer path = Layer.presentation).
Proof.
  unfold inferModuleType, inferLayer.
  set (lower := Js.toLowerCase path).
  destruct (Js.includes lower "test"); [by repeat split|].
  destruct (Js.includes lower "controller"); [by repeat split|].
  destruct (Js.includes lower "service"); [by repeat split|].
  destruct (Js.includes lower "model"); [by repeat split|].
  destruct (Js.includes lower "view"); [by repeat split|].
  destruct (Js.includes lower "component"); [by repeat split|].
  simpl.
  destruct (Js.includes lower "util"); [by repeat split|].
  destruct (Js.includes lower "config"); by repeat split.
Qed.

(** X7: the module the heuristics make for a file keeps the path of the
    file, has a layer, has a description of at most 100 code units, and
    has a name that is empty only when the path is: when the last segment
    of the path is nothing but an extension, the name is the whole path. *)
Theorem X7_heuristic_module_is_well_formed (f : FileContext.t) :
  let m := heuristicModule f in
  Mod.path m = FileContext.path f
  /\ Mod.layer m = Some (inferLayer (FileContext.path f))
  /\ (exists d, Mod.description m = Some d /\ String.length d <= 100)
  /\ (Mod.name m = "" -> FileContext.path f = "")
  /\ Mod.exports m = None /\ Mod.imports m = None.
Proof.
  intros m. split; [done|]. split; [done|]. split; [|split; [|done]].
  - eexists. split; [done|]. unfold inferDescription.
    destruct (Regex.exec _ _) as [commentMatch|]; [|simpl; lia].
    apply (length_js_substring_0 _ 100).
  - unfold m, heuristicModule, moduleName. cbn [Mod.name].
    generalize (FileContext.path f). intros path.
    destruct (snd (Js.pop (Js.split path "/"))) as [seg|]; [|done].
    generalize (Regex.replaceFirst lastExtensionRe [] seg). intros name.
    unfold Js.orElse, Js.eqb.
    by destruct (String.eqb_spec name "") as [->|Hne].
Qed.

End HeuristicExtras.

Section SelectorExtras.
Import FileSelector.

Lemma StronglySorted_app_elems {A} (R : A -> A -> Prop) (l1 l2 : list A) :
  StronglySorted R (l1 ++ l2) ->
  StronglySorted R l1 /\ forall x y, x ∈ l1 -> y ∈ l2 -> R x y.
Proof.
  induction l1 as [|a l1 IH]; simpl; intros Hs.
  - split; [constructor|]. by intros x y ?%elem_of_nil.
  - apply StronglySorted_inv in Hs as [Hs Hall].
    destruct (IH Hs) as [Hs1 Hcross]. split.
    + constructor; [done|]. rewrite Forall_forall in Hall |- *.
      intros x Hx. apply Hall, elem_of_app. by left.
    + intros x y [->|Hx]%elem_of_cons Hy; [|by apply Hcross].
      rewrite Forall_forall in Hall. apply Hall, elem_of_app. by right.
Qed.

(** X8: from a corpus of more than [maxFiles] files the selector returns
    the [maxFiles] best files by score.  The selection and some rest make
    up the corpus; no file of the rest has a higher score than a file of
    the selection; the selection is in decreasing order of score; and
    among files of one score the selection and the rest keep the order of
    the corpus, so ties are decided by the position in the corpus. *)
Theorem X8_selection_is_the_best_by_score (files : list FileContext.t)
  (maxFiles : nat) :
  maxFiles < length files ->
  let sc := scoreOf (scoreMap files) in
  let selected := selectImportantFiles files maxFiles in
  exists others,
    Permutation (selected ++ others) files
    /\ length selected = maxFiles
    /\ (forall f g, f ∈ selected -> g ∈ others -> (sc g <= sc f)%Z)
    /\ StronglySorted (notBelow sc) selected
    /\ (forall v, List.filter (fun x => (sc x =? v)%Z) (selected ++ others)
                  = List.filter (fun x => (sc x =? v)%Z) files).
Proof.
  intros Hlt sc selected.
  assert (selected = firstn maxFiles (sortedFiles files)) as ->
    by by apply selectImportantFiles_large.
  exists (skipn maxFiles (sortedFiles files)).
  pose proof (sortByScore_sorted sc files) as Hsorted.
  change (StronglySorted (notBelow sc) (sortedFiles files)) in Hsorted.
  rewrite <- (firstn_skipn maxFiles (sortedFiles files)) in Hsorted.
  apply StronglySorted_app_elems in Hsorted as [Hsel Hcross].
  rewrite firstn_skipn. split; [apply sortByScore_perm|]. split.
  { rewrite length_take. unfold sortedFiles. rewrite sortByScore_length. lia. }
  split; [|split; [done|]].
  - intros f g Hf Hg. by apply (Hcross f g).
  - intros v. apply sortByScore_stable.
Qed.

(** The selection of the two best of three files. *)
Lemma X8_selection_is_the_best_by_score_witness :
  exists others,
    Permutation (selectImportantFiles corpusWithEntryPoint 2 ++ others)
                corpusWithEntryPoint
    /\ length (selectImportantFiles corpusWithEntryPoint 2) = 2.
Proof.
  destruct (X8_selection_is_the_best_by_score corpusWithEntryPoint 2)
    as (others & Hperm & Hlen & _); [simpl; lia|].
  exists others. by split.
Defined.

(** ** Relative paths *)

(** The body of the loop of [resolveRelativePath]. *)
Lemma resolveRelativePath_app (a b fromDir : string) :
  resolveRelativePath (a +:+ String "/" b) fromDir
  = resolveRelativePath b (resolveRelativePath a fromDir).
Proof.
  unfold resolveRelativePath. by rewrite split_app, foldl_app.
Qed.

(** X9: [resolveRelativePath] walks the segments of the import path from
    left to right: resolving two paths joined by a slash is resolving the
    second from where the first leads, and a segment that is a single dot
    leads nowhere.  Two dots from a directory without a slash, the top
    directory included, lead to the empty path. *)
Theorem X9_relative_paths_compose (a b fromDir : string) :
  resolveRelativePath (a +:+ "/" +:+ b) fromDir
  = resolveRelativePath b (resolveRelativePath a fromDir)
  /\ resolveRelativePath "." fromDir = fromDir
  /\ resolveRelativePath ("./" +:+ b) fromDir = resolveRelativePath b fromDir
  /\ (("/"%char ∉ Js.chars fromDir) -> resolveRelativePath ".." fromDir = "").
Proof.
  split; [apply resolveRelativePath_app|]. split; [done|]. split.
  - by rewrite (resolveRelativePath_app "." b).
  - intros Hnot. unfold resolveRelativePath. simpl.
    rewrite lastIndexOf_absent by done. apply js_substring_nothing.
Qed.

(** X10: a segment followed by two dots leads back: resolving
    [segment/..] from any directory returns the directory, whenever the
    segment holds no slash and is neither one dot nor two. *)
Theorem X10_two_dots_undo_a_segment (segment fromDir : string) :
  "/"%char ∉ Js.chars segment -> segment ≠ "." -> segment ≠ ".." ->
  resolveRelativePath (segment +:+ "/..") fromDir = fromDir.
Proof.
  intros Hslash Hdot Hdots.
  rewrite (resolveRelativePath_app segment ".." fromDir).
  unfold resolveRelativePath at 2. rewrite split_single by done.
  cbn [foldl]. unfold Js.eqb.
  destruct (String.eqb_spec segment ".") as [|_]; [done|].
  destruct (String.eqb_spec segment "..") as [|_]; [done|].
  unfold resolveRelativePath. simpl.
  destruct (String.eqb_spec fromDir "") as [->|Hne].
  - rewrite lastIndexOf_absent by done. apply js_substring_nothing.
  - change (fromDir +:+ "/" +:+ segment)
      with (fromDir +:+ String "/" segment).
    rewrite (lastIndexOf_app fromDir segment "/") by done.
    apply (js_substring_prefix fromDir (String "/" segment)).
Qed.

Lemma X10_two_dots_undo_a_segment_witness :
  resolveRelativePath "utils/.." "src/app" = "src/app".
Proof.
  apply (X10_two_dots_undo_a_segment "utils" "src/app").
  - apply (bool_decide_unpack _). vm_compute. exact I.
  - discriminate.
  - discriminate.
Defined.

End SelectorExtras.

Section ImportGraph.
Import FileSelector.

Lemma buildImportGraph_unfold files :
  buildImportGraph files
  = foldl (importsOfFile files) (emptyGraph files) files.
Proof. reflexivity. Qed.

Lemma grows_trans a b c (i1 i2 i3 q1 q2 q3 : string -> Prop) :
  grows a b i1 q1 -> grows b c i2 q2 ->
  (forall i, i3 i <-> i1 i \/ i2 i) -> (forall q, q3 q <-> q1 q \/ q2 q) ->
  grows a c i3 q3.
Proof.
  unfold grows. destruct a as [na|], b as [nb|], c as [nc|]; try done.
  intros [Hi1 Hq1] [Hi2 Hq2] Hi Hq. split.
  - intros i. rewrite Hi2, Hi1, Hi. tauto.
  - intros q. rewrite Hq2, Hq1, Hq. tauto.
Qed.

Lemma grows_equiv a b (i i' q q' : string -> Prop) :
  grows a b i q -> (forall x, i' x <-> i x) -> (forall x, q' x <-> q x) ->
  grows a b i' q'.
Proof.
  unfold grows. destruct a as [na|], b as [nb|]; try done.
  intros [Hi Hq] Hi' Hq'. split; intros x.
  - by rewrite Hi, Hi'.
  - by rewrite Hq, Hq'.
Qed.

Lemma grows_refl a (i q : string -> Prop) :
  (forall x, ~ i x) -> (forall x, ~ q x) -> grows a a i q.
Proof.
  unfold grows. destruct a as [n|]; [|done]. intros Hi Hq.
  split; intros x; [specialize (Hi x)|specialize (Hq x)]; tauto.
Qed.

Lemma importStep_grows files fpath graph imp p :
  grows (graph !! p) (importStep files fpath graph imp !! p)
    (fun i => p = fpath /\ i = imp)
    (fun q => q = fpath /\ links files fpath imp p).
Proof.
  unfold importStep, links.
  assert (grows (graph !! p) (alter (addImport imp) fpath graph !! p)
            (fun i => p = fpath /\ i = imp) (fun q => False)) as Hfirst.
  { unfold grows. rewrite lookup_alter. case_decide as Hp.
    - subst p. destruct (graph !! fpath) as [n|]; simpl; [|done].
      split; intros x; [|tauto]. rewrite elem_of_union, elem_of_singleton.
      split; [intros [->|?]; [by right|by left]|].
      intros [?|[_ ->]]; [by right|by left].
    - destruct (graph !! p) as [n|]; [|done].
      split; intros x; [|tauto]. split; [by left|]. by intros [?|[-> _]]. }
  destruct (resolveImport imp fpath files) as [target|]; cycle 1.
  { eapply grows_equiv; [apply Hfirst|tauto|].
    intros q. split; [by intros (_ & [=] & _)|tauto]. }
  unfold Js.eqb.
  destruct (String.eqb_spec target "") as [->|Hne]; simpl.
  { eapply grows_equiv; [apply Hfirst|tauto|].
    intros q. split; [|tauto]. by intros (_ & [= <-] & ? & _). }
  destruct (String.eqb_spec target fpath) as [->|Hself]; simpl.
  { eapply grows_equiv; [apply Hfirst|tauto|].
    intros q. split; [|tauto]. by intros (_ & [= <-] & _ & ?). }
  eapply (grows_trans _ _ _ _ (fun _ => False) _ _
            (fun q => q = fpath /\ p = target)); [apply Hfirst| | |].
  - unfold grows. rewrite lookup_alter. case_decide as Hp.
    + subst p. destruct (alter (addImport imp) fpath graph !! target) as [n|];
        simpl; [|done].
      split; intros x; [tauto|]. rewrite elem_of_union, elem_of_singleton.
      split; [intros [->|?]; [by right|by left]|].
      intros [?|[-> _]]; [by right|by left].
    + destruct (alter (addImport imp) fpath graph !! p) as [n|]; [|done].
      split; intros x; [tauto|]. split; [by left|]. by intros [?|[_ ->]].
  - tauto.
  - intros q. split.
    + intros (-> & [= <-] & _). right. by split.
    + intros [[]|[-> ->]]. by repeat split.
Qed.

Lemma importsOfFile_grows files fpath imps graph p :
  grows (graph !! p) (foldl (importStep files fpath) graph imps !! p)
    (fun i => p = fpath /\ i ∈ imps)
    (fun q => q = fpath /\ exists imp, imp ∈ imps /\ links files fpath imp p).
Proof.
  revert graph. induction imps as [|imp imps IH]; intros graph; simpl.
  - apply grows_refl.
    + by intros x [_ ?%elem_of_nil].
    + by intros x (_ & i & ?%elem_of_nil & _).
  - eapply grows_trans; [apply (importStep_grows files fpath graph imp p)
                        |apply IH| |].
    + intros i. rewrite elem_of_cons. tauto.
    + intros q. split.
      * intros (-> & i & [->|Hi]%elem_of_cons & Hl); [by left|].
        right. split; [done|]. by exists i.
      * intros [(-> & Hl)|(-> & i & Hi & Hl)].
        -- split; [done|]. exists imp. split; [by left|done].
        -- split; [done|]. exists i. split; [by right|done].
Qed.

Lemma files_grow files fs graph p :
  grows (graph !! p) (foldl (importsOfFile files) graph fs !! p)
    (fun i => exists f, f ∈ fs /\ FileContext.path f = p
                        /\ i ∈ extractImports (FileContext.content f) p)
    (fun q => exists f, f ∈ fs /\ FileContext.path f = q
                        /\ exists imp,
                             imp ∈ extractImports (FileContext.content f) q
                             /\ links files q imp p).
Proof.
  revert graph. induction fs as [|file fs IH]; intros graph; simpl.
  - apply grows_refl.
    + by intros x (f & ?%elem_of_nil & _).
    + by intros x (f & ?%elem_of_nil & _).
  - eapply grows_trans;
      [apply (importsOfFile_grows files (FileContext.path file)
                (extractImports (FileContext.content file)
                   (FileContext.path file)) graph p)
      |apply IH| |].
    + intros i. split.
      * intros (f & [->|Hf]%elem_of_cons & Hp & Hi).
        -- left. by rewrite Hp.
        -- right. by exists f.
      * intros [(-> & Hi)|(f & Hf & Hp & Hi)].
        -- exists file. split; [by left|done].
        -- exists f. split; [by right|done].
    + intros q. split.
      * intros (f & [->|Hf]%elem_of_cons & Hp & Hi).
        -- left. subst q. by split.
        -- right. by exists f.
      * intros [(-> & Hi)|(f & Hf & Hp & Hi)].
        -- exists file. split; [by left|done].
        -- exists f. split; [by right|done].
Qed.

Lemma emptyGraph_lookup_gen fs (graph : gmap string node) p :
  foldl (fun graph file => <[FileContext.path file := Node ∅ ∅]> graph)
        graph fs !! p
  = if decide (p ∈ map FileContext.path fs) then Some (Node ∅ ∅)
    else graph !! p.
Proof.
  revert graph. induction fs as [|f fs IH]; intros graph; cbn [foldl map].
  - case_decide as Hin; [by apply elem_of_nil in Hin|done].
  - rewrite IH. case_decide as Hin.
    + rewrite decide_True; [done|]. by right.
    + rewrite lookup_insert. case_decide as Hp.
      * rewrite decide_True; [done|]. subst p. by left.
      * rewrite decide_False; [done|].
        intros [?|?]%elem_of_cons; [congruence|done].
Qed.

Lemma emptyGraph_lookup files p :
  emptyGraph files !! p
  = if decide (p ∈ map FileContext.path files) then Some (Node ∅ ∅) else None.
Proof. unfold emptyGraph. by rewrite emptyGraph_lookup_gen. Qed.

(** X11: the import graph the selector scores with.  It has a node for
    every path of the corpus and for nothing else.  The imports of the node
    of a path are the import literals found in the contents of the files
    of that path.  A path [q] is among the importers of the node of [p]
    exactly when a file at [q] holds an import literal that resolves to
    [p], for [p] not empty and other than [q]: so no node lists itself as
    an importer, and every importer is a path of the corpus. *)
Theorem X11_import_graph_records_resolved_imports
  (files : list FileContext.t) :
  let graph := buildImportGraph files in
  (forall p, is_Some (graph !! p) <-> p ∈ map FileContext.path files)
  /\ (forall p n, graph !! p = Some n ->
        (forall i, i ∈ imports n <->
           exists f, f ∈ files /\ FileContext.path f = p
                     /\ i ∈ extractImports (FileContext.content f) p)
        /\ (forall q, q ∈ importedBy n <->
              exists f, f ∈ files /\ FileContext.path f = q
                /\ exists imp,
                     imp ∈ extractImports (FileContext.content f) q
                     /\ resolveImport imp q files = Some p
                     /\ p ≠ "" /\ p ≠ q)
        /\ (p ∉ importedBy n)
        /\ (forall q, q ∈ importedBy n -> q ∈ map FileContext.path files)).
Proof.
  intros graph.
  assert (forall p,
            grows (emptyGraph files !! p) (graph !! p)
              (fun i => exists f, f ∈ files /\ FileContext.path f = p
                          /\ i ∈ extractImports (FileContext.content f) p)
              (fun q => exists f, f ∈ files /\ FileContext.path f = q
                          /\ exists imp,
                               imp ∈ extractImports (FileContext.content f) q
                               /\ links files q imp p)) as Hgrows.
  { intros p. unfold graph. rewrite buildImportGraph_unfold. apply files_grow. }
  split.
  - intros p. specialize (Hgrows p). unfold grows in Hgrows.
    rewrite emptyGraph_lookup in Hgrows.
    destruct (graph !! p) as [n|]; case_decide as Hin; done.
  - intros p n Hn. specialize (Hgrows p). unfold grows in Hgrows.
    rewrite Hn, emptyGraph_lookup in Hgrows.
    case_decide as Hin; [|done]. destruct Hgrows as [Himp Hby]. simpl in *.
    assert (forall q, q ∈ importedBy n <->
              exists f, f ∈ files /\ FileContext.path f = q
                /\ exists imp,
                     imp ∈ extractImports (FileContext.content f) q
                     /\ resolveImport imp q files = Some p
                     /\ p ≠ "" /\ p ≠ q) as Hby'.
    { intros q. rewrite Hby. split.
      - intros [?%elem_of_empty|Hq]; [done|]. exact Hq.
      - intros Hq. right. exact Hq. }
    split; [|split; [done|split]].
    + intros i. rewrite Himp. split.
      * intros [?%elem_of_empty|Hi]; [done|]. exact Hi.
      * intros Hi. by right.
    + intros (f & _ & _ & imp & _ & _ & _ & Hself)%Hby'. done.
    + intros q (f & Hf & <- & _)%Hby'.
      by apply list_elem_of_In, in_map, list_elem_of_In.
Qed.

End ImportGraph.

Section BraceScan.
Import Decoder.

Lemma scanBraces_bounds l i braceCount inString escapeNext :
  let r := scanBraces l i braceCount inString escapeNext in
  r = (-1)%Z
  \/ ((i <= r < i + Z.of_nat (length l))%Z
      /\ l !! Z.to_nat (r - i) = Some "}"%char).
Proof.
  revert i braceCount inString escapeNext.
  induction l as [|char l IH]; intros i bc s e; cbn zeta; [by left|].
  assert (forall bc' s' e',
            let r := scanBraces l (i + 1) bc' s' e' in
            r = (-1)%Z
            \/ ((i <= r < i + Z.of_nat (length (char :: l)))%Z
                /\ (char :: l) !! Z.to_nat (r - i) = Some "}"%char)) as Hrec.
  { intros bc' s' e'. cbn zeta.
    destruct (IH (i + 1)%Z bc' s' e') as [Hr|[Hb Hc]]; [by left|]. right.
    split; [simpl length; lia|].
    replace (Z.to_nat (scanBraces l (i + 1) bc' s' e' - i))
      with (S (Z.to_nat (scanBraces l (i + 1) bc' s' e' - (i + 1)))) by lia.
    done. }
  simpl scanBraces.
  destruct e; [apply Hrec|].
  destruct (Ascii.eqb char "\"); [apply Hrec|].
  destruct (Ascii.eqb char Js.dquote); [apply Hrec|].
  destruct (negb s); [|apply Hrec].
  destruct (Ascii.eqb char "{"); [apply Hrec|].
  destruct (Ascii.eqb_spec char "}") as [->|_]; [|apply Hrec].
  destruct (bc - 1 =? 0)%Z; [|apply Hrec].
  right. split; [simpl length; lia|]. by rewrite Z.sub_diag.
Qed.

(** X12: the scan for the brace that closes the first one.  In a text
    without an opening brace nothing is cut out: the extraction returns the
    text as it is.  Otherwise the scan from the first opening brace fails
    with -1 or returns an index after that brace and inside the text, at
    which the text has a closing brace; it never returns the index of the
    opening brace itself or an index before it. *)
Theorem X12_brace_scan_stays_inside_the_text (cleanJson : string) :
  let firstBrace := Js.indexOf cleanJson "{" in
  let lastBrace :=
    scanBraces (skipn (Z.to_nat firstBrace) (Js.chars cleanJson))
               firstBrace 0 false false in
  (firstBrace = (-1)%Z -> extractJson cleanJson = cleanJson)
  /\ (firstBrace ≠ (-1)%Z ->
      Js.chars cleanJson !! Z.to_nat firstBrace = Some "{"%char
      /\ (lastBrace = (-1)%Z
          \/ ((firstBrace < lastBrace < Z.of_nat (String.length cleanJson))%Z
              /\ Js.chars cleanJson !! Z.to_nat lastBrace = Some "}"%char))).
Proof.
  intros firstBrace lastBrace. split.
  - intros Hnone. unfold extractJson. fold firstBrace. rewrite Hnone.
    simpl. by destruct (_ || _).
  - intros Hsome. pose proof (indexOf_bounds cleanJson "{") as Hb.
    fold firstBrace in Hb.
    assert (Js.chars cleanJson !! Z.to_nat firstBrace = Some "{"%char)
      as Hopen by (apply indexOf_found; fold firstBrace; lia).
    split; [done|]. unfold lastBrace.
    rewrite (drop_S _ _ _ Hopen). simpl scanBraces.
    pose proof (scanBraces_bounds
                  (drop (S (Z.to_nat firstBrace)) (Js.chars cleanJson))
                  (firstBrace + 1) (0 + 1) false false) as Hscan.
    cbn zeta in Hscan. destruct Hscan as [Hr|[Hr Hc]]; [by left|]. right.
    rewrite length_drop, length_chars in Hr. split; [lia|].
    rewrite lookup_drop in Hc. rewrite <- Hc. f_equal. lia.
Qed.

End BraceScan.

(* ===================================================================== *)
(** * Properties of the diagram, of the scanner and of the route *)
(* ===================================================================== *)

Section Diagram.
Import OllamaClient Heuristics DiagramGenerator.






(** ** The nodes of the layered diagram *)

Lemma push_nodeMap d new : nodeMap (push d new) = nodeMap d.
Proof. done. Qed.


Lemma drawLayerModules_nodes modules layerIdx layerName paths i d p :
  is_Some (nodeMap (foldli (drawLayerModule modules layerIdx layerName) i d
                      paths) !! p)
  <-> is_Some (nodeMap d !! p) \/ p ∈ paths.
Proof.
  revert i d. induction paths as [|x paths IH]; intros i d; simpl.
  - split; [by left|]. by intros [?|?%elem_of_nil].
  - rewrite IH. cbn [nodeMap drawLayerModule].
    rewrite lookup_insert_is_Some, elem_of_cons.
    destruct (decide (x = p)) as [->|Hne]; [tauto|].
    split; [intros [[?|[_ ?]]|?]; tauto|]. intros [?|[?|?]]; [|congruence|tauto].
    left. right. done.
Qed.


Lemma drawLayer_nodes modules d layerIdx layer p :
  is_Some (nodeMap (drawLayer modules d layerIdx layer) !! p)
  <-> is_Some (nodeMap d !! p) \/ p ∈ LayerGroup.modules layer.
Proof.
  unfold drawLayer. rewrite push_nodeMap.
  destruct (LayerGroup.modules layer) as [|x paths] eqn:Hpaths.
  - simpl. split; [by left|]. by intros [?|?%elem_of_nil].
  - cbn [length Nat.ltb Nat.leb]. by rewrite drawLayerModules_nodes, push_nodeMap.
Qed.


Lemma drawLayers_nodes modules layers i d p :
  is_Some (nodeMap (foldli (drawLayer modules) i d layers) !! p)
  <-> is_Some (nodeMap d !! p)
      \/ p ∈ concat (map LayerGroup.modules layers).
Proof.
  revert i d. induction layers as [|layer layers IH]; intros i d; simpl.
  - split; [by left|]. by intros [?|?%elem_of_nil].
  - rewrite IH, drawLayer_nodes, elem_of_app. tauto.
Qed.


(** The layered diagram draws a node for a path exactly when a layer
    lists the path. *)
Lemma layeredDrawing_nodes modules layers p :
  is_Some (nodeMap (layeredDrawing modules layers) !! p)
  <-> p ∈ concat (map LayerGroup.modules layers).
Proof.
  unfold layeredDrawing. rewrite drawLayers_nodes. cbn [nodeMap].
  rewrite lookup_empty. split; [by intros [[? [=]]|?]|by right].
Qed.

Lemma edgeLine_is_Some nodeMap r :
  is_Some (edgeLine nodeMap r)
  <-> is_Some (nodeMap !! Relationship.from r)
      /\ is_Some (nodeMap !! Relationship.to r).
Proof.
  unfold edgeLine.
  destruct (nodeMap !! Relationship.from r), (nodeMap !! Relationship.to r).
  - split; [by intros _|by intros _].
  - split; [by intros [? [=]]|by intros [_ [? [=]]]].
  - split; [by intros [? [=]]|by intros [[? [=]] _]].
  - split; [by intros [? [=]]|by intros [[? [=]] _]].
Qed.


(** ** The merged graph in the diagram *)


Lemma merged_paths_cover_corpus chunkResults allFiles selectedFiles p :
  p ∈ map FileContext.path allFiles ->
  p ∈ map Mod.path
        (ArchitectureAnalysis.modules
           (mergeChunkResults chunkResults allFiles selectedFiles)).
Proof.
  intros Hp. simpl. rewrite mergeWithAllFiles_unfold, map_app, elem_of_app.
  destruct (decide (p ∈ map Mod.path (mergeModules chunkResults)))
    as [Hin|Hout]; [by left|]. right.
  apply list_elem_of_In, in_map_iff in Hp as (f & <- & Hf).
  rewrite map_map. apply list_elem_of_In, in_map_iff. exists f.
  split; [done|]. apply filter_In. split; [done|]. by apply unanalyzed_spec.
Qed.





(** X15: which relationships the diagram of a merged graph shows.  The
    layered diagram has a node for a path exactly when the path is the
    path of a module of the graph, and a line for a relationship exactly
    when both its ends are paths of modules: a relationship of a fragment
    that names a path without a module is left out of the diagram, without
    an error.  Every path of the corpus has a node, and every edge the
    import backfill adds has a line. *)
Theorem X15_diagram_shows_relationships_between_modules
  (chunkResults : list ArchitectureAnalysis.t)
  (allFiles selectedFiles : list FileContext.t) :
  let graph := mergeChunkResults chunkResults allFiles selectedFiles in
  let modulePaths := map Mod.path (ArchitectureAnalysis.modules graph) in
  let nodes :=
    nodeMap (layeredDrawing (ArchitectureAnalysis.modules graph)
               (groupByLayers (ArchitectureAnalysis.modules graph))) in
  (forall p, is_Some (nodes !! p) <-> p ∈ modulePaths)
  /\ (exists nodeLines,
        layeredLines graph
          (groupByLayers (ArchitectureAnalysis.modules graph))
        = nodeLines
          ++ omap (edgeLine nodes) (ArchitectureAnalysis.relationships graph))
  /\ (forall r, is_Some (edgeLine nodes r)
                <-> Relationship.from r ∈ modulePaths
                    /\ Relationship.to r ∈ modulePaths)
  /\ (forall p, p ∈ map FileContext.path allFiles -> is_Some (nodes !! p))
  /\ (forall r,
        r ∈ ArchitectureAnalysis.relationships graph ->
        r ∉ mergeRelationships chunkResults ->
        is_Some (edgeLine nodes r)).
Proof.
  intros graph modulePaths nodes.
  assert (forall p, is_Some (nodes !! p) <-> p ∈ modulePaths) as Hnodes.
  { intros p. unfold nodes. rewrite layeredDrawing_nodes.
    destruct (groupByLayers_partition (ArchitectureAnalysis.modules graph))
      as (_ & _ & Hperm & _).
    by rewrite Hperm. }
  assert (forall p, p ∈ map FileContext.path allFiles -> p ∈ modulePaths)
    as Hcover by (intros p; apply merged_paths_cover_corpus).
  split; [done|]. split; [by eexists|]. split; [|split].
  - intros r. by rewrite edgeLine_is_Some, !Hnodes.
  - intros p Hp. by apply Hnodes, Hcover.
  - intros r Hr Hnew. unfold graph in Hr.
    rewrite (merged_relationships chunkResults allFiles selectedFiles) in Hr.
    apply elem_of_app in Hr as [Hr|Hr]; [done|].
    apply keepFirst_sub, proposedEdges_shape in Hr
      as (_ & Hfrom & _ & Hto & _).
    apply edgeLine_is_Some. rewrite !Hnodes. split; [by apply Hcover|done].
Qed.

End Diagram.

Section Providers.
Import OllamaClient Heuristics.

Context {any : Type}.
Variable JSON_parse : string -> result any.
Variable normalizeParsed :
  any -> list FileContext.t -> result ArchitectureAnalysis.t.
Variable recoverModules : any -> result (list Mod.t).
Variable asRelationships : any -> list Relationship.t.
Variable service :
  list FileContext.t -> list FileContext.t -> bool -> nat -> nat -> reply.

Variable getText : string -> result string.

Lemma sublist_filter {A} (p : A -> bool) (l : list A) :
  sublist (List.filter p l) l.
Proof.
  induction l as [|a l IH]; simpl; [constructor|].
  destruct (p a); [by apply sublist_skip|by apply sublist_cons].
Qed.

Lemma filesToProcess_sublist entries :
  sublist (Scanner.filesToProcess entries) entries.
Proof.
  unfold Scanner.filesToProcess.
  destruct (0 <? length (List.filter Scanner.isNonTest entries)).
  - etrans; [apply sublist_take|apply sublist_filter].
  - apply sublist_take.
Qed.

Lemma scanWorkspace_paths entries :
  sublist (map FileContext.path (Scanner.scanWorkspace getText entries))
          (Scanner.filesToProcess entries).
Proof.
  unfold Scanner.scanWorkspace.
  induction (Scanner.filesToProcess entries) as [|e l IH]; simpl; [constructor|].
  destruct (getText e); simpl; [by apply sublist_skip|by apply sublist_cons].
Qed.

Lemma js_substring_short (s : string) (n : Z) :
  (Z.of_nat (String.length s) <= n)%Z -> Js.substring s 0 n = s.
Proof.
  intros Hle. unfold Js.substring, Js.clamp. simpl Z.to_nat.
  rewrite Nat.min_0_r, Nat.min_0_l, Nat.max_0_l, Nat.sub_0_r.
  rewrite Nat.min_l by lia. clear.
  induction s as [|c s IH]; simpl; [done|]. by rewrite IH.
Qed.

(** X16: the corpus the scanner of the extension makes, and what
    [analyze] does with it.  Whatever the glob returns and whichever
    documents open, the corpus has at most 20 files; their paths are
    entries of the glob in the order of the glob, so pairwise distinct when
    the entries are; a test file is in the corpus only when every entry is
    a test file; and every content has at most 5000 code units, so the
    import backfill, which reads the first 10000, reads all of it.  Of
    such a corpus [analyze] sends at most five files to the service, in at
    most one chunk. *)
Theorem X16_scanned_corpus_is_small (entries : list string) :
  let corpus := Scanner.scanWorkspace getText entries in
  length corpus <= 20
  /\ sublist (map FileContext.path corpus) entries
  /\ (NoDup entries -> NoDup (map FileContext.path corpus))
  /\ (forall f, f ∈ corpus -> Scanner.isNonTest (FileContext.path f) = false ->
        forall e, e ∈ entries -> Scanner.isNonTest e = false)
  /\ (forall f, f ∈ corpus ->
        String.length (FileContext.content f) <= 5000
        /\ Js.substring (FileContext.content f) 0 10000
           = FileContext.content f)
  /\ length (selectFiles corpus) <= 5
  /\ length (chunksFor corpus) <= 1.
Proof.
  intros corpus.
  pose proof (scanWorkspace_paths entries) as Hpaths. fold corpus in Hpaths.
  assert (length corpus <= 20) as Hlen.
  { rewrite <- (length_map FileContext.path).
    etrans; [apply (sublist_length _ _ Hpaths)|].
    unfold Scanner.filesToProcess. rewrite length_take. lia. }
  assert (sublist (map FileContext.path corpus) entries) as Hsub
    by (etrans; [exact Hpaths|apply filesToProcess_sublist]).
  assert (length (selectFiles corpus) <= 5) as Hsel.
  { rewrite selectFiles_length. unfold maxFilesFor.
    assert (length corpus / 10 <= 2) by (apply Nat.Div0.div_le_upper_bound; lia).
    lia. }
  split; [done|]. split; [done|]. split; [|split; [|split; [|split; [done|]]]].
  - intros Hnd. by eapply sublist_NoDup.
  - intros f Hf Htest e He.
    assert (FileContext.path f ∈ Scanner.filesToProcess entries) as Hin.
    { eapply elem_of_sublist; [|exact Hpaths].
      by apply list_elem_of_In, in_map, list_elem_of_In. }
    unfold Scanner.filesToProcess in Hin.
    destruct (List.filter Scanner.isNonTest entries) as [|x xs] eqn:Hfilter.
    + destruct (Scanner.isNonTest e) eqn:Hnt; [|done].
      assert (In e (List.filter Scanner.isNonTest entries)) as Hbad
        by (apply filter_In; split; [by apply list_elem_of_In|done]).
      by rewrite Hfilter in Hbad.
    + cbn [length Nat.ltb Nat.leb] in Hin. rewrite <- Hfilter in Hin.
      apply elem_of_take in Hin as (i & Hi & _).
      apply list_elem_of_lookup_2, list_elem_of_In, filter_In in Hi as [_ Hi].
      congruence.
  - intros f Hf. unfold corpus, Scanner.scanWorkspace in Hf.
    apply list_elem_of_omap in Hf as (e & _ & Hf).
    destruct (getText e) as [content|]; [|done]. injection Hf as <-.
    cbn [FileContext.content FileContext.file].
    pose proof (length_js_substring_0 content 5000) as Hcut.
    change (Z.of_nat 5000) with Scanner.maxContentLength in Hcut.
    split; [done|]. apply js_substring_short. lia.
  - unfold chunksFor. apply chunksOf_count. unfold chunkSize. lia.
Qed.


End Providers.

(* ===================================================================== *)
(** * Properties of the texts the expressions find *)
(* ===================================================================== *)

Section Semantics.
Import Regex.

Lemma starLoop_sound a greedy k :
  (forall s k res, run a s k = Some res ->
     exists s', matches a s s' /\ k s' = Some res) ->
  forall fuel s res,
    starLoop (run a) greedy k fuel s = Some res ->
    exists s', matches (Star greedy a) s s' /\ k s' = Some res.
Proof.
  intros IHa. induction fuel as [|fuel IH]; intros s res; simpl.
  - intros H. exists s. split; [constructor|done].
  - intros H.
    assert (run a s (fun s' =>
                       if length (rest s') <? length (rest s)
                       then starLoop (run a) greedy k fuel s' else None)
            = Some res ->
            exists s', matches (Star greedy a) s s' /\ k s' = Some res)
      as Hagain.
    { intros Hres. apply IHa in Hres as (s1 & Hm & Hk).
      destruct (Nat.ltb_spec (length (rest s1)) (length (rest s)));
        [|done].
      apply IH in Hk as (s2 & Hm2 & Hk2). exists s2.
      split; [by eapply matches_star_step|done]. }
    destruct greedy; apply orTry_some in H as [H|H];
      first [by apply Hagain | (exists s; split; [constructor|done])].
Qed.

(** The matcher is sound: a state handed to the continuation is a state
    the expression matches up to. *)
Lemma run_sound r : forall s k res,
  run r s k = Some res -> exists s', matches r s s' /\ k s' = Some res.
Proof.
  induction r as [|p|a IHa b IHb|a IHa b IHb|greedy a IHa|i a IHa|m|m|a IHa];
    intros s k res; cbn [run].
  - intros H. exists s. split; [constructor|done].
  - destruct (rest s) as [|c l] eqn:Hrest; [done|].
    destruct (p c) eqn:Hp; [|done]. intros H. eexists.
    split; [by apply matches_chr|done].
  - intros H. apply IHa in H as (s1 & Hm1 & H).
    apply IHb in H as (s2 & Hm2 & H). exists s2.
    split; [by eapply matches_seq|done].
  - intros [H|H]%orTry_some.
    + apply IHa in H as (s' & Hm & H). exists s'.
      split; [by apply matches_alt_l|done].
    + apply IHb in H as (s' & Hm & H). exists s'.
      split; [by apply matches_alt_r|done].
  - by apply starLoop_sound.
  - intros H. apply IHa in H as (s' & Hm & H). eexists.
    split; [by apply matches_group|done].
  - destruct (atBol m s) eqn:Hb; [|done]. intros H. exists s.
    split; [by constructor|done].
  - destruct (atEol m s) eqn:He; [|done]. intros H. exists s.
    split; [by constructor|done].
  - destruct (run a s Some) as [s1|] eqn:Hrun; [|done]. intros H.
    apply IHa in Hrun as (s' & Hm & [= ->]). eexists.
    split; [by apply matches_look|done].
Qed.

Lemma matchAt_sound r p l s' :
  matchAt r p l = Some s' -> matches r (St p l []) s'.
Proof.
  unfold matchAt. intros H. by apply run_sound in H as (s1 & Hm & [= ->]).
Qed.

(** A match reads a prefix of the input. *)
Lemma matches_suffix r s s' :
  matches r s s' -> exists w, rest s = w ++ rest s'.
Proof.
  induction 1 as [s|p c l s Hrest Hp|a b s s1 s2 _ [w1 H1] _ [w2 H2]
                 |a b s s' _ IH|a b s s' _ IH|g a s
                 |g a s s1 s2 _ [w1 H1] _ _ [w2 H2]|i a s s' _ [w H]
                 |m s|m s|a s s' _ _].
  - by exists [].
  - exists [c]. by rewrite Hrest.
  - exists (w1 ++ w2). by rewrite H1, H2, app_assoc.
  - done.
  - done.
  - by exists [].
  - exists (w1 ++ w2). by rewrite H1, H2, app_assoc.
  - by exists w.
  - by exists [].
  - by exists [].
  - by exists [].
Qed.

Lemma consumed_app s s' w : rest s = w ++ rest s' -> consumed s s' = w.
Proof.
  intros H. unfold consumed. rewrite H, length_app.
  replace (length w + length (rest s') - length (rest s')) with (length w)
    by lia.
  apply take_app_length.
Qed.

(** *** The shapes of the matches of some expressions *)

Lemma matches_seq_inv a b s s2 :
  matches (Seq a b) s s2 -> exists s1, matches a s s1 /\ matches b s1 s2.
Proof. inversion 1; subst. by eexists. Qed.

Lemma matches_chr_inv p s s' :
  matches (Chr p) s s' ->
  exists c, rest s = c :: rest s' /\ p c = true /\ caps s' = caps s.
Proof. inversion 1; subst. by exists c. Qed.

Lemma matches_chr_star greedy p s s' :
  matches (Star greedy (Chr p)) s s' ->
  exists w, rest s = w ++ rest s' /\ Forall (fun c => p c = true) w
            /\ caps s' = caps s.
Proof.
  remember (Star greedy (Chr p)) as r eqn:Hr. intros H.
  induction H as [| | | | |g a s|g a s s1 s2 H1 IH1 Hlt H2 IH2| | | |];
    try discriminate Hr.
  - exists []. by repeat split.
  - injection Hr as -> ->.
    apply matches_chr_inv in H1 as (c & Hrest & Hp & Hcaps).
    destruct (IH2 eq_refl) as (w & Hw & Hall & Hcaps').
    exists (c :: w). rewrite Hrest, Hw. split; [done|].
    split; [by constructor|]. by rewrite Hcaps'.
Qed.

Lemma matches_group_inv i a s s2 :
  matches (Group i a) s s2 ->
  exists s', matches a s s'
             /\ s2 = St (prev s') (rest s')
                       ((i, Js.str (consumed s s')) :: caps s').
Proof. inversion 1; subst. by eexists. Qed.

Lemma matches_eol_inv s s' : matches (Eol false) s s' -> s' = s /\ rest s = [].
Proof.
  inversion 1; subst. split; [done|]. unfold atEol in *.
  by destruct (rest s').
Qed.

Lemma matches_plus_chr greedy p s s' :
  matches (plus greedy (Chr p)) s s' ->
  exists w, rest s = w ++ rest s' /\ w ≠ []
            /\ Forall (fun c => p c = true) w /\ caps s' = caps s.
Proof.
  intros (s1 & H1 & H2)%matches_seq_inv.
  apply matches_chr_inv in H1 as (c & Hrest & Hp & Hcaps).
  apply matches_chr_star in H2 as (w & Hw & Hall & Hcaps').
  exists (c :: w). rewrite Hrest, Hw. split; [done|]. split; [done|].
  split; [by constructor|]. by rewrite Hcaps'.
Qed.

(** *** Searches *)

Lemma prevOf_cons p c pre : prevOf p (c :: pre) = prevOf (Some c) pre.
Proof.
  unfold prevOf. destruct pre as [|x pre]; [done|].
  change (last (c :: x :: pre)) with (last (x :: pre)).
  destruct (last (x :: pre)) eqn:Hlast; [done|]. by apply last_None in Hlast.
Qed.

Lemma search_found r : forall l p skipped f,
  search r p skipped l = Some f ->
  exists pre l',
    l = pre ++ l' /\ before f = rev skipped ++ pre
    /\ matches r (St (prevOf p pre) l' []) (after f)
    /\ matched f = consumed (St (prevOf p pre) l' []) (after f)
    /\ groups f = caps (after f).
Proof.
  induction l as [|c l IH]; intros p skipped f; cbn [search].
  - destruct (matchAt r p []) as [s'|] eqn:Hm; [|done].
    intros [= <-]. exists [], []. cbn [before after matched groups].
    change (prevOf p []) with p.
    split; [done|]. split; [by rewrite app_nil_r|].
    split; [by apply matchAt_sound|done].
  - destruct (matchAt r p (c :: l)) as [s'|] eqn:Hm.
    + intros [= <-]. exists [], (c :: l).
      cbn [before after matched groups]. change (prevOf p []) with p.
      split; [done|]. split; [by rewrite app_nil_r|].
      split; [by apply matchAt_sound|done].
    + intros H. apply IH in H as (pre & l' & -> & Hb & Hm' & Hc & Hg).
      exists (c :: pre), l'. rewrite prevOf_cons. split; [done|].
      split; [|done]. rewrite Hb. simpl. by rewrite <- app_assoc.
Qed.

(** Every match of a loop over all the matches of a text is a match at
    some position of the text. *)
Lemma allFrom_found r : forall fuel p skipped l f,
  f ∈ allFrom fuel r p skipped l ->
  exists p' pre l',
    l = pre ++ l'
    /\ matches r (St p' l' []) (after f)
    /\ matched f = consumed (St p' l' []) (after f)
    /\ groups f = caps (after f).
Proof.
  induction fuel as [|fuel IH]; intros p skipped l f; cbn [allFrom].
  - by intros ?%elem_of_nil.
  - destruct (search r p skipped l) as [f0|] eqn:Hs;
      [|by intros ?%elem_of_nil].
    pose proof (search_found _ _ _ _ _ Hs)
      as (pre0 & l0 & Hl & _ & Hm0 & Hc0 & Hg0).
    set (p0 := prevOf p pre0) in *.
    destruct (matches_suffix _ _ _ Hm0) as [w0 Hw0]. cbn [rest] in Hw0.
    assert (forall p1 sk1 l1 post,
              rest (after f0) = post ++ l1 ->
              f ∈ f0 :: allFrom fuel r p1 sk1 l1 ->
              exists p' pre l',
                l = pre ++ l' /\ matches r (St p' l' []) (after f)
                /\ matched f = consumed (St p' l' []) (after f)
                /\ groups f = caps (after f)) as Hcons.
    { intros p1 sk1 l1 post Hpost [->|Hin]%elem_of_cons.
      - by exists p0, pre0, l0.
      - apply IH in Hin as (p' & pre & l' & -> & Hm & Hc & Hg).
        exists p', (pre0 ++ w0 ++ post ++ pre), l'.
        split; [|done]. rewrite Hl, Hw0, Hpost. by rewrite <- !app_assoc. }
    destruct (matched f0) as [|x m] eqn:Hmatched.
    + destruct (rest (after f0)) as [|c l'] eqn:Hrest.
      * intros ->%list_elem_of_singleton.
        apply (Hcons None [] [] []); [done|by left].
      * apply (Hcons _ _ _ [c]). done.
    + apply (Hcons _ _ _ []). done.
Qed.

Lemma all_found r s f :
  f ∈ all r s ->
  exists p' pre l',
    Js.chars s = pre ++ l'
    /\ matches r (St p' l' []) (after f)
    /\ groups f = caps (after f).
Proof.
  unfold all. intros (p' & pre & l' & Hl & Hm & _ & Hg)%allFrom_found.
  by exists p', pre, l'.
Qed.

Lemma all_matched r s f :
  f ∈ all r s ->
  exists pre, Js.chars s = pre ++ matched f ++ rest (after f).
Proof.
  unfold all. intros (p' & pre & l' & Hl & Hm & Hc & _)%allFrom_found.
  destruct (matches_suffix _ _ _ Hm) as [w Hw].
  exists pre. rewrite Hc, (consumed_app _ _ w Hw), Hl. cbn [rest] in Hw.
  by rewrite Hw.
Qed.

Lemma exec_found r s f :
  exec r s = Some f ->
  exists p' l',
    Js.chars s = before f ++ l'
    /\ matches r (St p' l' []) (after f)
    /\ groups f = caps (after f).
Proof.
  unfold exec. intros (pre & l' & Hl & Hb & Hm & _ & Hg)%search_found.
  exists (prevOf None pre), l'. simpl in Hb. by rewrite Hb.
Qed.

End Semantics.

Section ImportLiterals.
Import Regex FileSelector.

Lemma notQuote_spec c :
  negb (existsb (Ascii.eqb c) (Js.chars quotes)) = true -> notAQuote c.
Proof.
  unfold quotes. simpl. rewrite orb_false_r. intros H%negb_true_iff.
  apply orb_false_iff in H as [H1 H2]. split.
  - intros ->. by rewrite Ascii.eqb_refl in H1.
  - intros ->. by rewrite Ascii.eqb_refl in H2.
Qed.

Lemma quote_spec c :
  existsb (Ascii.eqb c) (Js.chars quotes) = true -> isAQuote c.
Proof.
  unfold quotes. simpl. rewrite orb_false_r. intros [H|H]%orb_true_iff.
  - left. by apply Ascii.eqb_eq.
  - right. by apply Ascii.eqb_eq.
Qed.

(** The end of the expressions that find imports: a quote, the group 1
    of code units that are not quotes, and a quote. *)
Lemma quoted_group s s' :
  matches (Seq quote (Seq (Group 1 (plus true notQuote)) quote)) s s' ->
  exists q1 q2 w,
    rest s = q1 :: w ++ q2 :: rest s'
    /\ isAQuote q1 /\ isAQuote q2 /\ w ≠ [] /\ Forall notAQuote w
    /\ caps s' = (1, Js.str w) :: caps s.
Proof.
  intros (s1 & H1 & H)%matches_seq_inv.
  apply matches_seq_inv in H as (s2 & H2 & H3).
  apply matches_chr_inv in H1 as (q1 & Hr1 & Hq1 & Hc1).
  apply matches_group_inv in H2 as (s2' & H2 & ->).
  apply matches_plus_chr in H2 as (w & Hw & Hne & Hall & Hc2).
  apply matches_chr_inv in H3 as (q2 & Hr3 & Hq3 & Hc3).
  cbn [rest caps] in *.
  exists q1, q2, w. rewrite Hr1, Hw, Hr3.
  split; [done|]. split; [by apply quote_spec|].
  split; [by apply quote_spec|]. split; [done|]. split.
  - eapply Forall_impl; [exact Hall|]. intros c Hc. by apply notQuote_spec.
  - rewrite Hc3. by rewrite (consumed_app s1 s2' w Hw), Hc2, Hc1.
Qed.

Lemma group_head i w caps0 f :
  groups f = (i, w) :: caps0 -> group i f = Some w.
Proof. unfold group. intros ->. simpl. by rewrite Nat.eqb_refl. Qed.

Lemma chars_str (l : list ascii) : Js.chars (Js.str l) = l.
Proof. apply list_ascii_of_string_of_list_ascii. Qed.

Lemma quotedIn_intro content pre q1 w q2 post :
  Js.chars content = pre ++ q1 :: w ++ q2 :: post ->
  isAQuote q1 -> isAQuote q2 -> w ≠ [] -> Forall notAQuote w ->
  quotedIn content (Js.str w).
Proof.
  intros Hc Hq1 Hq2 Hne Hall. unfold quotedIn. rewrite chars_str.
  split; [|split; [done|]].
  - destruct w; [done|]. done.
  - by exists pre, post, q1, q2.
Qed.

(** The first group of a match of [es6ImportRegex] or [requireRegex]. *)
Lemma es6_group content f :
  f ∈ all es6ImportRegex content ->
  exists w, group 1 f = Some (Js.str w) /\ quotedIn content (Js.str w).
Proof.
  intros (p' & pre & l' & Hl & Hm & Hg)%all_found.
  unfold es6ImportRegex in Hm. cbn [seqs] in Hm.
  apply matches_seq_inv in Hm as (s1 & H1 & Hm).
  apply matches_seq_inv in Hm as (s2 & H2 & Hm).
  apply matches_seq_inv in Hm as (s3 & H3 & Hm).
  apply quoted_group in Hm as (q1 & q2 & w & Hr & Hq1 & Hq2 & Hne & Hall & Hc).
  destruct (matches_suffix _ _ _ H1) as [w1 Hw1].
  destruct (matches_suffix _ _ _ H2) as [w2 Hw2].
  destruct (matches_suffix _ _ _ H3) as [w3 Hw3].
  cbn [rest] in Hw1. exists w. split.
  - eapply group_head. by rewrite Hg, Hc.
  - apply (quotedIn_intro content (pre ++ w1 ++ w2 ++ w3) q1 w q2
             (rest (after f))); try done.
    rewrite Hl, Hw1, Hw2, Hw3, Hr. by rewrite <- !app_assoc.
Qed.

Lemma require_group content f :
  f ∈ all requireRegex content ->
  exists w, group 1 f = Some (Js.str w) /\ quotedIn content (Js.str w).
Proof.
  intros (p' & pre & l' & Hl & Hm & Hg)%all_found.
  unfold requireRegex in Hm. cbn [seqs] in Hm.
  apply matches_seq_inv in Hm as (s1 & H1 & Hm).
  apply matches_seq_inv in Hm as (s2 & H2 & Hm).
  apply matches_seq_inv in Hm as (s3 & H3 & Hm).
  apply matches_seq_inv in Hm as (s4 & H4 & Hm).
  assert (exists s7, matches (Seq quote (Seq (Group 1 (plus true notQuote))
                                            quote)) s4 s7
                     /\ matches (Seq (Star true space) (chr ")")) s7 (after f))
    as (s7 & Hq & Htail).
  { apply matches_seq_inv in Hm as (s5 & H5 & Hm).
    apply matches_seq_inv in Hm as (s6 & H6 & Hm).
    apply matches_seq_inv in Hm as (s7 & H7 & Hm).
    exists s7. split; [|done].
    eapply matches_seq; [exact H5|]. by eapply matches_seq. }
  apply quoted_group in Hq as (q1 & q2 & w & Hr & Hq1 & Hq2 & Hne & Hall & Hc).
  apply matches_seq_inv in Htail as (s8 & H8 & H9).
  apply matches_chr_star in H8 as (w8 & Hw8 & _ & Hc8).
  apply matches_chr_inv in H9 as (c9 & Hw9 & _ & Hc9).
  destruct (matches_suffix _ _ _ H1) as [w1 Hw1].
  destruct (matches_suffix _ _ _ H2) as [w2 Hw2].
  destruct (matches_suffix _ _ _ H3) as [w3 Hw3].
  destruct (matches_suffix _ _ _ H4) as [w4 Hw4].
  cbn [rest] in Hw1. exists w. split.
  - eapply group_head. by rewrite Hg, Hc9, Hc8, Hc.
  - apply (quotedIn_intro content (pre ++ w1 ++ w2 ++ w3 ++ w4) q1 w q2
             (rest s7)); try done.
    rewrite Hl, Hw1, Hw2, Hw3, Hw4, Hr. by rewrite <- !app_assoc.
Qed.

Lemma firstGroups_es6 content literal :
  literal ∈ firstGroups es6ImportRegex content -> quotedIn content literal.
Proof.
  unfold firstGroups. intros (f & <- & Hf)%list_elem_of_In%in_map_iff.
  apply list_elem_of_In, es6_group in Hf as (w & -> & Hq). done.
Qed.

Lemma firstGroups_require content literal :
  literal ∈ firstGroups requireRegex content -> quotedIn content literal.
Proof.
  unfold firstGroups. intros (f & <- & Hf)%list_elem_of_In%in_map_iff.
  apply list_elem_of_In, require_group in Hf as (w & -> & Hq). done.
Qed.

(** The import literals of the client. *)
Lemma importLiterals_quoted content literal :
  literal ∈ OllamaClient.importLiterals content ->
  quotedIn (Js.substring content 0 10000) literal.
Proof.
  unfold OllamaClient.importLiterals, matchAll.
  intros (imp & Himp & Hlit)%list_elem_of_omap.
  apply list_elem_of_In, in_map_iff in Himp as (f & <- & Hf).
  apply list_elem_of_In, all_matched in Hf as [pre Hpre].
  destruct (exec OllamaClient.importLiteralRe (Js.str (matched f)))
    as [g|] eqn:Hexec; [|done].
  simpl in Hlit.
  apply exec_found in Hexec as (p' & l' & Hl & Hm & Hg).
  rewrite chars_str in Hl.
  unfold OllamaClient.importLiteralRe in Hm. cbn [seqs] in Hm.
  apply quoted_group in Hm as (q1 & q2 & w & Hr & Hq1 & Hq2 & Hne & Hall & Hc).
  cbn [rest caps] in Hr, Hc.
  assert (group 1 g = Some (Js.str w)) as Hgroup
    by (apply (group_head 1 _ []); by rewrite Hg).
  rewrite Hgroup in Hlit.
  injection Hlit as <-.
  apply (quotedIn_intro _ (pre ++ before g) q1 w q2
           (rest (after g) ++ rest (after f))); try done.
  rewrite Hpre, Hl, Hr. rewrite <- !app_assoc. simpl.
  by rewrite <- !app_assoc.
Qed.

(** X18: what the code takes for an import.  Every text
    [extractImports] returns stands in the content between two quotes, is
    not empty and holds no quote; so does every import literal the
    backfill of the client reads, in the first 10000 code units of the
    content.  A content without a quote has no import: its file imports
    nothing and makes no file imported. *)
Theorem X18_imports_are_quoted_texts (content filePath : string) :
  (forall literal, literal ∈ extractImports content filePath ->
     quotedIn content literal)
  /\ (forall literal, literal ∈ OllamaClient.importLiterals content ->
        quotedIn (Js.substring content 0 10000) literal)
  /\ ((forall c, c ∈ Js.chars content -> notAQuote c) ->
      extractImports content filePath = []).
Proof.
  assert (forall literal, literal ∈ extractImports content filePath ->
            quotedIn content literal) as Hall.
  { intros literal. unfold extractImports.
    intros [H|H]%elem_of_app;
      [by apply firstGroups_es6|by apply firstGroups_require]. }
  split; [done|]. split; [apply importLiterals_quoted|]. intros Hnone.
  destruct (extractImports content filePath) as [|literal rest] eqn:He;
    [done|].
  destruct (Hall literal) as (_ & _ & pre & post & q1 & q2 & Hc & Hq1 & _);
    [by left|].
  destruct (Hnone q1) as [H1 H2].
  - rewrite Hc. apply elem_of_app. right. by left.
  - by destruct Hq1.
Qed.

End ImportLiterals.

Section Extensions.
Import Regex.

Lemma matches_alt_inv a b s s' :
  matches (Alt a b) s s' -> matches a s s' \/ matches b s s'.
Proof. inversion 1; subst; [by left|by right]. Qed.

Lemma matches_lit w : forall s s',
  matches (lit w) s s' -> rest s = Js.chars w ++ rest s' /\ caps s' = caps s.
Proof.
  induction w as [|c w IH]; intros s s'.
  - inversion 1; subst. done.
  - destruct w as [|c' w].
    + intros (x & Hr & Hx & Hc)%matches_chr_inv.
      apply Ascii.eqb_eq in Hx as <-. by rewrite Hr.
    + change (lit (String c (String c' w)))
        with (Seq (chr c) (lit (String c' w))).
      intros (s1 & H1 & H2)%matches_seq_inv.
      apply matches_chr_inv in H1 as (x & Hr & Hx & Hc).
      apply Ascii.eqb_eq in Hx as <-.
      apply IH in H2 as [Hr2 Hc2]. rewrite Hr, Hr2, Hc2. done.
Qed.

(** A match of an expression made of a dot, some [extension] and the end
    of the text is the end of the text. *)
Lemma dotted_end extension s f :
  exec (Seq (chr ".") (Seq extension (Eol false))) s = Some f ->
  exists s1 s2,
    Js.chars s = before f ++ "."%char :: rest s1
    /\ matches extension s1 s2 /\ rest s2 = [] /\ rest (after f) = [].
Proof.
  intros (p' & l' & Hl & Hm & _)%exec_found.
  apply matches_seq_inv in Hm as (s1 & H1 & Hm).
  apply matches_seq_inv in Hm as (s2 & H2 & H3).
  apply matches_chr_inv in H1 as (c & Hr & Hc & _).
  apply Ascii.eqb_eq in Hc as <-. cbn [rest] in Hr.
  apply matches_eol_inv in H3 as [-> Hend].
  exists s1, s2. by rewrite Hl, Hr.
Qed.

Lemma replaceFirst_dotted extension s :
  let clean := replaceFirst (Seq (chr ".") (Seq extension (Eol false))) [] s in
  clean = s
  \/ exists s1 s2 w,
       matches extension s1 s2 /\ rest s1 = w /\ rest s2 = []
       /\ s = clean +:+ "." +:+ Js.str w.
Proof.
  unfold replaceFirst.
  destruct (exec _ s) as [f|] eqn:Hexec; [|by left]. right.
  apply dotted_end in Hexec as (s1 & s2 & Hl & Hm & Hend & Hafter).
  exists s1, s2, (rest s1). split; [done|]. split; [done|]. split; [done|].
  rewrite Hafter. cbn [expand map concat]. rewrite !app_nil_r.
  rewrite <- (str_chars s) at 1. rewrite Hl.
  generalize (before f) (rest s1). clear. intros a b. unfold Js.str.
  induction a as [|x a IH]; simpl; [done|]. by rewrite IH.
Qed.

(** X19: the expressions that take an extension off a path take nothing
    else.  The cleaning of [resolveImport] returns the path as it is, or
    the path without a final [.ts], [.tsx], [.js] or [.jsx]; and the name
    [moduleName] gives a module is its whole path, or the last segment of
    the path, or that segment without a final dot and extension, an
    extension being one code unit or more, none of them a dot or a
    slash. *)
Theorem X19_only_an_extension_is_stripped (path : string) :
  let clean := replaceFirst FileSelector.extensionRe [] path in
  let segment := FileSelector.baseName path in
  (clean = path
   \/ exists e, e ∈ ["ts"; "tsx"; "js"; "jsx"]
                /\ path = clean +:+ "." +:+ e)
  /\ (Heuristics.moduleName path = path
      \/ Heuristics.moduleName path = segment
      \/ exists e, segment = Heuristics.moduleName path +:+ "." +:+ e
                   /\ e ≠ ""
                   /\ Forall (fun c => c ≠ "."%char /\ c ≠ "/"%char)
                             (Js.chars e)).
Proof.
  split.
  - unfold FileSelector.extensionRe. cbn [seqs].
    destruct (replaceFirst_dotted (Group 1 FileSelector.ext) path)
      as [Hsame|(s1 & s2 & w & Hm & Hw & Hend & Hpath)]; [by left|]. right.
    exists (Js.str w). split; [|done].
    apply matches_group_inv in Hm as (s' & Hm & ->). cbn [rest] in Hend.
    unfold FileSelector.ext in Hm. cbn [alts] in Hm.
    assert (forall e, matches (lit e) s1 s' -> Js.str w = e) as Hlit.
    { intros e [Hr _]%matches_lit. rewrite <- Hw, Hr, Hend, app_nil_r.
      apply str_chars. }
    apply matches_alt_inv in Hm as [Hm|Hm];
      [rewrite (Hlit _ Hm); set_solver|].
    apply matches_alt_inv in Hm as [Hm|Hm];
      [rewrite (Hlit _ Hm); set_solver|].
    apply matches_alt_inv in Hm as [Hm|Hm];
      rewrite (Hlit _ Hm); set_solver.
  - unfold Heuristics.moduleName, FileSelector.baseName.
    destruct (snd (Js.pop (Js.split path "/"))) as [seg|]; [|by left].
    cbn [default]. unfold Heuristics.lastExtensionRe. cbn [seqs].
    unfold Js.orElse, Js.eqb.
    destruct (String.eqb_spec
                (replaceFirst
                   (Seq (chr ".") (Seq (plus true (noneOf "/.")) (Eol false)))
                   [] seg) "") as [_|_]; [by left|]. right.
    destruct (replaceFirst_dotted (plus true (noneOf "/.")) seg)
      as [Hsame|(s1 & s2 & w & Hm & Hw & Hend & Hseg)]; [by left|]. right.
    exists (Js.str w). split; [done|].
    apply matches_plus_chr in Hm as (w' & Hr & Hne & Hall & _).
    rewrite Hend, app_nil_r in Hr. rewrite Hw in Hr. subst w'.
    split; [by destruct w|]. rewrite chars_str.
    eapply Forall_impl; [exact Hall|]. intros c Hc. simpl in Hc.
    rewrite orb_false_r in Hc. apply negb_true_iff, orb_false_iff in Hc as [H1 H2].
    split; intros ->; by rewrite Ascii.eqb_refl in *.
Qed.

End Extensions.

(* ===================================================================== *)
(** * The tests on paths without regular expressions *)
(* ===================================================================== *)

Section Completeness.
Import Regex.

(** The matcher is complete for an expression without a look-ahead: when
    the expression matches up to a state its continuation accepts, the
    matcher finds a match. *)
Lemma run_complete r s s' :
  matches r s s' -> noLookAhead r = true ->
  forall k res, k s' = Some res -> exists res', run r s k = Some res'.
Proof.
  induction 1 as [s|p c l s Hrest Hp|a b s s1 s2 _ IHa _ IHb
                 |a b s s' _ IH|a b s s' _ IH|g a s
                 |g a s s1 s2 _ IHa Hlt _ IHstar|i a s s' _ IH
                 |m s Hb|m s He|a s s' _ _];
    intros Hno k res Hk; cbn [run noLookAhead] in *.
  - by exists res.
  - rewrite Hrest, Hp. by exists res.
  - apply andb_true_iff in Hno as [Ha Hb].
    destruct (IHb Hb k res Hk) as [res1 H1].
    by apply (IHa Ha (fun s' => run b s' k) res1).
  - apply andb_true_iff in Hno as [Ha Hb].
    destruct (IH Ha k res Hk) as [res1 ->]. by exists res1.
  - apply andb_true_iff in Hno as [Ha Hb].
    destruct (IH Hb k res Hk) as [res1 H1].
    destruct (run a s k) as [res0|]; [by exists res0|by exists res1].
  - cbn [starLoop]. set (again := run a s _).
    destruct g; simpl.
    + destruct again as [res0|]; [by exists res0|by exists res].
    + rewrite Hk. by exists res.
  - destruct (IHstar Hno k res Hk) as [res1 H1]. cbn [run] in H1.
    cbn [starLoop].
    assert (exists res2,
              run a s (fun s' =>
                         if length (rest s') <? length (rest s)
                         then starLoop (run a) g k (length (rest s)) s'
                         else None) = Some res2) as [res2 H2].
    { apply (IHa Hno _ res1).
      destruct (Nat.ltb_spec (length (rest s1)) (length (rest s))); [|lia].
      rewrite <- H1. apply starLoop_fuel; lia. }
    rewrite H2. destruct g; simpl; [by exists res2|].
    destruct (k s) as [res0|]; [by exists res0|by exists res2].
  - by apply (IH Hno _ res).
  - rewrite Hb. by exists res.
  - rewrite He. by exists res.
  - done.
Qed.

Lemma search_complete r :
  noLookAhead r = true ->
  forall pre l' p skipped s',
    matches r (St (prevOf p pre) l' []) s' ->
    exists f, search r p skipped (pre ++ l') = Some f.
Proof.
  intros Hno. induction pre as [|c pre IH]; intros l' p skipped s' Hm.
  - change (prevOf p []) with p in Hm. simpl.
    destruct (run_complete _ _ _ Hm Hno Some s' eq_refl) as [res Hres].
    destruct l' as [|c l']; cbn [search]; unfold matchAt; rewrite Hres;
      by eexists.
  - rewrite prevOf_cons in Hm. cbn [app search].
    destruct (matchAt r p (c :: pre ++ l')); [by eexists|].
    by apply (IH l' (Some c) (c :: skipped) s').
Qed.

(** A test succeeds exactly when the expression matches at some
    position of the text. *)
Lemma test_matches r s :
  noLookAhead r = true ->
  test r s = true
  <-> exists pre l' s',
        Js.chars s = pre ++ l' /\ matches r (St (prevOf None pre) l' []) s'.
Proof.
  intros Hno. unfold test. split.
  - destruct (search r None [] (Js.chars s)) as [f|] eqn:Hs; [|done].
    intros _. apply search_found in Hs as (pre & l' & Hl & _ & Hm & _).
    by exists pre, l', (after f).
  - intros (pre & l' & s' & Hl & Hm). rewrite Hl.
    by destruct (search_complete r Hno pre l' None [] s' Hm) as [f ->].
Qed.

End Completeness.

Section Words.
Import Regex.

Lemma prevOf_app p u1 u2 : prevOf (prevOf p u1) u2 = prevOf p (u1 ++ u2).
Proof.
  revert p. induction u1 as [|c u1 IH]; intros p; [done|].
  cbn [app]. by rewrite !prevOf_cons, IH.
Qed.

Lemma elem_of_products {A} (wa wb : list (list A)) w :
  w ∈ products wa wb <-> exists w1 w2, w1 ∈ wa /\ w2 ∈ wb /\ w = w1 ++ w2.
Proof.
  unfold products. rewrite list_elem_of_In, in_concat. split.
  - intros (ws & Hws & Hw). apply in_map_iff in Hws as (w1 & <- & Hw1).
    apply in_map_iff in Hw as (w2 & <- & Hw2).
    exists w1, w2. by rewrite !list_elem_of_In.
  - intros (w1 & w2 & Hw1 & Hw2 & ->). exists (map (app w1) wb). split.
    + apply in_map_iff. exists w1. split; [done|]. by apply list_elem_of_In.
    + apply in_map_iff. exists w2. split; [done|]. by apply list_elem_of_In.
Qed.

(** What an expression of a shape matches is a word of the shape. *)
Lemma shape_sound r W :
  shape r W -> forall s s',
  matches r s s' ->
  exists w u, w ∈ W /\ fits w u /\ rest s = u ++ rest s'
              /\ prev s' = prevOf (prev s) u.
Proof.
  induction 1 as [|p|a b wa wb _ IHa _ IHb|a b wa wb _ IHa _ IHb|i a wa _ IH];
    intros s s' Hm.
  - inversion Hm; subst. exists [], []. split; [by left|].
    split; [constructor|done].
  - inversion Hm as [|p' c l s0 Hrest Hp| | | | | | | | |]; subst.
    exists [p], [c]. split; [by left|]. split; [by repeat constructor|].
    by rewrite Hrest.
  - apply matches_seq_inv in Hm as (s1 & H1 & H2).
    destruct (IHa _ _ H1) as (w1 & u1 & Hw1 & Hf1 & Hr1 & Hp1).
    destruct (IHb _ _ H2) as (w2 & u2 & Hw2 & Hf2 & Hr2 & Hp2).
    exists (w1 ++ w2), (u1 ++ u2). split.
    { apply elem_of_products. by exists w1, w2. }
    split; [by apply Forall2_app|].
    split; [by rewrite Hr1, Hr2, app_assoc|].
    by rewrite Hp2, Hp1, prevOf_app.
  - apply matches_alt_inv in Hm as [Hm|Hm].
    + destruct (IHa _ _ Hm) as (w & u & Hw & Hrest). exists w, u.
      split; [|done]. apply elem_of_app. by left.
    + destruct (IHb _ _ Hm) as (w & u & Hw & Hrest). exists w, u.
      split; [|done]. apply elem_of_app. by right.
  - apply matches_group_inv in Hm as (s1 & Hm & ->).
    destruct (IH _ _ Hm) as (w & u & Hw & Hf & Hr & Hp). by exists w, u.
Qed.

(** A text that fits a word of the shape is matched. *)
Lemma shape_complete r W :
  shape r W -> forall w u p tail caps0,
  w ∈ W -> fits w u ->
  exists s', matches r (St p (u ++ tail) caps0) s'
             /\ rest s' = tail /\ prev s' = prevOf p u.
Proof.
  induction 1 as [|q|a b wa wb _ IHa _ IHb|a b wa wb _ IHa _ IHb|i a wa _ IH];
    intros w u p tail caps0 Hw Hf.
  - apply list_elem_of_singleton in Hw as ->. inversion Hf; subst.
    eexists. split; [constructor|done].
  - apply list_elem_of_singleton in Hw as ->.
    inversion Hf as [|q' c w' u' Hq Hrest]; subst.
    inversion Hrest; subst. eexists. split; [by apply matches_chr|done].
  - apply elem_of_products in Hw as (w1 & w2 & Hw1 & Hw2 & ->).
    apply Forall2_app_inv_l in Hf as (u1 & u2 & Hf1 & Hf2 & ->).
    destruct (IHa w1 u1 p (u2 ++ tail) caps0 Hw1 Hf1)
      as ([p1 l1 c1] & H1 & Hr1 & Hp1).
    cbn [rest prev] in Hr1, Hp1. subst l1 p1.
    destruct (IHb w2 u2 (prevOf p u1) tail c1 Hw2 Hf2) as (s2 & H2 & Hr2 & Hp2).
    exists s2. rewrite <- app_assoc. split; [by eapply matches_seq|].
    split; [done|]. by rewrite Hp2, prevOf_app.
  - apply elem_of_app in Hw as [Hw|Hw].
    + destruct (IHa w u p tail caps0 Hw Hf) as (s' & Hm & Hrest).
      exists s'. split; [by apply matches_alt_l|done].
    + destruct (IHb w u p tail caps0 Hw Hf) as (s' & Hm & Hrest).
      exists s'. split; [by apply matches_alt_r|done].
  - destruct (IH w u p tail caps0 Hw Hf) as (s' & Hm & Hr & Hp).
    eexists. split; [by apply matches_group|done].
Qed.

Lemma shape_noLookAhead r W : shape r W -> noLookAhead r = true.
Proof.
  induction 1; simpl; try done; by apply andb_true_iff.
Qed.

(** *** Anchors *)

Lemma matches_anchored_end a s s' :
  matches (Seq a (Eol false)) s s' <-> matches a s s' /\ rest s' = [].
Proof.
  split.
  - intros (s1 & H1 & H2)%matches_seq_inv.
    by apply matches_eol_inv in H2 as [-> Hend].
  - intros [Hm Hend]. eapply matches_seq; [exact Hm|].
    constructor. unfold atEol. by rewrite Hend.
Qed.

Lemma matches_anchored_start a s s' :
  matches (Seq (Bol false) a) s s' <-> prev s = None /\ matches a s s'.
Proof.
  split.
  - intros (s1 & H1 & H2)%matches_seq_inv. inversion H1 as [| | | | | | | |m s0 Hb| |]; subst.
    split; [|done]. unfold atBol in Hb. by destruct (prev s1).
  - intros [Hp Hm]. eapply matches_seq; [|exact Hm].
    constructor. unfold atBol. by rewrite Hp.
Qed.

Lemma prevOf_None pre : prevOf None pre = None <-> pre = [].
Proof.
  unfold prevOf. split; [|by intros ->].
  destruct (last pre) eqn:Hlast; [done|]. intros _. by apply last_None.
Qed.

(** *** The three kinds of tests *)

(** An expression without anchors: some part of the text fits a word. *)
Lemma test_infix r W s :
  shape r W ->
  test r s = true
  <-> exists w pre u post,
        w ∈ W /\ fits w u /\ Js.chars s = pre ++ u ++ post.
Proof.
  intros Hshape. rewrite test_matches by by eapply shape_noLookAhead. split.
  - intros (pre & l' & s' & Hl & Hm).
    destruct (shape_sound r W Hshape _ _ Hm) as (w & u & Hw & Hf & Hr & _).
    cbn [rest] in Hr. exists w, pre, u, (rest s'). by rewrite Hl, Hr.
  - intros (w & pre & u & post & Hw & Hf & Hl).
    destruct (shape_complete r W Hshape w u (prevOf None pre) post [] Hw Hf)
      as (s' & Hm & _).
    by exists pre, (u ++ post), s'.
Qed.

(** An expression anchored at the end: the end of the text fits a word. *)
Lemma test_suffix r W s :
  shape r W ->
  test (Seq r (Eol false)) s = true
  <-> exists w pre u, w ∈ W /\ fits w u /\ Js.chars s = pre ++ u.
Proof.
  intros Hshape. rewrite test_matches; cycle 1.
  { simpl. rewrite andb_true_r. by eapply shape_noLookAhead. }
  split.
  - intros (pre & l' & s' & Hl & [Hm Hend]%matches_anchored_end).
    destruct (shape_sound r W Hshape _ _ Hm) as (w & u & Hw & Hf & Hr & _).
    cbn [rest] in Hr. exists w, pre, u. by rewrite Hl, Hr, Hend, app_nil_r.
  - intros (w & pre & u & Hw & Hf & Hl).
    destruct (shape_complete r W Hshape w u (prevOf None pre) [] [] Hw Hf)
      as (s' & Hm & Hend & _).
    exists pre, u, s'. rewrite app_nil_r in Hm. split; [done|].
    by apply matches_anchored_end.
Qed.

(** An expression anchored at both ends: the text fits a word. *)
Lemma test_whole r W s :
  shape r W ->
  test (Seq (Bol false) (Seq r (Eol false))) s = true
  <-> exists w, w ∈ W /\ fits w (Js.chars s).
Proof.
  intros Hshape. rewrite test_matches; cycle 1.
  { simpl. rewrite andb_true_r. by eapply shape_noLookAhead. }
  split.
  - intros (pre & l' & s' & Hl & [Hp [Hm Hend]%matches_anchored_end]
                                  %matches_anchored_start).
    cbn [prev] in Hp. apply prevOf_None in Hp as ->.
    destruct (shape_sound r W Hshape _ _ Hm) as (w & u & Hw & Hf & Hr & _).
    cbn [rest] in Hr. exists w. split; [done|].
    by rewrite Hl, Hr, Hend, app_nil_r.
  - intros (w & Hw & Hf).
    destruct (shape_complete r W Hshape w (Js.chars s) None [] [] Hw Hf)
      as (s' & Hm & Hend & _).
    exists [], (Js.chars s), s'. rewrite app_nil_r in Hm. split; [done|].
    apply matches_anchored_start. split; [done|].
    by apply matches_anchored_end.
Qed.

(** *** Words as texts *)

Lemma allAscii_all (x : ascii) : In x allAscii.
Proof.
  unfold allAscii. apply in_map_iff. exists (nat_of_ascii x).
  split; [apply ascii_nat_embedding|].
  apply in_seq. pose proof (nat_ascii_bounded x). lia.
Qed.

Lemma predNorm_spec norm c p :
  predNorm norm c p = true -> forall x, p x = true <-> norm x = c.
Proof.
  unfold predNorm. rewrite forallb_forall. intros Hall x.
  specialize (Hall x (allAscii_all x)). apply eqb_prop in Hall.
  rewrite Hall. apply Ascii.eqb_eq.
Qed.

Lemma wordNorm_fits norm t w :
  wordNorm norm t w = true -> forall u, fits w u <-> map norm u = t.
Proof.
  revert w. induction t as [|c t IH]; intros [|p w] Hw u; try done.
  - split.
    + by inversion 1.
    + destruct u; [constructor|done].
  - cbn [wordNorm] in Hw. apply andb_true_iff in Hw as [Hp Hw]. split.
    + inversion 1 as [|p' x w' u' Hx Hrest]; subst. simpl.
      f_equal; [by apply (predNorm_spec norm c p Hp)|by apply (IH w Hw)].
    + destruct u as [|x u]; [done|]. intros [= Hx Hrest]. constructor.
      * by apply (predNorm_spec norm c p Hp).
      * by apply (IH w Hw).
Qed.

Lemma wordsNorm_fits norm T W :
  wordsNorm norm T W = true ->
  forall u, (exists w, w ∈ W /\ fits w u)
            <-> exists t, t ∈ T /\ map norm u = Js.chars t.
Proof.
  revert W. induction T as [|t T IH]; intros [|w W] HW u; try done.
  - split; [by intros (w & ?%elem_of_nil & _)|by intros (t & ?%elem_of_nil & _)].
  - cbn [wordsNorm] in HW. apply andb_true_iff in HW as [Hw HW].
    pose proof (wordNorm_fits norm _ _ Hw u) as Hhere.
    pose proof (IH W HW u) as Hrest. split.
    + intros (w' & [->|Hin]%elem_of_cons & Hf).
      * exists t. split; [by left|]. by apply Hhere.
      * destruct (proj1 Hrest) as (t' & Ht' & Hu); [by exists w'|].
        exists t'. split; [by right|done].
    + intros (t' & [->|Hin]%elem_of_cons & Hu).
      * exists w. split; [by left|]. by apply Hhere.
      * destruct (proj2 Hrest) as (w' & Hw' & Hf); [by exists t'|].
        exists w'. split; [by right|done].
Qed.

(** *** The string methods *)

Lemma chars_inj (a b : string) : Js.chars a = Js.chars b -> a = b.
Proof. intros H. by rewrite <- (str_chars a), <- (str_chars b), H. Qed.

Lemma chars_lower (s : string) :
  Js.chars (Js.toLowerCase s) = map Js.lowerChar (Js.chars s).
Proof. induction s as [|c s IH]; simpl; [done|]. by rewrite <- IH. Qed.

Lemma startsWith_spec (s p : string) :
  Js.startsWith s p = true <-> exists post, Js.chars s = Js.chars p ++ post.
Proof.
  revert p. induction s as [|b s IH]; intros [|a p]; simpl.
  - split; [|done]. intros _. by exists [].
  - split; [done|]. by intros (post & [=]).
  - split; [|done]. intros _. by eexists.
  - rewrite andb_true_iff, IH. split.
    + intros [->%Ascii.eqb_eq [post Hpost]]. exists post.
      by rewrite <- Hpost.
    + intros (post & [= -> Hpost]). split; [apply Ascii.eqb_refl|].
      by exists post.
Qed.

Lemma includes_spec (s sub : string) :
  Js.includes s sub = true
  <-> exists pre post, Js.chars s = pre ++ Js.chars sub ++ post.
Proof.
  induction s as [|c s IH].
  - cbn [Js.includes]. rewrite orb_false_r, startsWith_spec. split.
    + intros [post Hpost]. by exists [], post.
    + intros (pre & post & H). simpl in H.
      symmetry in H. apply app_eq_nil in H as [-> H].
      apply app_eq_nil in H as [-> ->]. by exists [].
  - cbn [Js.includes]. rewrite orb_true_iff, startsWith_spec, IH. split.
    + intros [[post Hpost]|(pre & post & Hpost)].
      * by exists [], post.
      * exists (c :: pre), post. simpl. simpl in Hpost. by rewrite Hpost.
    + intros ([|x pre] & post & Hpost).
      * left. by exists post.
      * right. injection Hpost as -> Hpost. by exists pre, post.
Qed.

Lemma endsWith_spec (s suf : string) :
  Js.endsWith s suf = true <-> exists pre, Js.chars s = pre ++ Js.chars suf.
Proof.
  induction s as [|c s IH].
  - cbn [Js.endsWith]. rewrite orb_false_r, andb_true_iff. split.
    + intros [_ Heq]. unfold Js.eqb in Heq.
      apply String.eqb_eq in Heq as <-. by exists [].
    + intros (pre & H). simpl in H. symmetry in H.
      apply app_eq_nil in H as [-> H].
      assert (suf = "") as -> by (by destruct suf). done.
  - cbn [Js.endsWith]. rewrite orb_true_iff, IH, andb_true_iff. split.
    + intros [[_ Heq]|[pre Hpre]].
      * unfold Js.eqb in Heq. apply String.eqb_eq in Heq as <-. by exists [].
      * exists (c :: pre). simpl. simpl in Hpre. by rewrite Hpre.
    + intros ([|x pre] & Hpre).
      * left. simpl in Hpre.
        assert (String c s = suf) as <- by (apply chars_inj; by rewrite <- Hpre).
        split; [apply Nat.eqb_refl|apply String.eqb_refl].
      * right. injection Hpre as -> Hpre. by exists pre.
Qed.

Lemma existsb_elem {A} (f : A -> bool) (l : list A) :
  existsb f l = true <-> exists x, x ∈ l /\ f x = true.
Proof.
  rewrite existsb_exists. split; intros (x & Hx & Hf); exists x;
    by rewrite ?list_elem_of_In in *.
Qed.

(** *** Tests on a path, in lower case *)

Lemma map_app_inv {A B} (f : A -> B) (l : list A) (k1 k2 : list B) :
  map f l = k1 ++ k2 -> exists l1 l2, l = l1 ++ l2 /\ map f l1 = k1 /\ map f l2 = k2.
Proof.
  intros H. exists (take (length k1) l), (drop (length k1) l).
  split; [by rewrite take_drop|].
  rewrite <- firstn_map, <- skipn_map.
  rewrite H. split; [by rewrite take_app_length|by rewrite drop_app_length].
Qed.

(** The three kinds of tests for the words [T], read through a
    function [nrm] on texts that works code unit by code unit. *)
Section Normalised.
Variable norm : ascii -> ascii.
Variable nrm : string -> string.
Hypothesis chars_nrm : forall s, Js.chars (nrm s) = map norm (Js.chars s).

Lemma endsWith_norm r W T path :
  shape r W -> wordsNorm norm T W = true ->
  test (Seq r (Eol false)) path = existsb (Js.endsWith (nrm path)) T.
Proof.
  intros Hshape HT. apply eq_true_iff_eq.
  rewrite (test_suffix r W path Hshape), existsb_elem. split.
  - intros (w & pre & u & Hw & Hf & Hl).
    destruct (proj1 (wordsNorm_fits _ T W HT u)) as (t & Ht & Hu);
      [by exists w|].
    exists t. split; [done|]. apply endsWith_spec.
    exists (map norm pre). by rewrite chars_nrm, Hl, map_app, Hu.
  - intros (t & Ht & [pre Hpre]%endsWith_spec). rewrite chars_nrm in Hpre.
    apply map_app_inv in Hpre as (l1 & l2 & Hl & _ & Hl2).
    destruct (proj2 (wordsNorm_fits _ T W HT l2)) as (w & Hw & Hf);
      [by exists t|].
    by exists w, l1, l2.
Qed.

Lemma includes_norm r W T path :
  shape r W -> wordsNorm norm T W = true ->
  test r path = existsb (Js.includes (nrm path)) T.
Proof.
  intros Hshape HT. apply eq_true_iff_eq.
  rewrite (test_infix r W path Hshape), existsb_elem. split.
  - intros (w & pre & u & post & Hw & Hf & Hl).
    destruct (proj1 (wordsNorm_fits _ T W HT u)) as (t & Ht & Hu);
      [by exists w|].
    exists t. split; [done|]. apply includes_spec.
    exists (map norm pre), (map norm post).
    by rewrite chars_nrm, Hl, !map_app, Hu.
  - intros (t & Ht & (pre & post & Hpre)%includes_spec).
    rewrite chars_nrm in Hpre.
    apply map_app_inv in Hpre as (l1 & l23 & Hl & _ & Hl23).
    apply map_app_inv in Hl23 as (l2 & l3 & -> & Hl2 & _).
    destruct (proj2 (wordsNorm_fits _ T W HT l2)) as (w & Hw & Hf);
      [by exists t|].
    by exists w, l1, l2, l3.
Qed.

Lemma whole_norm r W T path :
  shape r W -> wordsNorm norm T W = true ->
  test (Seq (Bol false) (Seq r (Eol false))) path
  = existsb (Js.eqb (nrm path)) T.
Proof.
  intros Hshape HT. apply eq_true_iff_eq.
  rewrite (test_whole r W path Hshape), existsb_elem.
  rewrite (wordsNorm_fits _ T W HT). split.
  - intros (t & Ht & Hu). exists t. split; [done|].
    unfold Js.eqb. apply String.eqb_eq, chars_inj. by rewrite chars_nrm.
  - intros (t & Ht & Heq). exists t. split; [done|].
    unfold Js.eqb in Heq. apply String.eqb_eq in Heq as <-.
    by rewrite chars_nrm.
Qed.

End Normalised.

Lemma lowerChar_idemp (x : ascii) : Js.lowerChar (Js.lowerChar x) = Js.lowerChar x.
Proof.
  assert (forallb (fun x => Ascii.eqb (Js.lowerChar (Js.lowerChar x))
                                      (Js.lowerChar x)) allAscii = true)
    as Hall by (vm_compute; reflexivity).
  rewrite forallb_forall in Hall. apply Ascii.eqb_eq, Hall, allAscii_all.
Qed.

Lemma toLowerCase_idemp (s : string) :
  Js.toLowerCase (Js.toLowerCase s) = Js.toLowerCase s.
Proof.
  induction s as [|c s IH]; simpl; [done|]. by rewrite lowerChar_idemp, IH.
Qed.

End Words.

Section PathTests.
Import Regex FileSelector.

Lemma test_equiv r1 r2 s :
  noLookAhead r1 = true -> noLookAhead r2 = true ->
  (forall s0 s', matches r1 s0 s' <-> matches r2 s0 s') ->
  test r1 s = test r2 s.
Proof.
  intros H1 H2 Heq. apply eq_true_iff_eq.
  rewrite (test_matches r1 s H1), (test_matches r2 s H2).
  split; intros (pre & l' & s' & Hl & Hm); exists pre, l', s';
    (split; [done|]); by apply Heq.
Qed.

Lemma matches_seq_assoc a b c s s' :
  matches (Seq a (Seq b c)) s s' <-> matches (Seq (Seq a b) c) s s'.
Proof.
  split.
  - intros (s1 & H1 & (s2 & H2 & H3)%matches_seq_inv)%matches_seq_inv.
    eapply matches_seq; [|exact H3]. by eapply matches_seq.
  - intros (s2 & (s1 & H1 & H2)%matches_seq_inv & H3)%matches_seq_inv.
    eapply matches_seq; [exact H1|]. by eapply matches_seq.
Qed.

Lemma matches_seq_congr a b b' :
  (forall s s', matches b s s' <-> matches b' s s') ->
  forall s s', matches (Seq a b) s s' <-> matches (Seq a b') s s'.
Proof.
  intros Hb s s'.
  split; intros (s1 & H1 & H2)%matches_seq_inv;
    (eapply matches_seq; [exact H1|]); by apply Hb.
Qed.

(** The last of a sequence of expressions can be split off. *)
Lemma matches_seqs_snoc l e :
  l ≠ [] ->
  forall s s', matches (seqs (l ++ [e])) s s' <-> matches (Seq (seqs l) e) s s'.
Proof.
  induction l as [|a l IH]; [done|]. intros _.
  destruct l as [|b l]; [done|].
  change (seqs ((a :: b :: l) ++ [e]))
    with (Seq a (seqs ((b :: l) ++ [e]))).
  change (seqs (a :: b :: l)) with (Seq a (seqs (b :: l))).
  intros s s'. rewrite <- matches_seq_assoc.
  apply matches_seq_congr. by apply IH.
Qed.

Lemma noLookAhead_seqs_snoc l e :
  l ≠ [] ->
  noLookAhead (seqs (l ++ [e])) = noLookAhead (seqs l) && noLookAhead e.
Proof.
  induction l as [|a l IH]; [done|]. intros _.
  destruct l as [|b l]; [done|].
  change (seqs ((a :: b :: l) ++ [e]))
    with (Seq a (seqs ((b :: l) ++ [e]))).
  change (seqs (a :: b :: l)) with (Seq a (seqs (b :: l))).
  cbn [noLookAhead]. rewrite IH by done. by rewrite andb_assoc.
Qed.

Section Normalised.
Variable norm : ascii -> ascii.
Variable nrm : string -> string.
Hypothesis chars_nrm : forall s, Js.chars (nrm s) = map norm (Js.chars s).

(** A test for a sequence of expressions that ends with the end of the
    text: the text ends with one of the words. *)
Lemma test_ending body W T path :
  body ≠ [] -> shape (seqs body) W -> wordsNorm norm T W = true ->
  test (seqs (body ++ [Eol false])) path = existsb (Js.endsWith (nrm path)) T.
Proof.
  intros Hne Hshape HT.
  rewrite <- (endsWith_norm norm nrm chars_nrm (seqs body) W T path Hshape HT).
  pose proof (shape_noLookAhead _ _ Hshape) as Hno.
  apply test_equiv.
  - by rewrite noLookAhead_seqs_snoc, Hno.
  - cbn [noLookAhead]. by rewrite Hno.
  - by apply matches_seqs_snoc.
Qed.

(** A test for a sequence of expressions between the start and the end of
    the text: the text is one of the words. *)
Lemma test_being body W T path :
  body ≠ [] -> shape (seqs body) W -> wordsNorm norm T W = true ->
  test (seqs (Bol false :: body ++ [Eol false])) path
  = existsb (Js.eqb (nrm path)) T.
Proof.
  intros Hne Hshape HT.
  rewrite <- (whole_norm norm nrm chars_nrm (seqs body) W T path Hshape HT).
  pose proof (shape_noLookAhead _ _ Hshape) as Hno.
  destruct body as [|a body]; [done|].
  change (seqs (Bol false :: (a :: body) ++ [Eol false]))
    with (Seq (Bol false) (seqs ((a :: body) ++ [Eol false]))).
  apply test_equiv.
  - cbn [noLookAhead]. by rewrite noLookAhead_seqs_snoc, Hno.
  - cbn [noLookAhead]. by rewrite Hno.
  - apply matches_seq_congr. by apply matches_seqs_snoc.
Qed.

(** A test for a sequence of expressions without an anchor: the text
    holds one of the words. *)
Lemma test_holding body W T path :
  shape (seqs body) W -> wordsNorm norm T W = true ->
  test (seqs body) path = existsb (Js.includes (nrm path)) T.
Proof. apply (includes_norm norm nrm chars_nrm). Qed.

End Normalised.

Lemma chars_same (s : string) : Js.chars s = map (fun c => c) (Js.chars s).
Proof. by rewrite map_id. Qed.

(** A text that ends with a word ends with every end of the word. *)
Lemma endsWith_longer (s a b : string) :
  Js.endsWith s (a +:+ b) = true -> Js.endsWith s b = true.
Proof.
  rewrite !endsWith_spec. intros [pre Hpre]. exists (pre ++ Js.chars a).
  by rewrite Hpre, chars_app, app_assoc.
Qed.

Lemma existsb_endsWith_longer (s a : string) (T : list string) :
  existsb (Js.endsWith s) (map (fun t => a +:+ t) T) = true ->
  existsb (Js.endsWith s) T = true.
Proof.
  rewrite !existsb_exists. intros (t & Ht & Hs).
  apply in_map_iff in Ht as (t' & <- & Ht'). exists t'.
  split; [done|]. by eapply endsWith_longer.
Qed.

Lemma orb_absorb (a b : bool) : (b = true -> a = true) -> a || b = a.
Proof. destruct a, b; simpl; try done. intros H. by symmetry; apply H. Qed.

Lemma existsb_sub {A} (f : A -> bool) (l1 l2 : list A) :
  (forall x, In x l1 -> In x l2) ->
  existsb f l1 = true -> existsb f l2 = true.
Proof.
  rewrite !existsb_exists. intros Hsub (x & Hx & Hf). exists x.
  split; [by apply Hsub|done].
Qed.

(** The establishment of a shape and of its words. *)
Ltac find_shape :=
  cbv [seqs alts extI ext litI lit opt chr chrI map];
  repeat econstructor.
Ltac check_words := vm_compute; reflexivity.
Ltac ending body :=
  eapply (test_ending Js.lowerChar Js.toLowerCase chars_lower body);
  [done|find_shape|check_words].
Ltac holding :=
  eapply (test_holding Js.lowerChar Js.toLowerCase chars_lower);
  [find_shape|check_words].

(** X20: the tests of the scorer on a path, without regular expressions.
    On the path in lower case: a test file is a path that ends with
    [test] or [spec], a dot and one of the extensions ts, tsx, js and jsx,
    or that holds [/test] or [/spec]; a configuration file is a path that
    ends with [config], a dot and one of the extensions, or with
    [package.json] or [tsconfig.json]; a service file is a path that ends
    with [service], a dot and one of the extensions, or that holds
    [/service/] or [/services/].  The expressions with a dot before the
    name, and the one for [webpack.config], add nothing. *)
Theorem X20_path_tests_without_expressions (path : string) :
  let lower := Js.toLowerCase path in
  isTestFile path
  = existsb (Js.endsWith lower) (withExtensions "test" ++ withExtensions "spec")
    || Js.includes lower "/test" || Js.includes lower "/spec"
  /\ isConfigFile path
     = existsb (Js.endsWith lower)
         (withExtensions "config" ++ ["package.json"; "tsconfig.json"])
  /\ isServiceFile path
     = existsb (Js.endsWith lower) (withExtensions "service")
       || Js.includes lower "/services/" || Js.includes lower "/service/".
Proof.
  intros lower.
  assert (forall p,
            test (seqs [litI "test"; chr "."; Group 1 extI; Eol false]) p
            = existsb (Js.endsWith (Js.toLowerCase p)) (withExtensions "test"))
    as Htest by (intros p; ending [litI "test"; chr "."; Group 1 extI]).
  assert (forall p,
            test (seqs [litI "spec"; chr "."; Group 1 extI; Eol false]) p
            = existsb (Js.endsWith (Js.toLowerCase p)) (withExtensions "spec"))
    as Hspec by (intros p; ending [litI "spec"; chr "."; Group 1 extI]).
  assert (forall p,
            test (seqs [chr "."; litI "test"; chr "."; Group 1 extI; Eol false])
                 p
            = existsb (Js.endsWith (Js.toLowerCase p))
                (map (fun t => "." +:+ t) (withExtensions "test")))
    as Hdtest by (intros p; ending [chr "."; litI "test"; chr "."; Group 1 extI]).
  assert (forall p,
            test (seqs [chr "."; litI "spec"; chr "."; Group 1 extI; Eol false])
                 p
            = existsb (Js.endsWith (Js.toLowerCase p))
                (map (fun t => "." +:+ t) (withExtensions "spec")))
    as Hdspec by (intros p; ending [chr "."; litI "spec"; chr "."; Group 1 extI]).
  assert (forall p,
            test (seqs [chr "/"; litI "test"]) p
            = existsb (Js.includes (Js.toLowerCase p)) ["/test"])
    as Hhtest by (intros p; holding).
  assert (forall p,
            test (seqs [chr "/"; litI "spec"]) p
            = existsb (Js.includes (Js.toLowerCase p)) ["/spec"])
    as Hhspec by (intros p; holding).
  assert (forall p,
            test (seqs [litI "config"; chr "."; Group 1 extI; Eol false]) p
            = existsb (Js.endsWith (Js.toLowerCase p))
                (withExtensions "config"))
    as Hconfig by (intros p; ending [litI "config"; chr "."; Group 1 extI]).
  assert (forall p,
            test (seqs [chr "."; litI "config"; chr "."; Group 1 extI;
                        Eol false]) p
            = existsb (Js.endsWith (Js.toLowerCase p))
                (map (fun t => "." +:+ t) (withExtensions "config")))
    as Hdconfig by (intros p; ending [chr "."; litI "config"; chr "."; Group 1 extI]).
  assert (forall p,
            test (seqs [litI "package"; chr "."; litI "json"; Eol false]) p
            = existsb (Js.endsWith (Js.toLowerCase p)) ["package.json"])
    as Hpackage by (intros p; ending [litI "package"; chr "."; litI "json"]).
  assert (forall p,
            test (seqs [litI "tsconfig"; chr "."; litI "json"; Eol false]) p
            = existsb (Js.endsWith (Js.toLowerCase p)) ["tsconfig.json"])
    as Htsconfig by (intros p; ending [litI "tsconfig"; chr "."; litI "json"]).
  assert (forall p,
            test (seqs [litI "webpack"; chr "."; litI "config"; chr ".";
                        Group 1 extI; Eol false]) p
            = existsb (Js.endsWith (Js.toLowerCase p))
                (map (fun t => "webpack." +:+ t) (withExtensions "config")))
    as Hwebpack by (intros p; ending [litI "webpack"; chr "."; litI "config"; chr "."; Group 1 extI]).
  assert (forall p,
            test (seqs [litI "service"; chr "."; Group 1 extI; Eol false]) p
            = existsb (Js.endsWith (Js.toLowerCase p))
                (withExtensions "service"))
    as Hservice by (intros p; ending [litI "service"; chr "."; Group 1 extI]).
  assert (forall p,
            test (seqs [chr "/"; litI "service"; opt (chrI "s"); chr "/"]) p
            = existsb (Js.includes (Js.toLowerCase p))
                ["/services/"; "/service/"])
    as Hservices by (intros p; holding).
  split; [|split].
  - unfold isTestFile.
    rewrite Htest, Hspec, Hdtest, Hdspec, Hhtest, Hhspec.
    rewrite toLowerCase_idemp. fold lower. rewrite existsb_app.
    set (t := existsb (Js.endsWith lower) (withExtensions "test")).
    set (s := existsb (Js.endsWith lower) (withExtensions "spec")).
    assert (existsb (Js.endsWith lower)
              (map (fun t => "." +:+ t) (withExtensions "test")) = true ->
            t = true) as Ht by apply existsb_endsWith_longer.
    assert (existsb (Js.endsWith lower)
              (map (fun t => "." +:+ t) (withExtensions "spec")) = true ->
            s = true) as Hs by apply existsb_endsWith_longer.
    cbn [existsb]. rewrite !orb_false_r.
    destruct t, s,
      (existsb (Js.endsWith lower)
         (map (fun t => "." +:+ t) (withExtensions "test"))),
      (existsb (Js.endsWith lower)
         (map (fun t => "." +:+ t) (withExtensions "spec")));
      simpl; try done; first [by discriminate Ht|by discriminate Hs].
  - unfold isConfigFile. cbn [existsb].
    rewrite Hconfig, Hdconfig, Hpackage, Htsconfig, Hwebpack.
    fold lower. rewrite existsb_app.
    set (c := existsb (Js.endsWith lower) (withExtensions "config")).
    assert (existsb (Js.endsWith lower)
              (map (fun t => "." +:+ t) (withExtensions "config")) = true ->
            c = true) as Hd by apply existsb_endsWith_longer.
    assert (existsb (Js.endsWith lower)
              (map (fun t => "webpack." +:+ t) (withExtensions "config"))
            = true -> c = true) as Hw by apply existsb_endsWith_longer.
    cbn [existsb]. rewrite !orb_false_r.
    destruct c,
      (existsb (Js.endsWith lower)
         (map (fun t => "." +:+ t) (withExtensions "config"))),
      (existsb (Js.endsWith lower)
         (map (fun t => "webpack." +:+ t) (withExtensions "config"))),
      (Js.endsWith lower "package.json"), (Js.endsWith lower "tsconfig.json");
      simpl; try done; first [by discriminate Hd|by discriminate Hw].
  - unfold isServiceFile. rewrite Hservice, Hservices.
    rewrite toLowerCase_idemp. fold lower. cbn [existsb].
    by rewrite !orb_false_r, orb_assoc.
Qed.

End PathTests.

Section EntryPoints.
Import Regex FileSelector.

Ltac find_shape :=
  cbv [seqs alts extI ext litI lit opt chr chrI map];
  repeat econstructor.
Ltac check_words := vm_compute; reflexivity.

(** The words of the expressions of [entryPointPatterns]. *)
Lemma entry_named path :
  test (seqs [Bol false; opt (Group 1 (litI "src/"));
              Group 2 (alts (map litI
                               ["index"; "main"; "app"; "server"; "entry"]));
              chr "."; Group 3 extI; Eol false]) path
  = existsb (Js.eqb (Js.toLowerCase path)) entryNames.
Proof.
  eapply (test_being Js.lowerChar Js.toLowerCase chars_lower
            [opt (Group 1 (litI "src/"));
             Group 2 (alts (map litI
                              ["index"; "main"; "app"; "server"; "entry"]));
             chr "."; Group 3 extI]);
    [done|find_shape|check_words].
Qed.

Lemma entry_single name path :
  name = "app" \/ name = "server" ->
  test (seqs [Bol false; opt (Group 1 (litI "src/")); litI name; chr ".";
              Group 2 extI; Eol false]) path
  = existsb (Js.eqb (Js.toLowerCase path))
      (withExtensions ("src/" +:+ name) ++ withExtensions name).
Proof.
  intros [-> | ->].
  - eapply (test_being Js.lowerChar Js.toLowerCase chars_lower
              [opt (Group 1 (litI "src/")); litI "app"; chr ".";
               Group 2 extI]);
      [done|find_shape|check_words].
  - eapply (test_being Js.lowerChar Js.toLowerCase chars_lower
              [opt (Group 1 (litI "src/")); litI "server"; chr ".";
               Group 2 extI]);
      [done|find_shape|check_words].
Qed.

Lemma entry_package path :
  test (seqs [lit "package.json"; Eol false]) path
  = Js.endsWith path "package.json".
Proof.
  erewrite (test_ending (fun c => c) (fun s => s) chars_same
             [lit "package.json"] _ ["package.json"]);
    [|done|find_shape|check_words].
  simpl. by rewrite orb_false_r.
Qed.

Lemma single_is_named name x :
  name = "app" \/ name = "server" ->
  existsb (Js.eqb x) (withExtensions ("src/" +:+ name) ++ withExtensions name)
  = true ->
  existsb (Js.eqb x) entryNames = true.
Proof.
  intros Hname. apply existsb_sub. intros t Ht.
  destruct Hname as [-> | ->]; vm_compute in Ht |- *; tauto.
Qed.

(** The test of [findEntryPoints] on a path. *)
Lemma entry_test path :
  existsb (fun pattern =>
             test pattern (baseName path)
             || test pattern (Js.toLowerCase path))
          entryPointPatterns
  = isEntryPointPath path.
Proof.
  unfold entryPointPatterns, isEntryPointPath. cbn [existsb].
  rewrite !entry_named, !entry_package.
  rewrite !(entry_single "app") by (by left).
  rewrite !(entry_single "server") by (by right).
  rewrite !toLowerCase_idemp.
  pose proof (single_is_named "app" (Js.toLowerCase (baseName path))
                (or_introl eq_refl)) as Ha1.
  pose proof (single_is_named "app" (Js.toLowerCase path)
                (or_introl eq_refl)) as Ha2.
  pose proof (single_is_named "server" (Js.toLowerCase (baseName path))
                (or_intror eq_refl)) as Hs1.
  pose proof (single_is_named "server" (Js.toLowerCase path)
                (or_intror eq_refl)) as Hs2.
  destruct (existsb (Js.eqb (Js.toLowerCase (baseName path))) entryNames),
    (existsb (Js.eqb (Js.toLowerCase path)) entryNames); cbn [orb]; try done.
  destruct (existsb (Js.eqb (Js.toLowerCase (baseName path)))
              (withExtensions ("src/" +:+ "app") ++ withExtensions "app"));
    [by specialize (Ha1 eq_refl)|].
  destruct (existsb (Js.eqb (Js.toLowerCase path))
              (withExtensions ("src/" +:+ "app") ++ withExtensions "app"));
    [by specialize (Ha2 eq_refl)|].
  destruct (existsb (Js.eqb (Js.toLowerCase (baseName path)))
              (withExtensions ("src/" +:+ "server")
               ++ withExtensions "server"));
    [by specialize (Hs1 eq_refl)|].
  destruct (existsb (Js.eqb (Js.toLowerCase path))
              (withExtensions ("src/" +:+ "server")
               ++ withExtensions "server"));
    [by specialize (Hs2 eq_refl)|].
  cbn [orb]. by rewrite !orb_false_r.
Qed.

(** The test of [findCoreFiles] on a path. *)
Lemma core_test path :
  existsb (fun pattern => test pattern (Js.toLowerCase path)) corePatterns
  = isCorePath path.
Proof.
  unfold corePatterns, isCorePath. cbn [existsb].
  erewrite (test_holding Js.lowerChar Js.toLowerCase chars_lower
             [chr "/"; litI "service"; opt (chrI "s"); chr "/"] _
             ["/services/"; "/service/"]); [|find_shape|check_words].
  erewrite (test_holding Js.lowerChar Js.toLowerCase chars_lower
             [chr "/"; litI "core"; chr "/"] _ ["/core/"]);
    [|find_shape|check_words].
  erewrite (test_holding Js.lowerChar Js.toLowerCase chars_lower
             [chr "/"; litI "util"; opt (chrI "s"); chr "/"] _
             ["/utils/"; "/util/"]); [|find_shape|check_words].
  erewrite (test_holding Js.lowerChar Js.toLowerCase chars_lower
             [chr "/"; litI "model"; opt (chrI "s"); chr "/"] _
             ["/models/"; "/model/"]); [|find_shape|check_words].
  erewrite (test_holding Js.lowerChar Js.toLowerCase chars_lower
             [chr "/"; litI "lib"; chr "/"] _ ["/lib/"]);
    [|find_shape|check_words].
  erewrite (test_ending Js.lowerChar Js.toLowerCase chars_lower
             [litI "service"; chr "."; Group 1 extI] _
             (withExtensions "service")); [|done|find_shape|check_words].
  erewrite (test_ending Js.lowerChar Js.toLowerCase chars_lower
             [litI "util"; chr "."; Group 1 extI] _
             (withExtensions "util")); [|done|find_shape|check_words].
  rewrite !toLowerCase_idemp, existsb_app. cbn [existsb].
  rewrite !orb_false_r, !orb_assoc. done.
Qed.

(** The loops that fill the two sets. *)
Lemma entry_loop (test : string -> bool) files (set : OrderedSet.t) p :
  p ∈ foldl (fun entryPoints file =>
               if test (FileContext.path file)
               then OrderedSet.add entryPoints (FileContext.path file)
               else entryPoints) set files
  <-> p ∈ set \/ (p ∈ map FileContext.path files /\ test p = true).
Proof.
  revert set. induction files as [|f files IH]; intros set; simpl.
  - split; [by left|]. by intros [?|[?%elem_of_nil _]].
  - rewrite IH, elem_of_cons.
    destruct (test (FileContext.path f)) eqn:Htest.
    + rewrite OrderedSet_add_elem. split; [|by intuition congruence].
      intros [[?| ->]|?]; [by left| |tauto]. right. split; [by left|done].
    + split; [tauto|]. intros [?|[[-> |?] ?]]; [tauto|congruence|tauto].
Qed.

Lemma entry_loop_NoDup (test : string -> bool) files (set : OrderedSet.t) :
  NoDup set ->
  NoDup (foldl (fun entryPoints file =>
                  if test (FileContext.path file)
                  then OrderedSet.add entryPoints (FileContext.path file)
                  else entryPoints) set files).
Proof.
  revert set. induction files as [|f files IH]; intros set Hnd; simpl; [done|].
  apply IH. destruct (test (FileContext.path f)); [|done].
  by apply OrderedSet_add_NoDup.
Qed.

Lemma core_loop (test : string -> bool) files (set : gset string) p :
  p ∈ foldl (fun coreFiles file =>
               if test (FileContext.path file)
               then {[FileContext.path file]} ∪ coreFiles
               else coreFiles) set files
  <-> p ∈ set \/ (p ∈ map FileContext.path files /\ test p = true).
Proof.
  revert set. induction files as [|f files IH]; intros set; simpl.
  - split; [by left|]. by intros [?|[?%elem_of_nil _]].
  - rewrite IH, elem_of_cons.
    destruct (test (FileContext.path f)) eqn:Htest.
    + rewrite elem_of_union, elem_of_singleton.
      split; [|by intuition congruence].
      intros [[-> |?]|?]; [|by left|tauto]. right. split; [by left|done].
    + split; [tauto|]. intros [?|[[-> |?] ?]]; [tauto|congruence|tauto].
Qed.

Lemma findEntryPoints_spec files p :
  p ∈ findEntryPoints files
  <-> p ∈ map FileContext.path files /\ isEntryPointPath p = true.
Proof.
  unfold findEntryPoints.
  rewrite (entry_loop
             (fun path =>
                existsb (fun pattern =>
                           test pattern (baseName path)
                           || test pattern (Js.toLowerCase path))
                        entryPointPatterns) files [] p).
  rewrite entry_test. split; [|by right]. by intros [?%elem_of_nil|?].
Qed.

Lemma findCoreFiles_spec files p :
  p ∈ findCoreFiles files
  <-> p ∈ map FileContext.path files /\ isCorePath p = true.
Proof.
  unfold findCoreFiles.
  rewrite (core_loop
             (fun path =>
                existsb (fun pattern => test pattern (Js.toLowerCase path))
                        corePatterns) files ∅ p).
  rewrite core_test. split; [|by right]. by intros [?%elem_of_empty|?].
Qed.

(** X21: the entry points and the core files of a corpus, without
    regular expressions.  A path of the corpus is an entry point exactly
    when its last segment or the whole path, in lower case, is one of
    index, main, app, server and entry with one of the extensions ts, tsx,
    js and jsx, possibly after [src/], or when the last segment as it is,
    or the whole path in lower case, ends with [package.json]: so an
    [index.ts] is an entry point in whatever directory it is.  A path is a core file exactly when, in lower case, it
    holds one of the directories service, services, core, util, utils,
    model, models and lib between slashes, or ends with [service] or
    [util], a dot and one of the extensions.  No entry point is listed
    twice. *)
Theorem X21_entry_points_and_core_files (files : list FileContext.t) :
  (forall p, p ∈ findEntryPoints files
             <-> p ∈ map FileContext.path files /\ isEntryPointPath p = true)
  /\ NoDup (findEntryPoints files)
  /\ (forall p, p ∈ findCoreFiles files
                <-> p ∈ map FileContext.path files /\ isCorePath p = true).
Proof.
  split; [apply findEntryPoints_spec|]. split; [|apply findCoreFiles_spec].
  apply (entry_loop_NoDup
           (fun path =>
              existsb (fun pattern =>
                         test pattern (baseName path)
                         || test pattern (Js.toLowerCase path))
                      entryPointPatterns)).
  constructor.
Qed.

(** ** The score *)

Lemma scoreMap_lookup_gen (sc : FileContext.t -> Z) files
  (fileScores : gmap string Z) p :
  (forall f g, FileContext.path f = FileContext.path g -> sc f = sc g) ->
  foldl (fun fileScores file => <[FileContext.path file := sc file]> fileScores)
        fileScores files !! p
  = match List.find (fun f => Js.eqb (FileContext.path f) p) files with
    | Some f => Some (sc f)
    | None => fileScores !! p
    end.
Proof.
  intros Hsc. revert fileScores.
  induction files as [|f files IH]; intros fileScores; simpl; [done|].
  rewrite IH. unfold Js.eqb.
  destruct (String.eqb_spec (FileContext.path f) p) as [Hp|Hp].
  - destruct (List.find _ files) as [g|] eqn:Hfind.
    + f_equal. apply Hsc. apply find_some in Hfind as [_ Hg].
      apply String.eqb_eq in Hg. congruence.
    + by rewrite <- Hp, lookup_insert_eq.
  - destruct (List.find _ files) as [g|]; [done|].
    by rewrite lookup_insert_ne.
Qed.

Lemma points_if (n : Z) (b : bool) (x : Z) :
  (if b then (x + n)%Z else x) = (x + points n b)%Z.
Proof. unfold points. destruct b; lia. Qed.

Lemma score_pathScore files f :
  score (findEntryPoints files) (findCoreFiles files) (buildImportGraph files) f
  = (if bool_decide (FileContext.path f ∈ map FileContext.path files)
     then pathScore files (FileContext.path f)
     else pathScore files (FileContext.path f)
          - points 100 (isEntryPointPath (FileContext.path f))
          - points 80 (isCorePath (FileContext.path f)))%Z.
Proof.
  unfold score, pathScore, OrderedSet.has.
  set (p := FileContext.path f).
  rewrite (bool_decide_ext (p ∈ findEntryPoints files)
             (p ∈ map FileContext.path files /\ isEntryPointPath p = true))
    by apply findEntryPoints_spec.
  rewrite (bool_decide_ext (p ∈ findCoreFiles files)
             (p ∈ map FileContext.path files /\ isCorePath p = true))
    by apply findCoreFiles_spec.
  destruct (buildImportGraph files !! p) as [n|]; cbn [from_option];
    unfold points;
    destruct (isConfigFile p), (isServiceFile p), (isTestFile p),
      (Js.includes p "/src/" || Js.includes p "/lib/"),
      (isEntryPointPath p), (isCorePath p);
    repeat case_bool_decide; try lia; tauto.
Qed.

(** X22: the score of a file.  The score the selector sorts by depends
    on the path of the file and on the import graph only: 100 for an entry
    point, 80 for a core file, 5 for each path that imports it, 3 for each
    import literal of the files of its path, 50 for a configuration file,
    30 for a service file, 10 for a path that holds [/src/] or [/lib/], and
    20 off for a test file; and it is never below -20.  Two files of one
    path have one score. *)
Theorem X22_score_of_a_file (files : list FileContext.t) (f : FileContext.t) :
  f ∈ files ->
  scoreOf (scoreMap files) f = pathScore files (FileContext.path f)
  /\ (-20 <= scoreOf (scoreMap files) f)%Z.
Proof.
  intros Hf.
  assert (scoreOf (scoreMap files) f = pathScore files (FileContext.path f))
    as Hscore.
  { unfold scoreOf, scoreMap.
    rewrite (scoreMap_lookup_gen
               (score (findEntryPoints files) (findCoreFiles files)
                  (buildImportGraph files)) files ∅ (FileContext.path f));
      cycle 1.
    { intros g h Hpath. unfold score. by rewrite Hpath. }
    destruct (List.find _ files) as [g|] eqn:Hfind.
    - apply find_some in Hfind as [Hg Hpath]. apply String.eqb_eq in Hpath.
      cbn [default from_option]. rewrite score_pathScore, Hpath.
      rewrite bool_decide_true; [done|].
      by apply list_elem_of_In, in_map, list_elem_of_In.
    - exfalso. apply list_elem_of_In in Hf.
      apply (find_none _ _ Hfind) in Hf. unfold Js.eqb in Hf.
      by rewrite String.eqb_refl in Hf. }
  split; [done|]. rewrite Hscore. unfold pathScore, points.
  destruct (isEntryPointPath _), (isCorePath _), (isConfigFile _),
    (isServiceFile _), (isTestFile _), (_ || _); lia.
Qed.

Lemma X22_score_of_a_file_witness :
  scoreOf (scoreMap corpusWithEntryPoint) (FileContext.file "index.ts" "")
  = pathScore corpusWithEntryPoint "index.ts".
Proof.
  apply (X22_score_of_a_file corpusWithEntryPoint
           (FileContext.file "index.ts" "")).
  apply list_elem_of_In. simpl. tauto.
Defined.

End EntryPoints.

